(** * nostrdownload: retrieval and reconstruction engine

    A shallow embedding of the TypeScript sources

      - [lib/keys.ts]   (identity codec),
      - [lib/crypto.ts] (decryption adapter, base64 helpers),
      - [lib/nostr.ts]  (record resolver, chunk retrieval, retrieval cache),
      - [App.tsx]       (the route parameters),

    together with the properties stated about them.  Line numbers in the
    comments on keys.ts and nostr.ts are those of the listing that holds
    the two files one after the other (keys.ts first).  Calls of
    [console.log] and [console.error] are left out.

    Conventions.  A JavaScript string is a sequence of code units; here it
    is a [string] whose characters are the code units 0..255 (the Latin-1
    range), which covers every string the properties speak about (hex keys,
    base64 text, decimal tags).  A JavaScript number is a double; the
    numbers of the sources hold integers (counts, times, page numbers,
    indices).  Where a number is only counted or compared it is the [Z] it
    holds; where the sources compute with it or parse it from text
    ([totalArchives + 2 - page], [parseInt]) it is a [JS.Number], whose
    arithmetic rounds as the arithmetic of doubles does.  A [Uint8Array] is
    a [list byte].  A function that may throw returns a [result]. *)

From Stdlib Require Import ZArith NArith Ascii String List Lia Permutation.
From Stdlib.Strings Require Import Byte.
From Stdlib Require Import DecimalString DecimalN.
From Stdlib Require Import SpecFloat.
From stdpp Require Import gmap strings list fin_maps sorting.

Open Scope string_scope.
Open Scope list_scope.

(** ** Results of functions that may throw *)

Inductive result (E A : Type) : Type :=
| Ok (a : A)
| Throw (e : E).
Arguments Ok {E A} a.
Arguments Throw {E A} e.

Definition rbind {E A B} (r : result E A) (k : A -> result E B) : result E B :=
  match r with
  | Ok a => k a
  | Throw e => Throw e
  end.

(** ** The string primitives of the JavaScript runtime that the sources call *)

Module JS.

Definition code (c : ascii) : N := N_of_ascii c.

Definition inRange (lo hi : N) (c : ascii) : bool :=
  (lo <=? code c)%N && (code c <=? hi)%N.

(** [WhiteSpace] and [LineTerminator] code units below 256: TAB, LF, VT, FF,
    CR, SPACE and NBSP. *)
Definition isWhiteSpace (c : ascii) : bool :=
  inRange 9 13 c || (code c =? 32)%N || (code c =? 160)%N.

Definition isDigit (c : ascii) : bool := inRange 48 57 c.

Fixpoint all_chars (p : ascii -> bool) (s : string) : bool :=
  match s with
  | EmptyString => true
  | String c s' => p c && all_chars p s'
  end.

Fixpoint trimStart (s : string) : string :=
  match s with
  | EmptyString => EmptyString
  | String c s' => if isWhiteSpace c then trimStart s' else s
  end.

Fixpoint trimEnd (s : string) : string :=
  match s with
  | EmptyString => EmptyString
  | String c s' =>
      match trimEnd s' with
      | EmptyString => if isWhiteSpace c then EmptyString else String c EmptyString
      | t => String c t
      end
  end.

(** [String.prototype.trim] *)
Definition trim (s : string) : string := trimEnd (trimStart s).

(** [String.prototype.startsWith] *)
Definition startsWith (s p : string) : bool := String.prefix p s.

(** [String.prototype.toLowerCase] on code units below 256: A-Z, and
    U+00C0..U+00DE without the multiplication sign U+00D7, move up by 32. *)
Definition lowerChar (c : ascii) : ascii :=
  if inRange 65 90 c || (inRange 192 222 c && negb (code c =? 215)%N)
  then ascii_of_N (code c + 32)
  else c.

Fixpoint toLowerCase (s : string) : string :=
  match s with
  | EmptyString => EmptyString
  | String c s' => String (lowerChar c) (toLowerCase s')
  end.

(** [String.prototype.split] with a one-character separator. *)
Fixpoint split (sep : ascii) (s : string) : list string :=
  match s with
  | EmptyString => [EmptyString]
  | String c s' =>
      if Ascii.eqb c sep then EmptyString :: split sep s'
      else match split sep s' with
           | p :: ps => String c p :: ps
           | [] => [String c EmptyString]
           end
  end.

(** *** Numbers

    A number other than [NaN] that holds an integer: a finite double with
    an integer value, or an infinity.  The sign of zero is not kept. *)
Inductive Num :=
| Infinity (negative : bool)
| Int (z : Z).

(** A number; [None] is [NaN]. *)
Definition Number := option Num.

Definition NaN : Number := None.

#[global] Instance Num_eq_dec : EqDecision Num.
Proof. solve_decision. Defined.

Definition Num_encode (x : Num) : bool + Z :=
  match x with
  | Infinity negative => inl negative
  | Int z => inr z
  end.

Definition Num_decode (s : bool + Z) : Num :=
  match s with
  | inl negative => Infinity negative
  | inr z => Int z
  end.

#[global] Instance Num_countable : Countable Num :=
  inj_countable' Num_encode Num_decode
    (fun x => match x with Infinity _ | Int _ => eq_refl end).

(** The order of the numbers other than [NaN]. *)
Definition le (x y : Num) : Prop :=
  match x, y with
  | Infinity true, _ => True
  | _, Infinity false => True
  | Int a, Int b => (a <= b)%Z
  | _, _ => False
  end.

#[global] Instance le_dec (x y : Num) : Decision (le x y).
Proof. destruct x as [[]|a], y as [[]|b]; cbn; apply _. Defined.

Definition lt (x y : Num) : Prop := le x y /\ x <> y.

(** The double nearest to an integer, ties going to the even significand.
    The integers up to 2^53 in absolute value are doubles themselves.
    Beyond, a double has 53 significant bits: of an integer of 53 + e bits
    the last e bits are rounded away.  From 2^1024 - 2^970 on the nearest
    double is an infinity. *)
Definition roundDouble (z : Z) : Num :=
  let a := Z.abs z in
  if (a <=? 9007199254740992)%Z then Int z
  else
    let e := (Z.log2 a - 52)%Z in
    let q := (a / 2 ^ e)%Z in
    let r := (a mod 2 ^ e)%Z in
    let q' := if (2 * r <? 2 ^ e)%Z then q
              else if (2 ^ e <? 2 * r)%Z then (q + 1)%Z
              else if Z.even q then q else (q + 1)%Z in
    let v := (q' * 2 ^ e)%Z in
    if (2 ^ 1024 <=? v)%Z then Infinity (z <? 0)%Z else Int (Z.sgn z * v).

(** [-x] *)
Definition neg (x : Number) : Number :=
  match x with
  | Some (Int z) => Some (Int (- z))
  | Some (Infinity negative) => Some (Infinity (negb negative))
  | None => None
  end.

(** [x + y] on numbers: the sum of two doubles that hold integers is the
    integer sum, rounded. *)
Definition add (x y : Number) : Number :=
  match x, y with
  | Some (Int a), Some (Int b) => Some (roundDouble (a + b))
  | Some (Infinity s), Some (Infinity s') => if Bool.eqb s s' then x else None
  | Some (Infinity _), Some (Int _) => x
  | Some (Int _), Some (Infinity _) => y
  | _, _ => None
  end.

(** [x - y] on numbers. *)
Definition sub (x y : Number) : Number := add x (neg y).

(** [parseInt(s, 10)]: leading white space is skipped, one sign is read,
    then the longest run of decimal digits; the result is the double
    nearest to their value, and [None], which is [NaN], when there is no
    digit.  Past the twentieth digit ECMAScript leaves the digits to the
    engine; V8 and SpiderMonkey read them all, as here. *)
Fixpoint digitsValue (acc : Z) (s : string) : Z :=
  match s with
  | EmptyString => acc
  | String c s' =>
      if isDigit c then digitsValue (10 * acc + Z.of_N (code c - 48)) s'
      else acc
  end.

Definition parseDigits (s : string) : option Z :=
  match s with
  | EmptyString => None
  | String c _ => if isDigit c then Some (digitsValue 0 s) else None
  end.

Definition parseInt10 (s : string) : Number :=
  match trimStart s with
  | String "-" r => (fun v => roundDouble (- v)) <$> parseDigits r
  | String "+" r => roundDouble <$> parseDigits r
  | r => roundDouble <$> parseDigits r
  end.

End JS.

(** * lib/keys.ts *)

Module Keys.

Inductive Exn :=
| InvalidNsecFormat        (* 'Invalid nsec format' *)
| InvalidNpubFormat        (* 'Invalid npub format' *)
| InvalidKeyFormat         (* 'Invalid key format. Use npub, nsec, or hex public key.' *)
| LibraryError.            (* thrown inside nostr-tools *)

(** What [nip19.decode] returns: a type tag and the data. *)
Inductive Decoded :=
| DecNsec (data : list byte)
| DecNpub (data : string)
| DecOther (type : string).

Definition isNsec (d : Decoded) : bool :=
  match d with DecNsec _ => true | _ => false end.
Definition isNpub (d : Decoded) : bool :=
  match d with DecNpub _ => true | _ => false end.

Record NormalizedKey := {
  pubkey : string;
  secretKey : option (list byte)
}.

Section Codec.

(** The two functions of nostr-tools the codec is written over. *)
Variable nip19_decode : string -> result Exn Decoded.
Variable getPublicKey : list byte -> result Exn string.

Definition nsecToSecretKey (nsec : string) : result Exn (list byte) :=
  rbind (nip19_decode nsec) (fun decoded =>
    match decoded with
    | DecNsec data => Ok data
    | _ => Throw InvalidNsecFormat
    end).

Definition npubToPublicKey (npub : string) : result Exn string :=
  rbind (nip19_decode npub) (fun decoded =>
    match decoded with
    | DecNpub data => Ok data
    | _ => Throw InvalidNpubFormat
    end).

Definition getPublicKeyFromSecret (sk : list byte) : result Exn string :=
  getPublicKey sk.

(** [sk.fill(0)] *)
Definition clearSecretKey (sk : list byte) : list byte :=
  List.map (fun _ => x00) sk.

Definition isValidNpub (input : string) : bool :=
  if negb (JS.startsWith input "npub1") then false
  else match nip19_decode input with
       | Ok decoded => isNpub decoded
       | Throw _ => false
       end.

Definition isValidNsec (input : string) : bool :=
  if negb (JS.startsWith input "nsec1") then false
  else match nip19_decode input with
       | Ok decoded => isNsec decoded
       | Throw _ => false
       end.

(** The character class [[0-9a-fA-F]]. *)
Definition isHexDigit (c : ascii) : bool :=
  JS.inRange 48 57 c || JS.inRange 97 102 c || JS.inRange 65 70 c.

(** [/^[0-9a-fA-F]{n}$/]: exactly [n] characters of the class, then the
    end of the input. *)
Fixpoint matchHexExactly (n : nat) (s : string) : bool :=
  match n, s with
  | O, EmptyString => true
  | S n', String c s' => isHexDigit c && matchHexExactly n' s'
  | _, _ => false
  end.

Definition isValidHexPubkey (input : string) : bool :=
  matchHexExactly 64 input.

Definition normalizeToPublicKey (input : string) : result Exn NormalizedKey :=
  let trimmed := JS.trim input in
  if isValidNpub trimmed then
    rbind (npubToPublicKey trimmed) (fun pk =>
      Ok {| pubkey := pk; secretKey := None |})
  else if isValidNsec trimmed then
    rbind (nsecToSecretKey trimmed) (fun sk =>
    rbind (getPublicKeyFromSecret sk) (fun pk =>
      Ok {| pubkey := pk; secretKey := Some sk |}))
  else if isValidHexPubkey trimmed then
    Ok {| pubkey := JS.toLowerCase trimmed; secretKey := None |}
  else Throw InvalidKeyFormat.

End Codec.

(** Digits and the upper-case letters A-F. *)
Definition isUpperHexDigit (c : ascii) : bool :=
  JS.inRange 48 57 c || JS.inRange 65 70 c.

End Keys.

(** * lib/crypto.ts *)

Module Crypto.

Inductive Exn :=
| InvalidCharacterError    (* DOMException of [atob] *)
| DecryptError.            (* thrown inside nostr-tools/nip44 *)

(** ** [btoa] and [atob] of the runtime (HTML standard, forgiving-base64) *)

Definition alphabet : string :=
  "ABCDEFGHIJKLMNOPQRSTUVWXYZabcdefghijklmnopqrstuvwxyz0123456789+/".

(** The character of a 6-bit value. *)
Definition b64char (n : N) : ascii :=
  match String.get (N.to_nat n) alphabet with
  | Some c => c
  | None => "="%char
  end.

Fixpoint indexIn (c : ascii) (s : string) (i : N) : option N :=
  match s with
  | EmptyString => None
  | String d s' => if Ascii.eqb c d then Some i else indexIn c s' (i + 1)%N
  end.

(** The 6-bit value of a character of the alphabet. *)
Definition b64index (c : ascii) : option N := indexIn c alphabet 0.

(** Base64 of a list of byte values, three bytes to four characters, padded
    with [=]. *)
Fixpoint encodeBytes (l : list N) : list ascii :=
  match l with
  | [] => []
  | [a] =>
      [b64char (a / 4); b64char ((a mod 4) * 16); "="%char; "="%char]
  | [a; b] =>
      [b64char (a / 4); b64char ((a mod 4) * 16 + b / 16);
       b64char ((b mod 16) * 4); "="%char]
  | a :: b :: c :: rest =>
      b64char (a / 4) :: b64char ((a mod 4) * 16 + b / 16)
        :: b64char ((b mod 16) * 4 + c / 64) :: b64char (c mod 64)
        :: encodeBytes rest
  end%N.

(** [btoa]: every code unit of the model is below 256, so it never throws. *)
Definition btoa (s : string) : string :=
  string_of_list_ascii (encodeBytes (List.map JS.code (list_ascii_of_string s))).

(** ASCII white space of the Infra standard: TAB, LF, FF, CR, SPACE. *)
Definition isAsciiWhitespace (c : ascii) : bool :=
  (JS.code c =? 9)%N || (JS.code c =? 10)%N || (JS.code c =? 12)%N
  || (JS.code c =? 13)%N || (JS.code c =? 32)%N.

(** "If data ends with one or two U+003D (=) code points, remove them",
    on the reversed data. *)
Definition dropPaddingRev (r : list ascii) : list ascii :=
  match r with
  | c1 :: r1 =>
      if Ascii.eqb c1 "=" then
        match r1 with
        | c2 :: r2 => if Ascii.eqb c2 "=" then r2 else r1
        | [] => r1
        end
      else r
  | [] => r
  end.

Definition stripPadding (data : list ascii) : list ascii :=
  if (length data mod 4 =? 0)%nat then rev (dropPaddingRev (rev data)) else data.

Fixpoint sextetsOf (data : list ascii) : option (list N) :=
  match data with
  | [] => Some []
  | c :: data' =>
      match b64index c, sextetsOf data' with
      | Some n, Some ns => Some (n :: ns)
      | _, _ => None
      end
  end.

(** Four 6-bit values give three bytes; a rest of three gives two bytes
    and a rest of two gives one byte, the spare bits being discarded. *)
Fixpoint decodeSextets (l : list N) : list N :=
  match l with
  | a :: b :: c :: d :: rest =>
      (a * 4 + b / 16) :: ((b mod 16) * 16 + c / 4) :: ((c mod 4) * 64 + d)
        :: decodeSextets rest
  | [a; b; c] => [a * 4 + b / 16; (b mod 16) * 16 + c / 4]
  | [a; b] => [a * 4 + b / 16]
  | _ => []
  end%N.

(** [atob]: [None] is the [InvalidCharacterError]. *)
Definition atob (data : string) : option string :=
  let data := List.filter (fun c => negb (isAsciiWhitespace c))
                (list_ascii_of_string data) in
  let data := stripPadding data in
  if (length data mod 4 =? 1)%nat then None
  else match sextetsOf data with
       | None => None
       | Some ns =>
           Some (string_of_list_ascii (List.map ascii_of_N (decodeSextets ns)))
       end.

(** [new TextEncoder().encode(s)], UTF-8 of code units below 256. *)
Definition utf8Char (c : ascii) : list byte :=
  let n := JS.code c in
  if (n <? 128)%N then [byte_of_ascii c]
  else match Byte.of_N (192 + n / 64), Byte.of_N (128 + n mod 64) with
       | Some b1, Some b2 => [b1; b2]
       | _, _ => []
       end.

Definition TextEncoder_encode (s : string) : list byte :=
  List.concat (List.map utf8Char (list_ascii_of_string s)).

(** ** The functions of crypto.ts *)

(** [for (i...) bytes[i] = binaryString.charCodeAt(i)] *)
Definition base64ToUint8Array (base64 : string) : result Exn (list byte) :=
  match atob base64 with
  | None => Throw InvalidCharacterError
  | Some binaryString =>
      Ok (List.map byte_of_ascii (list_ascii_of_string binaryString))
  end.

(** [for (i...) binaryString += String.fromCharCode(bytes[i])] *)
Definition binaryStringOf (bytes : list byte) : string :=
  string_of_list_ascii (List.map ascii_of_byte bytes).

Definition uint8ArrayToBase64 (bytes : list byte) : string :=
  btoa (binaryStringOf bytes).

Section Nip44.

(** [nip44.v2.utils.getConversationKey] and [nip44.v2.decrypt]. *)
Variable ConversationKey : Type.
Variable getConversationKey : list byte -> string -> result Exn ConversationKey.
Variable nip44_decrypt : string -> ConversationKey -> result Exn string.

Definition decryptChunk (ciphertext : string) (secretKey : list byte)
    (pubkey : string) : result Exn (list byte) :=
  rbind (getConversationKey secretKey pubkey) (fun conversationKey =>
  rbind (nip44_decrypt ciphertext conversationKey) (fun decrypted =>
    Ok (TextEncoder_encode decrypted))).

Definition decryptChunkBinary (ciphertext : string) (secretKey : list byte)
    (pubkey : string) : result Exn (list byte) :=
  rbind (getConversationKey secretKey pubkey) (fun conversationKey =>
  rbind (nip44_decrypt ciphertext conversationKey) (fun decrypted =>
    base64ToUint8Array decrypted)).

(** The plaintext a ciphertext decrypts to. *)
Definition plaintextOf (ciphertext : string) (secretKey : list byte)
    (pubkey : string) : result Exn string :=
  rbind (getConversationKey secretKey pubkey) (fun conversationKey =>
    nip44_decrypt ciphertext conversationKey).

End Nip44.

(** Valid base64 text: what the runtime's decoder accepts. *)
Definition isBase64Text (s : string) : Prop := atob s <> None.

End Crypto.

(** * lib/nostr.ts *)

Module Nostr.

(** ** Records, filters and parsed payloads *)

(** [EVENT_KINDS] of types.ts, as an enumeration. *)
Inductive EventKind := INDEX | MANIFEST | CHUNK.

(** [D_TAGS] of types.ts: the tag of the current index and the function from
    an archive number to its tag. *)
Record DTags := {
  CURRENT_INDEX : string;
  archiveTag : JS.Number -> string
}.

(** The fields of a relay event that the sources read. *)
Record NostrEvent := {
  id : string;
  created_at : Z;
  tags : list (list string);
  ev_content : string
}.

Record Filter := {
  kinds : list EventKind;
  authors : list string;
  tag_d : option (list string);      (* '#d' *)
  tag_x : option (list string);      (* '#x' *)
  ids : option (list string);
  limit : option Z
}.

#[local] Set Warnings "-register-all".

(** A parsed JSON value.  Numbers are the integers, by their literal; an
    object is the list of its properties. *)
Inductive JSON :=
| JNull
| JBool (b : bool)
| JNumber (n : Z)
| JString (s : string)
| JArray (l : list JSON)
| JObject (props : list (string * JSON)).

Inductive Exn :=
| UnsupportedIndexVersion (version : option JSON)
| UnsupportedManifestVersion (version : option JSON)
| TypeError.               (* property read on null *)

Fixpoint lookupProp (name : string) (props : list (string * JSON)) : option JSON :=
  match props with
  | [] => None
  | (k, v) :: props' => if String.eqb k name then Some v else lookupProp name props'
  end.

(** [v.name]: throws on null, [None] is [undefined]. *)
Definition getProp (v : JSON) (name : string) : result Exn (option JSON) :=
  match v with
  | JNull => Throw TypeError
  | JObject props => Ok (lookupProp name props)
  | _ => Ok None
  end.

(** [v !== 2] *)
Definition isNot2 (v : option JSON) : bool :=
  match v with
  | Some (JNumber 2) => false
  | _ => true
  end.

(** A value of the runtime: a parsed JSON value, or [None] for
    [undefined]. *)
Definition Value := option JSON.

(** [currentIndex.total_archives]: the property as it was parsed,
    [undefined] when the payload has none.  (A current index has passed the
    version gate, so it is an object.) *)
Definition total_archives (index : JSON) : Value :=
  match index with
  | JObject props => lookupProp "total_archives" props
  | _ => None
  end.

(** The number that a JSON number holds: the double nearest to its
    literal. *)
Definition numberOf (n : Z) : JS.Number := Some (JS.roundDouble n).

(** ** Record resolver *)

Section PageTag.

Variable D_TAGS : DTags.

(** Two conversions of the runtime, met when [total_archives] is not a
    number: the string of an array or an object, and the number that a
    string is converted to. *)
Variable ToString : JSON -> string.
Variable StringToNumber : string -> JS.Number.

(** [totalArchives + 2].  A number is added to; [undefined], [null],
    [false] and [true] are used as the numbers NaN, 0, 0 and 1.  With a
    string the operator concatenates, 2 being the string of one character;
    an array or an object is first turned into its string. *)
Definition plusTwo (totalArchives : Value) : JS.Number + string :=
  match totalArchives with
  | None => inl (JS.add JS.NaN (numberOf 2))
  | Some JNull => inl (JS.add (numberOf 0) (numberOf 2))
  | Some (JBool b) => inl (JS.add (numberOf (if b then 1 else 0)) (numberOf 2))
  | Some (JNumber n) => inl (JS.add (numberOf n) (numberOf 2))
  | Some (JString s) => inr (s +:+ "2")
  | Some (JArray l) => inr (ToString (JArray l) +:+ "2")
  | Some (JObject props) => inr (ToString (JObject props) +:+ "2")
  end.

(** [sum - page]: a string is converted to a number first. *)
Definition minusPage (sum : JS.Number + string) (page : Z) : JS.Number :=
  match sum with
  | inl n => JS.sub n (numberOf page)
  | inr s => JS.sub (StringToNumber s) (numberOf page)
  end.

(** Line 153. *)
Definition archiveNumber (page : Z) (totalArchives : Value) : JS.Number :=
  minusPage (plusTwo totalArchives) page.

Definition getDTagForPage (page : Z) (totalArchives : Value) : string :=
  if (page =? 1)%Z then CURRENT_INDEX D_TAGS
  else archiveTag D_TAGS (archiveNumber page totalArchives).

End PageTag.

(** [events.reduce(f)] on a non-empty array. *)
Definition reduce {A} (f : A -> A -> A) (l : list A) : option A :=
  match l with
  | [] => None
  | x :: l' => Some (fold_left f l' x)
  end.

(** [(a, b) => a.created_at > b.created_at ? a : b] *)
Definition later (a b : NostrEvent) : NostrEvent :=
  if (created_at a >? created_at b)%Z then a else b.

Definition mostRecent (events : list NostrEvent) : option NostrEvent :=
  reduce later events.

(** The queries issued so far, oldest first. *)
Definition QueryLog := list (list string * Filter).

(** A computation that queries relays and may throw. *)
Definition M (A : Type) : Type := QueryLog -> result Exn A * QueryLog.

Definition ret {A} (a : A) : M A := fun log => (Ok a, log).
Definition throw {A} (e : Exn) : M A := fun log => (Throw e, log).
Definition bind {A B} (m : M A) (k : A -> M B) : M B :=
  fun log =>
    match m log with
    | (Ok a, log') => k a log'
    | (Throw e, log') => (Throw e, log')
    end.
Definition lift {A} (r : result Exn A) : M A := fun log => (r, log).

Section Resolver.

Variable D_TAGS : DTags.

(** [JSON.parse]; [None] when it throws. *)
Variable JSON_parse : string -> option JSON.

(** What [pool.querySync] resolves to for a query, given how many queries
    were issued before it. *)
Variable querySync : nat -> list string -> Filter -> list NostrEvent.

(** The conversions of the runtime that [getDTagForPage] may meet. *)
Variable ToString : JSON -> string.
Variable StringToNumber : string -> JS.Number.

Definition query (relays : list string) (filter : Filter) : M (list NostrEvent) :=
  fun log => (Ok (querySync (List.length log) relays filter), log ++ [(relays, filter)]).

Definition indexFilter (pubkey dTag : string) : Filter :=
  {| kinds := [INDEX]; authors := [pubkey]; tag_d := Some [dTag];
     tag_x := None; ids := None; limit := Some 1%Z |}.

(** Lines 187-197 and 219-229: parse the payload of the chosen event, gate
    on the version. *)
Definition decodeIndex (event : NostrEvent) : M (option JSON) :=
  match JSON_parse (ev_content event) with
  | None => ret None                              (* catch: return null *)
  | Some index =>
      bind (lift (getProp index "version")) (fun version =>
        if isNot2 version then throw (UnsupportedIndexVersion version)
        else ret (Some index))
  end.

(** Lines 180-197 and 213-229. *)
Definition resolveIndex (events : list NostrEvent) : M (option JSON) :=
  match mostRecent events with
  | None => ret None                              (* events.length === 0 *)
  | Some event => decodeIndex event
  end.

(** The branch [page === 1]. *)
Definition fetchCurrentIndex (relays : list string) (pubkey : string)
  : M (option JSON) :=
  bind (query relays (indexFilter pubkey (CURRENT_INDEX D_TAGS))) resolveIndex.

(** The recursive call of the source is [fetchFileIndex(pool, relays,
    pubkey, 1)], which takes the first branch. *)
Definition fetchFileIndex (relays : list string) (pubkey : string) (page : Z)
  : M (option JSON) :=
  if (page =? 1)%Z then fetchCurrentIndex relays pubkey
  else
    bind (fetchCurrentIndex relays pubkey) (fun currentIndex =>
      match currentIndex with
      | None => ret None
      | Some currentIndex =>
          let dTag := getDTagForPage D_TAGS ToString StringToNumber page
                        (total_archives currentIndex) in
          bind (query relays (indexFilter pubkey dTag)) resolveIndex
      end).

Definition manifestFilterX (pubkey fileHash : string) : Filter :=
  {| kinds := [MANIFEST]; authors := [pubkey]; tag_d := None;
     tag_x := Some [fileHash]; ids := None; limit := Some 1%Z |}.

Definition manifestFilterD (pubkey fileHash : string) : Filter :=
  {| kinds := [MANIFEST]; authors := [pubkey]; tag_d := Some [fileHash];
     tag_x := None; ids := None; limit := Some 1%Z |}.

(** [for (const filter of filters) { events = await pool.querySync(...);
    if (events.length > 0) break; }] *)
Fixpoint queryUntilNonEmpty (relays : list string) (filters : list Filter)
    (events : list NostrEvent) : M (list NostrEvent) :=
  match filters with
  | [] => ret events
  | filter :: filters' =>
      bind (query relays filter) (fun events =>
        if (0 <? List.length events)%nat then ret events
        else queryUntilNonEmpty relays filters' events)
  end.

(** Lines 273-289. *)
Definition decodeManifest (event : NostrEvent) : M (option JSON) :=
  match JSON_parse (ev_content event) with
  | None => ret None
  | Some manifest =>
      bind (lift (getProp manifest "version")) (fun version =>
        if isNot2 version then throw (UnsupportedManifestVersion version)
        else ret (Some manifest))
  end.

(** Lines 267-289. *)
Definition resolveManifest (events : list NostrEvent) : M (option JSON) :=
  match mostRecent events with
  | None => ret None
  | Some event => decodeManifest event
  end.

Definition fetchManifest (relays : list string) (pubkey fileHash : string)
  : M (option JSON) :=
  let filters := [manifestFilterX pubkey fileHash; manifestFilterD pubkey fileHash] in
  bind (queryUntilNonEmpty relays filters []) resolveManifest.

End Resolver.

(** ** Chunk retrieval engine and retrieval cache *)

Record ChunkInfo := {
  ci_index : Z;
  event_id : option string
}.

(** The index of a chunk is a number that was parsed from a tag, or taken
    from the manifest: never NaN. *)
Record ChunkEvent := {
  index : JS.Num;
  content : string;
  encryption : string
}.

(** [ChunkCacheEntry]; the in-flight promise is named by the request that
    created it. *)
Record ChunkCacheEntry := {
  chunksByIndex : gmap JS.Num ChunkEvent;
  inFlight : option nat
}.

Definition CHUNK_ID_BATCH_SIZE : nat := 200.

(** The arguments of one call of [fetchChunks]; [onProgress] tells whether
    the callback was passed. *)
Record FetchArgs := {
  relays : list string;
  pubkey : string;
  fileHash : string;
  totalChunks : Z;
  onProgress : bool;
  chunkInfos : option (list ChunkInfo)
}.

(** [`${pubkey}:${fileHash}`] *)
Definition cacheKey (a : FetchArgs) : string :=
  pubkey a +:+ ":" +:+ fileHash a.

(** [tags.find(t => t[0] === name)] *)
Definition findTag (name : string) (tags : list (list string)) : option (list string) :=
  List.find (fun t => match t with
                      | t0 :: _ => String.eqb t0 name
                      | [] => false
                      end) tags.

(** [t[1]] when it is a non-empty string (a truthy value). *)
Definition truthyValue (t : list string) : option string :=
  match nth_error t 1 with
  | Some EmptyString => None
  | v => v
  end.

Definition parseChunkIndexFromTags (tags : list (list string)) : option JS.Num :=
  let chunkTag := findTag "chunk" tags in
  let fromChunkTag :=
    match chunkTag with
    | Some t =>
        match truthyValue t with
        | Some v => JS.parseInt10 v
        | None => None
        end
    | None => None
    end in
  match fromChunkTag with
  | Some index => Some index
  | None =>
      match findTag "d" tags with
      | None => None
      | Some t =>
          match truthyValue t with
          | None => None
          | Some dTag =>
              let parts := JS.split ":" dTag in
              let indexStr := List.last parts EmptyString in
              JS.parseInt10 indexStr
          end
      end
  end.

(** Lines 417-418: [encryptionTag?.[1] || 'none']. *)
Definition encryptionOfTags (tags : list (list string)) : string :=
  match findTag "encryption" tags with
  | Some t => match truthyValue t with Some v => v | None => "none" end
  | None => "none"
  end.

(** A [Map<string, number>] in insertion order. *)
Fixpoint mapSet (k : string) (v : Z) (m : list (string * Z)) : list (string * Z) :=
  match m with
  | [] => [(k, v)]
  | (k', v') :: m' =>
      if String.eqb k k' then (k, v) :: m' else (k', v') :: mapSet k v m'
  end.

Fixpoint mapGet (k : string) (m : list (string * Z)) : option Z :=
  match m with
  | [] => None
  | (k', v) :: m' => if String.eqb k k' then Some v else mapGet k m'
  end.

(** Lines 396-401. *)
Definition buildIndexByEventId (infos : option (list ChunkInfo)) : list (string * Z) :=
  match infos with
  | None => []
  | Some infos =>
      fold_left (fun m info =>
                   match event_id info with
                   | Some EmptyString | None => m
                   | Some eid => mapSet eid (ci_index info) m
                   end) infos []
  end.

(** The variables that the closures of one retrieval share:
    [chunksByIndex] (the local map), [seenEventIds], [indexByEventId]. *)
Record Closure := {
  chunks : gmap JS.Num ChunkEvent;
  seenEventIds : gset string;
  indexByEventId : list (string * Z)
}.

(** [Array.from(m.values()).sort((a, b) => a.index - b.index)]: the sign
    of the difference is the order of the two numbers. *)
Definition byIndex (a b : ChunkEvent) : Prop := JS.le (index a) (index b).

#[global] Instance byIndex_dec (a b : ChunkEvent) : Decision (byIndex a b) :=
  JS.le_dec (index a) (index b).

Definition sortedChunks (m : gmap JS.Num ChunkEvent) : list ChunkEvent :=
  merge_sort byIndex ((map_to_list m).*2).

Definition sizeZ (m : gmap JS.Num ChunkEvent) : Z := Z.of_nat (size m).

(** What [handleEvent] reads and writes: the closure, the process-wide
    cache and the calls of the progress callback. *)
Definition Progress := list (nat * Z * Z).

Definition handleEvent (r : nat) (a : FetchArgs) (event : NostrEvent)
    (c : Closure) (cache : gmap string ChunkCacheEntry) (progress : Progress)
  : Closure * gmap string ChunkCacheEntry * Progress :=
  if bool_decide (id event ∈ seenEventIds c) then (c, cache, progress)
  else
    let c := {| chunks := chunks c;
                seenEventIds := {[id event]} ∪ seenEventIds c;
                indexByEventId := indexByEventId c |} in
    let parsedIndex := parseChunkIndexFromTags (tags event) in
    let index :=
      match parsedIndex with
      | Some i => Some i
      | None => JS.Int <$> mapGet (id event) (indexByEventId c)
      end in
    match index with
    | None => (c, cache, progress)
    | Some index =>
        let encryption := encryptionOfTags (tags event) in
        match chunks c !! index with
        | Some _ => (c, cache, progress)
        | None =>
            let chunk := {| index := index; content := ev_content event;
                            encryption := encryption |} in
            let c := {| chunks := <[index := chunk]> (chunks c);
                        seenEventIds := seenEventIds c;
                        indexByEventId := indexByEventId c |} in
            let cache :=
              match cache !! cacheKey a with
              | Some entry =>
                  <[cacheKey a :=
                      {| chunksByIndex := <[index := chunk]> (chunksByIndex entry);
                         inFlight := inFlight entry |}]> cache
              | None => cache
              end in
            let progress :=
              if onProgress a then progress ++ [(r, sizeZ (chunks c), totalChunks a)]
              else progress in
            (c, cache, progress)
        end
    end.

(** *** The asynchronous control flow of [fetchChunks]

    The runtime runs one task at a time and, after it, the queued promise
    continuations in order.  A call of [fetchChunks] is a request; its
    [Status] is the point where it is suspended or has returned.  An entry
    of [chunkCache] is created once per key and never replaced, so the
    object that a request holds in [cached] is the one the cache maps its
    key to, and the state keeps the entries by key.

    The relay pool is the environment.  It is taken to deliver events to a
    subscription only while the subscription is open, to close it once (by
    end of stored events or by the maximum wait), and not to throw; the
    progress callback is taken not to call back into [fetchChunks]. *)

Inductive Phase :=
| IdsBatch (i : nat)       (* line 446, batch [ids.slice(i, i + 200)] *)
| FallbackX.               (* line 469 *)

Inductive Status :=
| AwaitInFlight (p : nat)
    (* line 384: suspended on [cached.inFlight], the promise of request p *)
| Subscribed (c : Closure) (ph : Phase)
    (* retrieval running, subscription of the phase open *)
| PhaseResolved (c : Closure) (ph : Phase)
    (* the promise of fetchChunkEventsWithFilters resolved *)
| Settled (result : list ChunkEvent)
    (* fetchPromise fulfilled; suspended at line 489 *)
| ReturnedCached (result : list ChunkEvent)      (* return of line 380 *)
| ReturnedReady (result : list ChunkEvent)       (* return of line 387 *)
| Returned (result : list ChunkEvent).           (* return of line 496 *)

Record Request := {
  args : FetchArgs;
  status : Status
}.

(** A queued promise continuation. *)
Inductive Task :=
| ResumeBlock (r : nat)      (* the async block after line 446 or 469 *)
| ResumeOwner (r : nat)      (* after line 489: the finally clause *)
| ResumeWaiter (r : nat).    (* after line 384 *)

Record State := {
  chunkCache : gmap string ChunkCacheEntry;
  requests : list Request;
  microtasks : list Task;
  subscriptions : list (nat * Filter);     (* calls of subscribeManyEose *)
  progress : Progress
}.

Definition initial : State :=
  {| chunkCache := ∅; requests := []; microtasks := [];
     subscriptions := []; progress := [] |}.

Definition idsFilter (a : FetchArgs) (batch : list string) : Filter :=
  {| kinds := [CHUNK]; authors := [pubkey a]; tag_d := None; tag_x := None;
     ids := Some batch; limit := None |}.

Definition fallbackFilter (a : FetchArgs) : Filter :=
  {| kinds := [CHUNK]; authors := [pubkey a]; tag_d := None;
     tag_x := Some [fileHash a]; ids := None; limit := None |}.

(** [ids.slice(i, i + CHUNK_ID_BATCH_SIZE)] *)
Definition slice (i : nat) (l : list string) : list string :=
  take CHUNK_ID_BATCH_SIZE (drop i l).

(** Lines 460-478: the fallback subscription, or the return of the block.
    The result is the new status and the subscriptions opened. *)
Definition afterIds (a : FetchArgs) (c : Closure) : Status * list Filter :=
  if (sizeZ (chunks c) <? totalChunks a)%Z
  then (Subscribed c FallbackX, [fallbackFilter a])
  else (Settled (sortedChunks (chunks c)), []).

(** The loop of line 437 at counter [i]. *)
Definition idsLoop (a : FetchArgs) (c : Closure) (i : nat) : Status * list Filter :=
  let ids := (indexByEventId c).*1 in
  if (i <? List.length ids)%nat
  then (Subscribed c (IdsBatch i), [idsFilter a (slice i ids)])
  else afterIds a c.

(** The async block from its start to its first suspension. *)
Definition blockStart (a : FetchArgs) (c : Closure) : Status * list Filter :=
  if (0 <? List.length (indexByEventId c))%nat then idsLoop a c 0 else afterIds a c.

(** The async block from a resolved phase to its next suspension. *)
Definition blockResume (a : FetchArgs) (c : Closure) (ph : Phase)
  : Status * list Filter :=
  match ph with
  | IdsBatch i =>
      if (totalChunks a <=? sizeZ (chunks c))%Z then afterIds a c
      else idsLoop a c (i + CHUNK_ID_BATCH_SIZE)
  | FallbackX => (Settled (sortedChunks (chunks c)), [])
  end.

Definition setStatus (r : nat) (s : Status) (reqs : list Request) : list Request :=
  match reqs !! r with
  | Some q => <[r := {| args := args q; status := s |}]> reqs
  | None => reqs
  end.

Definition newRequest (a : FetchArgs) (reqs : list Request) (s : Status)
  : list Request :=
  reqs ++ [{| args := a; status := s |}].

(** The promise of request [p] is settled. *)
Definition isSettled (s : Status) : bool :=
  match s with
  | Settled _ | Returned _ => true
  | _ => false
  end.

Definition promiseSettled (reqs : list Request) (p : nat) : bool :=
  match reqs !! p with
  | Some q => isSettled (status q)
  | None => false
  end.

(** The requests suspended on the promise of [p], in the order in which
    they started to wait. *)
Fixpoint waitersFrom (p : nat) (i : nat) (reqs : list Request) : list nat :=
  match reqs with
  | [] => []
  | q :: reqs' =>
      match status q with
      | AwaitInFlight p' =>
          if (p' =? p)%nat then i :: waitersFrom p (S i) reqs'
          else waitersFrom p (S i) reqs'
      | _ => waitersFrom p (S i) reqs'
      end
  end.

Definition waitersOn (p : nat) (reqs : list Request) : list nat :=
  waitersFrom p 0 reqs.

(** The continuations queued when the async block of [r] returns: the
    owner's (line 489) first, then the waiters' (line 384). *)
Definition reactions (r : nat) (s : Status) (reqs : list Request) : list Task :=
  if isSettled s then ResumeOwner r :: (ResumeWaiter <$> waitersOn r reqs)
  else [].

(** Lines 391-489 for request [r]: copy the cached map, start the async
    block, publish the in-flight handle, suspend on the promise (when the
    block has returned at once, the continuation of line 489 is queued).
    [place] records the status of the request in the list of requests. *)
Definition startFetch (r : nat) (a : FetchArgs)
    (place : Status -> list Request) (st : State) : State :=
  let cached := chunkCache st !! cacheKey a in
  let c := {| chunks := match cached with
                        | Some e => chunksByIndex e
                        | None => ∅
                        end;
              seenEventIds := ∅;
              indexByEventId := buildIndexByEventId (chunkInfos a) |} in
  let progress :=
    if (0 <? sizeZ (chunks c))%Z && onProgress a
    then progress st ++ [(r, sizeZ (chunks c), totalChunks a)]
    else progress st in
  let '(s, filters) := blockStart a c in
  let entry := {| chunksByIndex := match cached with
                                   | Some e => chunksByIndex e
                                   | None => ∅
                                   end;
                  inFlight := Some r |} in
  {| chunkCache := <[cacheKey a := entry]> (chunkCache st);
     requests := place s;
     microtasks := microtasks st ++ (if isSettled s then [ResumeOwner r] else []);
     subscriptions := subscriptions st ++ (pair r <$> filters);
     progress := progress |}.

Definition addRequest (a : FetchArgs) (s : Status) (st : State) : State :=
  {| chunkCache := chunkCache st;
     requests := newRequest a (requests st) s;
     microtasks := microtasks st;
     subscriptions := subscriptions st;
     progress := progress st |}.

Definition enqueue (t : list Task) (st : State) : State :=
  {| chunkCache := chunkCache st;
     requests := requests st;
     microtasks := microtasks st ++ t;
     subscriptions := subscriptions st;
     progress := progress st |}.

(** A call of [fetchChunks], up to its first suspension or return. *)
Definition fetchChunks (a : FetchArgs) (st : State) : State :=
  let r := List.length (requests st) in
  match chunkCache st !! cacheKey a with
  | Some cached =>
      if (sizeZ (chunksByIndex cached) =? totalChunks a)%Z
      then addRequest a (ReturnedCached (sortedChunks (chunksByIndex cached))) st
      else
        match inFlight cached with
        | Some p =>
            let st := addRequest a (AwaitInFlight p) st in
            if promiseSettled (requests st) p then enqueue [ResumeWaiter r] st
            else st
        | None => startFetch r a (newRequest a (requests st)) st
        end
  | None => startFetch r a (newRequest a (requests st)) st
  end.

(** Lines 385-389, then the rest of the function. *)
Definition resumeWaiter (r : nat) (a : FetchArgs) (st : State) : State :=
  match chunkCache st !! cacheKey a with
  | Some ready =>
      if (sizeZ (chunksByIndex ready) =? totalChunks a)%Z
      then {| chunkCache := chunkCache st;
              requests := setStatus r (ReturnedReady (sortedChunks (chunksByIndex ready)))
                            (requests st);
              microtasks := microtasks st;
              subscriptions := subscriptions st;
              progress := progress st |}
      else startFetch r a (fun s => setStatus r s (requests st)) st
  | None => startFetch r a (fun s => setStatus r s (requests st)) st
  end.

(** Lines 490-496: the finally clause clears the handle of the entry. *)
Definition resumeOwner (r : nat) (a : FetchArgs) (result : list ChunkEvent)
    (st : State) : State :=
  {| chunkCache :=
       match chunkCache st !! cacheKey a with
       | Some current =>
           <[cacheKey a := {| chunksByIndex := chunksByIndex current;
                              inFlight := None |}]> (chunkCache st)
       | None => chunkCache st
       end;
     requests := setStatus r (Returned result) (requests st);
     microtasks := microtasks st;
     subscriptions := subscriptions st;
     progress := progress st |}.

(** The async block continues after a resolved phase. *)
Definition resumeBlock (r : nat) (a : FetchArgs) (c : Closure) (ph : Phase)
    (st : State) : State :=
  let '(s, filters) := blockResume a c ph in
  {| chunkCache := chunkCache st;
     requests := setStatus r s (requests st);
     microtasks := microtasks st ++ reactions r s (requests st);
     subscriptions := subscriptions st ++ (pair r <$> filters);
     progress := progress st |}.

(** The first queued continuation runs. *)
Definition runMicrotask (st : State) : option State :=
  match microtasks st with
  | [] => None
  | t :: rest =>
      let st := {| chunkCache := chunkCache st; requests := requests st;
                   microtasks := rest; subscriptions := subscriptions st;
                   progress := progress st |} in
      match t with
      | ResumeBlock r =>
          match requests st !! r with
          | Some {| args := a; status := PhaseResolved c ph |} =>
              Some (resumeBlock r a c ph st)
          | _ => None
          end
      | ResumeOwner r =>
          match requests st !! r with
          | Some {| args := a; status := Settled result |} =>
              Some (resumeOwner r a result st)
          | _ => None
          end
      | ResumeWaiter r =>
          match requests st !! r with
          | Some {| args := a; status := AwaitInFlight p |} =>
              if promiseSettled (requests st) p then Some (resumeWaiter r a st)
              else None
          | _ => None
          end
      end
  end.

(** [onevent] of fetchChunkEventsWithFilters (lines 327-334) for the open
    subscription of request [r]. *)
Definition onevent (r : nat) (event : NostrEvent) (st : State) : option State :=
  match requests st !! r with
  | Some {| args := a; status := Subscribed c ph |} =>
      let '(c, cache, progress) :=
        handleEvent r a event c (chunkCache st) (progress st) in
      if (totalChunks a <=? sizeZ (chunks c))%Z        (* shouldStop() *)
      then Some {| chunkCache := cache;
                   requests := setStatus r (PhaseResolved c ph) (requests st);
                   microtasks := microtasks st ++ [ResumeBlock r];
                   subscriptions := subscriptions st;
                   progress := progress |}
      else Some {| chunkCache := cache;
                   requests := setStatus r (Subscribed c ph) (requests st);
                   microtasks := microtasks st;
                   subscriptions := subscriptions st;
                   progress := progress |}
  | _ => None
  end.

(** [onclose] (lines 335-341): the one subscription of the phase closed,
    by end of stored events on every relay or by the maximum wait. *)
Definition onclose (r : nat) (st : State) : option State :=
  match requests st !! r with
  | Some {| args := a; status := Subscribed c ph |} =>
      Some {| chunkCache := chunkCache st;
              requests := setStatus r (PhaseResolved c ph) (requests st);
              microtasks := microtasks st ++ [ResumeBlock r];
              subscriptions := subscriptions st;
              progress := progress st |}
  | _ => None
  end.

(** What the environment does: a caller calls [fetchChunks] (at any
    point between two continuations), a relay delivers an event or a
    subscription closes (each as a task of its own, when no continuation is
    queued), or the next continuation runs. *)
Inductive Input :=
| Call (a : FetchArgs)
| Deliver (r : nat) (event : NostrEvent)
| Close (r : nat)
| Continue.

Definition noMicrotask (st : State) : bool :=
  match microtasks st with [] => true | _ => false end.

Definition step (st : State) (i : Input) : option State :=
  match i with
  | Call a => Some (fetchChunks a st)
  | Deliver r event => if noMicrotask st then onevent r event st else None
  | Close r => if noMicrotask st then onclose r st else None
  | Continue => runMicrotask st
  end.

Fixpoint run (st : State) (trace : list Input) : option State :=
  match trace with
  | [] => Some st
  | i :: trace' =>
      match step st i with
      | Some st' => run st' trace'
      | None => None
      end
  end.

Definition reachable (st : State) : Prop :=
  exists trace, run initial trace = Some st.

End Nostr.

(** * App.tsx: the route parameters *)

Module App.

(** The [error] of [normalizePubkeyParam]: one of its two messages, or the
    message of what [npubToPublicKey] threw. *)
Inductive RouteError :=
| MissingPublicKey          (* 'Missing public key.' *)
| NpubError (e : Keys.Exn)  (* err.message *)
| InvalidPublicKey.         (* 'Invalid public key. Use an npub or hex public key.' *)

Record PubkeyParam := {
  pubkey : option string;
  error : option RouteError
}.

(** What a route renders. *)
Inductive View :=
| InvalidPublicKeyView (error : option RouteError)
| InvalidFileHashView
| FileListView (pubkey : string)
| FileDetailView (pubkey fileHash : string).

Section Routes.

Variable nip19_decode : string -> result Keys.Exn Keys.Decoded.

(** [input] is [None] when the route has no such parameter. *)
Definition normalizePubkeyParam (input : option string) : PubkeyParam :=
  match input with
  | None | Some EmptyString =>
      {| pubkey := None; error := Some MissingPublicKey |}
  | Some input =>
      if Keys.isValidHexPubkey input then
        {| pubkey := Some (JS.toLowerCase input); error := None |}
      else if Keys.isValidNpub nip19_decode input then
        match Keys.npubToPublicKey nip19_decode input with
        | Ok pk => {| pubkey := Some pk; error := None |}
        | Throw err => {| pubkey := None; error := Some (NpubError err) |}
        end
      else {| pubkey := None; error := Some InvalidPublicKey |}
  end.

(** [error || !pubkey]: an error, or no key, or the empty key. *)
Definition rejected (p : PubkeyParam) : bool :=
  match error p, pubkey p with
  | Some _, _ => true
  | None, None => true
  | None, Some EmptyString => true
  | None, Some _ => false
  end.

Definition FileListRoute (pubkeyParam : option string) : View :=
  let p := normalizePubkeyParam pubkeyParam in
  if rejected p then InvalidPublicKeyView (error p)
  else match pubkey p with
       | Some pk => FileListView pk
       | None => InvalidPublicKeyView (error p)
       end.

(** [!fileHash || !/^[0-9a-fA-F]{64}$/.test(fileHash)] *)
Definition invalidFileHash (fileHash : option string) : bool :=
  match fileHash with
  | None | Some EmptyString => true
  | Some h => negb (Keys.matchHexExactly 64 h)
  end.

Definition FileDetailRoute (pubkeyParam fileHash : option string) : View :=
  let p := normalizePubkeyParam pubkeyParam in
  if rejected p then InvalidPublicKeyView (error p)
  else match pubkey p with
       | None => InvalidPublicKeyView (error p)
       | Some pk =>
           if invalidFileHash fileHash then InvalidFileHashView
           else match fileHash with
                | Some h => FileDetailView pk h
                | None => InvalidFileHashView
                end
       end.

End Routes.

End App.

(** * Properties *)

(** ** The runtime primitives on examples *)

(** A double as the Standard Library specifies the binary64 format, read
    as a number of the model; a finite double that holds no integer has no
    counterpart and reads as [None] too. *)
Definition ofBinary64 (f : spec_float) : JS.Number :=
  match f with
  | S754_nan => None
  | S754_infinity negative => Some (JS.Infinity negative)
  | S754_zero _ => Some (JS.Int 0)
  | S754_finite negative m e =>
      if (0 <=? e)%Z then Some (JS.Int (cond_Zopp negative (Z.pos m * 2 ^ e)))
      else if (Z.pos m mod 2 ^ (- e) =? 0)%Z
           then Some (JS.Int (cond_Zopp negative (Z.pos m / 2 ^ (- e))))
           else None
  end.

(** The binary64 double nearest to an integer. *)
Definition toBinary64 (z : Z) : spec_float := binary_normalize 53 1024 z 0 false.

Definition roundingSamples : list Z :=
  [0; 1; -1; 7; 9007199254740991; 9007199254740992; 9007199254740993;
   9007199254740994; 9007199254740995; -9007199254740993;
   2 ^ 54; 2 ^ 54 + 1; 2 ^ 54 + 2; 2 ^ 54 + 3; 2 ^ 54 + 5; 2 ^ 54 + 6;
   - (2 ^ 54 + 2); 2 ^ 63 + 2 ^ 10; 2 ^ 63 + 2 ^ 10 + 1; 2 ^ 63 + 3 * 2 ^ 10;
   2 ^ 64 - 1; 10 ^ 20; 10 ^ 21; 10 ^ 22 + 1; 10 ^ 100;
   123456789012345678901234567890;
   2 ^ 1023; 2 ^ 1024 - 2 ^ 971; 2 ^ 1024 - 2 ^ 970 - 1; 2 ^ 1024 - 2 ^ 970;
   2 ^ 1024; 10 ^ 400; - 10 ^ 400]%Z.

(** [roundDouble] rounds as the binary64 format does, on integers around
    every boundary of its definition. *)
Example roundDouble_as_binary64 :
  forallb (fun z => bool_decide (Some (JS.roundDouble z) = ofBinary64 (toBinary64 z)))
    roundingSamples = true.
Proof. vm_compute. reflexivity. Qed.

(** [JS.add] and [JS.sub] give what the addition and the subtraction of
    the binary64 format give, on pairs of those integers. *)
Example add_sub_as_binary64 :
  forallb (fun a =>
    forallb (fun b =>
      let x := JS.roundDouble a in
      let y := JS.roundDouble b in
      match x, y with
      | JS.Int a', JS.Int b' =>
          bool_decide (JS.add (Some x) (Some y)
                       = ofBinary64 (SFadd 53 1024 (toBinary64 a') (toBinary64 b')))
          && bool_decide (JS.sub (Some x) (Some y)
                          = ofBinary64 (SFsub 53 1024 (toBinary64 a') (toBinary64 b')))
      | _, _ => true
      end) roundingSamples) roundingSamples = true.
Proof. vm_compute. reflexivity. Qed.

Example roundDouble_examples :
  JS.roundDouble 9007199254740993 = JS.Int 9007199254740992
  /\ JS.roundDouble 9007199254740995 = JS.Int 9007199254740996
  /\ JS.add (Some (JS.Int (2 ^ 54))) (Some (JS.Int 2)) = Some (JS.Int (2 ^ 54))
  /\ JS.roundDouble (10 ^ 400) = JS.Infinity false
  /\ JS.sub (Some (JS.Infinity false)) (Some (JS.Infinity false)) = JS.NaN.
Proof. vm_compute. repeat split. Qed.

Example parseInt10_examples :
  JS.parseInt10 "42" = Some (JS.Int 42) /\ JS.parseInt10 "  -7px" = Some (JS.Int (-7))
  /\ JS.parseInt10 "+007" = Some (JS.Int 7) /\ JS.parseInt10 "" = JS.NaN
  /\ JS.parseInt10 "x1" = JS.NaN /\ JS.parseInt10 "- 1" = JS.NaN
  /\ JS.parseInt10 "9007199254740993" = Some (JS.Int 9007199254740992).
Proof. repeat split. Qed.

Example split_examples :
  JS.split ":" "hash:12" = ["hash"; "12"] /\ JS.split ":" "hash" = ["hash"]
  /\ JS.split ":" "a::b:" = ["a"; ""; "b"; ""] /\ JS.split ":" "" = [""].
Proof. repeat split. Qed.

Example trim_lower_examples :
  JS.trim "  aB c  " = "aB c" /\ JS.toLowerCase "0AbCdEF9" = "0abcdef9".
Proof. split; reflexivity. Qed.

Example parseChunkIndexFromTags_examples :
  Nostr.parseChunkIndexFromTags [["x"; "hash"]; ["d"; "hash:7"]] = Some (JS.Int 7)
  /\ Nostr.parseChunkIndexFromTags [["chunk"; "5"]; ["d"; "hash:7"]] = Some (JS.Int 5)
  /\ Nostr.parseChunkIndexFromTags [["chunk"; "five"]; ["d"; "hash:7"]]
     = Some (JS.Int 7)
  /\ Nostr.parseChunkIndexFromTags [["chunk"]; ["d"; "hash"]] = None
  /\ Nostr.parseChunkIndexFromTags [["d"]] = None.
Proof. repeat split. Qed.

Example atob_examples :
  Crypto.atob "QUJD" = Some "ABC" /\ Crypto.atob " QU I= " = Some "AB"
  /\ Crypto.atob "QQ" = Some "A" /\ Crypto.atob "QQ=" = None
  /\ Crypto.atob "Q" = None /\ Crypto.atob "QU.D" = None.
Proof. repeat split. Qed.

(** ** Identity codec *)

Section KeysFacts.

Variable nip19_decode : string -> result Keys.Exn Keys.Decoded.
Variable getPublicKey : list byte -> result Keys.Exn string.

(** Case analysis over the 256 code units. *)
Ltac by_char c := destruct c as [[] [] [] [] [] [] [] []]; vm_compute; congruence.

Lemma upperHex_not_space c :
  Keys.isUpperHexDigit c = true -> JS.isWhiteSpace c = false.
Proof. by_char c. Qed.

Lemma upperHex_is_hex c :
  Keys.isUpperHexDigit c = true -> Keys.isHexDigit c = true.
Proof. by_char c. Qed.

Lemma trimStart_no_space c s :
  JS.isWhiteSpace c = false -> JS.trimStart (String c s) = String c s.
Proof. intros H. simpl. now rewrite H. Qed.

Lemma trimEnd_no_space s :
  JS.all_chars (fun c => negb (JS.isWhiteSpace c)) s = true -> JS.trimEnd s = s.
Proof.
  induction s as [|c s IH]; simpl; [easy|].
  intros [Hc Hs]%andb_true_iff. rewrite (IH Hs).
  destruct s; [|reflexivity].
  apply negb_true_iff in Hc. now rewrite Hc.
Qed.

Lemma all_chars_impl (p q : ascii -> bool) s :
  (forall c, p c = true -> q c = true) ->
  JS.all_chars p s = true -> JS.all_chars q s = true.
Proof.
  intros Hpq. induction s as [|c s IH]; simpl; [easy|].
  intros [Hc Hs]%andb_true_iff. rewrite (Hpq _ Hc). now apply IH.
Qed.

Lemma trim_upperHex s :
  JS.all_chars Keys.isUpperHexDigit s = true -> JS.trim s = s.
Proof.
  intros H. unfold JS.trim.
  assert (Hs : JS.trimStart s = s).
  { destruct s as [|c s]; [reflexivity|]. simpl in H.
    apply andb_true_iff in H as [Hc _].
    apply trimStart_no_space. now apply upperHex_not_space. }
  rewrite Hs. apply trimEnd_no_space.
  revert H. apply all_chars_impl. intros c Hc.
  now rewrite (upperHex_not_space c Hc).
Qed.

(** The regular expression accepts exactly the strings of [n] characters
    of the class. *)
Lemma matchHexExactly_spec n s :
  Keys.matchHexExactly n s = true <->
  String.length s = n /\ JS.all_chars Keys.isHexDigit s = true.
Proof.
  revert s. induction n as [|n IH]; intros [|c s]; simpl; try (intuition congruence).
  rewrite !andb_true_iff, IH. intuition congruence.
Qed.

(** Lower-casing keeps the length and lands in [[0-9a-f]]. *)
Lemma toLowerCase_hex s :
  JS.all_chars Keys.isHexDigit s = true ->
  String.length (JS.toLowerCase s) = String.length s /\
  JS.all_chars (fun c => JS.inRange 48 57 c || JS.inRange 97 102 c) (JS.toLowerCase s) = true.
Proof.
  induction s as [|c s IH]; simpl; [easy|].
  intros [Hc Hs]%andb_true_iff. destruct (IH Hs) as [-> ->].
  split; [reflexivity|]. rewrite andb_true_r. clear -Hc.
  revert Hc. by_char c.
Qed.

(** C9. A string of exactly 64 upper-case hexadecimal characters
    normalizes to its lower-case form with no secret key, and the
    hex-validation predicate holds exactly of the strings of 64
    hexadecimal characters of either case. *)
Theorem normalize_uppercase_hex (input : string) :
  String.length input = 64%nat ->
  JS.all_chars Keys.isUpperHexDigit input = true ->
  Keys.normalizeToPublicKey nip19_decode getPublicKey input
    = Ok {| Keys.pubkey := JS.toLowerCase input; Keys.secretKey := None |}
  /\ (forall s, Keys.isValidHexPubkey s = true <->
                String.length s = 64%nat /\ JS.all_chars Keys.isHexDigit s = true).
Proof.
  intros Hlen Hup. split; [|intros s; apply matchHexExactly_spec].
  unfold Keys.normalizeToPublicKey. rewrite (trim_upperHex _ Hup).
  destruct input as [|c s]; [discriminate|].
  assert (Hc : Keys.isUpperHexDigit c = true).
  { simpl in Hup. now apply andb_true_iff in Hup as [? _]. }
  assert (Hnpub : Keys.isValidNpub nip19_decode (String c s) = false).
  { unfold Keys.isValidNpub, JS.startsWith. cbn [String.prefix].
    destruct (ascii_dec "n" c) as [<-|Hn]; [discriminate Hc|reflexivity]. }
  assert (Hnsec : Keys.isValidNsec nip19_decode (String c s) = false).
  { unfold Keys.isValidNsec, JS.startsWith. cbn [String.prefix].
    destruct (ascii_dec "n" c) as [<-|Hn]; [discriminate Hc|reflexivity]. }
  rewrite Hnpub, Hnsec.
  assert (Hhex : Keys.isValidHexPubkey (String c s) = true).
  { apply matchHexExactly_spec. split; [exact Hlen|].
    revert Hup. apply all_chars_impl, upperHex_is_hex. }
  now rewrite Hhex.
Qed.

End KeysFacts.

Definition upperHexKey : string :=
  "0123456789ABCDEF0123456789ABCDEF0123456789ABCDEF0123456789ABCDEF".

Lemma normalize_uppercase_hex_witness :
  Keys.normalizeToPublicKey (fun _ => Throw Keys.LibraryError)
      (fun _ => Throw Keys.LibraryError) upperHexKey
    = Ok {| Keys.pubkey :=
              "0123456789abcdef0123456789abcdef0123456789abcdef0123456789abcdef";
            Keys.secretKey := None |}.
Proof.
  exact (proj1 (normalize_uppercase_hex (fun _ => Throw Keys.LibraryError)
                  (fun _ => Throw Keys.LibraryError) upperHexKey
                  eq_refl eq_refl)).
Defined.

(** ** Base64 helpers of crypto.ts *)

Section Base64Facts.

Import Crypto.

#[local] Ltac Zify.zify_post_hook ::= Z.to_euclidean_division_equations.

(** Lists taken three elements at a time. *)
Lemma list_ind3 {A} (P : list A -> Prop) :
  P [] -> (forall a, P [a]) -> (forall a b, P [a; b]) ->
  (forall a b c l, P l -> P (a :: b :: c :: l)) ->
  forall l, P l.
Proof.
  intros H0 H1 H2 H3.
  assert (H : forall l, P l /\ (forall a, P (a :: l)) /\ (forall a b, P (a :: b :: l))).
  { induction l as [|x l (IH0 & IH1 & IH2)]; [now auto|].
    repeat split; auto. }
  intros l. apply H.
Qed.

(** The 6-bit values of a list of bytes, without the padding. *)
Fixpoint sextetsOfBytes (l : list N) : list N :=
  match l with
  | [] => []
  | [a] => [a / 4; (a mod 4) * 16]
  | [a; b] => [a / 4; (a mod 4) * 16 + b / 16; (b mod 16) * 4]
  | a :: b :: c :: rest =>
      a / 4 :: (a mod 4) * 16 + b / 16 :: (b mod 16) * 4 + c / 64 :: c mod 64
        :: sextetsOfBytes rest
  end%N.

Fixpoint paddingOf (l : list N) : list ascii :=
  match l with
  | [] => []
  | [a] => ["="; "="]%char
  | [a; b] => ["="%char]
  | _ :: _ :: _ :: rest => paddingOf rest
  end.

Definition isByte (n : N) : Prop := (n < 256)%N.
Definition isSextet (n : N) : Prop := (n < 64)%N.

Lemma lt64_enum n : isSextet n -> In n (List.map N.of_nat (seq 0 64)).
Proof.
  intros H. rewrite <- (N2Nat.id n). apply in_map, in_seq.
  unfold isSextet in H. lia.
Qed.

Lemma sextet_check (test : N -> bool) :
  forallb test (List.map N.of_nat (seq 0 64)) = true ->
  forall n, isSextet n -> test n = true.
Proof.
  intros H n Hn. rewrite forallb_forall in H. apply H, lt64_enum, Hn.
Qed.

Lemma b64index_b64char n : isSextet n -> b64index (b64char n) = Some n.
Proof.
  intros Hn.
  apply (sextet_check (fun n => bool_decide (b64index (b64char n) = Some n)))
    in Hn; [|vm_compute; reflexivity].
  now apply bool_decide_eq_true in Hn.
Qed.


Lemma b64char_not_pad n : isSextet n -> Ascii.eqb (b64char n) "=" = false.
Proof.
  intros Hn.
  apply (sextet_check (fun n => negb (Ascii.eqb (b64char n) "="))) in Hn;
    [|vm_compute; reflexivity].
  now apply negb_true_iff in Hn.
Qed.


Lemma b64char_not_space n : isSextet n -> isAsciiWhitespace (b64char n) = false.
Proof.
  intros Hn.
  apply (sextet_check (fun n => negb (isAsciiWhitespace (b64char n)))) in Hn;
    [|vm_compute; reflexivity].
  now apply negb_true_iff in Hn.
Qed.

Lemma sextets_bound l : Forall isByte l -> Forall isSextet (sextetsOfBytes l).
Proof.
  induction l as [|a|a b|a b c l IH] using list_ind3; intros H.
  - constructor.
  - inversion_clear H. cbn. repeat constructor; unfold isSextet, isByte in *; lia.
  - inversion_clear H as [|? ? Ha H']. inversion_clear H' as [|? ? Hb _].
    cbn. repeat constructor; unfold isSextet, isByte in *; lia.
  - inversion_clear H as [|? ? Ha H']. inversion_clear H' as [|? ? Hb H''].
    inversion_clear H'' as [|? ? Hc Hl].
    cbn [sextetsOfBytes]. repeat constructor; try (unfold isSextet, isByte in *; lia).
    now apply IH.
Qed.

Lemma encodeBytes_split l :
  encodeBytes l = List.map b64char (sextetsOfBytes l) ++ paddingOf l.
Proof.
  induction l as [|a|a b|a b c l IH] using list_ind3; try reflexivity.
  cbn [encodeBytes sextetsOfBytes paddingOf List.map app]. now rewrite IH.
Qed.

(** The encoding is a whole number of groups of four; without its padding
    it is never one character over. *)
Lemma sextets_length l :
  exists k r, List.length (sextetsOfBytes l) = (4 * k + r)%nat
    /\ List.length (paddingOf l) = ((4 - r) mod 4)%nat
    /\ (r = 0 \/ r = 2 \/ r = 3)%nat.
Proof.
  induction l as [|a|a b|a b c l (k & r & H1 & H2 & H3)] using list_ind3.
  - exists 0%nat, 0%nat. cbn. auto.
  - exists 0%nat, 2%nat. cbn. auto.
  - exists 0%nat, 3%nat. cbn. auto.
  - exists (S k), r. cbn [sextetsOfBytes paddingOf List.length].
    rewrite H1, H2. repeat split; [lia|exact H3].
Qed.

Lemma mod4_small k r : (r < 4 -> (4 * k + r) mod 4 = r)%nat.
Proof.
  intros H. rewrite Nat.add_comm, Nat.mul_comm, Nat.Div0.mod_add.
  now apply Nat.mod_small.
Qed.

Lemma dropPadding_encoded ss pad :
  Forall isSextet ss ->
  pad = [] \/ (ss <> [] /\ (pad = ["="%char] \/ pad = ["="; "="]%char)) ->
  dropPaddingRev (rev (List.map b64char ss ++ pad)) = rev (List.map b64char ss).
Proof.
  intros Hss Hpad. rewrite rev_app_distr.
  assert (Hhead : forall r, dropPaddingRev (rev (List.map b64char ss) ++ r)
                            = rev (List.map b64char ss) ++ r
                    \/ ss = []).
  { intros r. destruct ss as [|x ss' _] using rev_ind; [now right|left].
    apply Forall_app in Hss as [_ Hx]. inversion_clear Hx as [|? ? Hx' _].
    rewrite map_app, rev_app_distr. cbn.
    now rewrite (b64char_not_pad _ Hx'). }
  destruct Hpad as [->|[Hne [->| ->]]].
  - cbn. destruct (Hhead []) as [H| ->]; [|reflexivity].
    now rewrite app_nil_r in H.
  - cbn. destruct ss as [|x ss' _] using rev_ind; [easy|].
    apply Forall_app in Hss as [_ Hx]. inversion_clear Hx as [|? ? Hx' _].
    rewrite map_app, rev_app_distr. cbn.
    now rewrite (b64char_not_pad _ Hx').
  - reflexivity.
Qed.

Lemma sextetsOf_chars ss :
  Forall isSextet ss -> sextetsOf (List.map b64char ss) = Some ss.
Proof.
  induction 1 as [|n ss Hn _ IH]; [reflexivity|].
  cbn [sextetsOf List.map]. now rewrite (b64index_b64char _ Hn), IH.
Qed.

Lemma filter_encoded ss pad :
  Forall isSextet ss -> Forall (fun c => c = "="%char) pad ->
  List.filter (fun c => negb (isAsciiWhitespace c)) (List.map b64char ss ++ pad)
  = List.map b64char ss ++ pad.
Proof.
  intros Hss Hpad. rewrite List.filter_app. f_equal.
  - induction Hss as [|n ss Hn _ IH]; [reflexivity|].
    cbn [List.filter List.map]. now rewrite (b64char_not_space _ Hn), IH.
  - induction Hpad as [|c pad -> _ IH]; [reflexivity|].
    cbn [List.filter]. now rewrite IH.
Qed.

Lemma decodeSextets_sextetsOfBytes l :
  Forall isByte l -> decodeSextets (sextetsOfBytes l) = l.
Proof.
  induction l as [|a|a b|a b c l IH] using list_ind3; intros H.
  - reflexivity.
  - cbn. f_equal. lia.
  - inversion_clear H as [|? ? Ha H']. inversion_clear H' as [|? ? Hb _].
    unfold isByte in *. cbn. f_equal; [lia|f_equal; lia].
  - inversion_clear H as [|? ? Ha H']. inversion_clear H' as [|? ? Hb H''].
    inversion_clear H'' as [|? ? Hc Hl]. unfold isByte in *.
    cbn [sextetsOfBytes decodeSextets]. rewrite (IH Hl).
    f_equal; [lia|f_equal; [lia|f_equal; lia]].
Qed.

Lemma padding_shape l :
  Forall (fun c => c = "="%char) (paddingOf l) /\
  (paddingOf l = [] \/
   (sextetsOfBytes l <> [] /\
    (paddingOf l = ["="%char] \/ paddingOf l = ["="; "="]%char))).
Proof.
  induction l as [|a|a b|a b c l [IH1 IH2]] using list_ind3; cbn.
  - split; [constructor|now left].
  - split; [repeat constructor|right; split; [easy|now right]].
  - split; [repeat constructor|right; split; [easy|now left]].
  - split; [exact IH1|]. destruct IH2 as [? | [_ ?]]; [now left|right; split; easy].
Qed.

(** [atob] inverts [btoa] on the strings of the model. *)
Lemma atob_encodeBytes l :
  Forall isByte l ->
  atob (string_of_list_ascii (encodeBytes l))
  = Some (string_of_list_ascii (List.map ascii_of_N l)).
Proof.
  intros Hl. unfold atob. rewrite list_ascii_of_string_of_list_ascii.
  pose proof (sextets_bound l Hl) as Hss.
  destruct (padding_shape l) as [Hpad Hshape].
  destruct (sextets_length l) as (k & r & Hlen & Hplen & Hr).
  rewrite encodeBytes_split, (filter_encoded _ _ Hss Hpad).
  assert (Hstrip : stripPadding (List.map b64char (sextetsOfBytes l) ++ paddingOf l)
                   = List.map b64char (sextetsOfBytes l)).
  { unfold stripPadding.
    replace (List.length (List.map b64char (sextetsOfBytes l) ++ paddingOf l))
      with (4 * (k + (if (r =? 0)%nat then 0 else 1)))%nat.
    2:{ rewrite length_app, length_map, Hlen, Hplen.
        destruct Hr as [->|[->| ->]]; cbn; lia. }
    rewrite Nat.mul_comm, Nat.Div0.mod_mul. cbn [Nat.eqb].
    rewrite (dropPadding_encoded _ _ Hss Hshape). apply rev_involutive. }
  rewrite Hstrip, length_map, Hlen.
  rewrite mod4_small by lia.
  replace (r =? 1)%nat with false by (destruct Hr as [->|[->| ->]]; reflexivity).
  now rewrite (sextetsOf_chars _ Hss), (decodeSextets_sextetsOfBytes _ Hl).
Qed.

(** C10. Decoding the base64 encoding of a byte array gives the byte
    array back. *)
Theorem base64_roundtrip (bytes : list byte) :
  base64ToUint8Array (uint8ArrayToBase64 bytes) = Ok bytes.
Proof.
  unfold base64ToUint8Array, uint8ArrayToBase64, btoa, binaryStringOf.
  rewrite list_ascii_of_string_of_list_ascii, atob_encodeBytes.
  - rewrite list_ascii_of_string_of_list_ascii, !List.map_map. f_equal.
    rewrite <- (List.map_id bytes) at 2. apply List.map_ext. intros b.
    unfold JS.code. now rewrite ascii_N_embedding, byte_of_ascii_of_byte.
  - apply List.Forall_forall. intros n [c [<- _]]%List.in_map_iff.
    unfold isByte, JS.code. apply N_ascii_bounded.
Qed.

End Base64Facts.

Example base64_roundtrip_example :
  Crypto.uint8ArrayToBase64 ["H"; "i"; "!"; x00; xff]%byte = "SGkhAP8=" /\
  Crypto.base64ToUint8Array "SGkhAP8=" = Ok ["H"; "i"; "!"; x00; xff]%byte.
Proof. split; reflexivity. Qed.

(** ** Decryption adapter *)

Section CryptoFacts.

Import Crypto.

Definition isAscii (c : ascii) : bool := (JS.code c <? 128)%N.

Lemma whitespace_ascii c : isAsciiWhitespace c = true -> isAscii c = true.
Proof. destruct c as [[] [] [] [] [] [] [] []]; vm_compute; congruence. Qed.

Lemma alphabet_ascii c n : b64index c = Some n -> isAscii c = true.
Proof. destruct c as [[] [] [] [] [] [] [] []]; vm_compute; congruence. Qed.

Lemma sextetsOf_ascii data ns :
  sextetsOf data = Some ns -> Forall (fun c => isAscii c = true) data.
Proof.
  revert ns. induction data as [|c data IH]; intros ns H; [constructor|].
  cbn [sextetsOf] in H.
  destruct (b64index c) as [n|] eqn:Hc; [|discriminate].
  destruct (sextetsOf data) as [ns'|]; [|discriminate].
  constructor; [exact (alphabet_ascii _ _ Hc)|exact (IH _ eq_refl)].
Qed.

Lemma dropPaddingRev_ascii r :
  Forall (fun c => isAscii c = true) (dropPaddingRev r) ->
  Forall (fun c => isAscii c = true) r.
Proof.
  destruct r as [|c1 r1]; [easy|]. cbn [dropPaddingRev].
  destruct (Ascii.eqb c1 "=") eqn:H1; [|easy].
  apply Ascii.eqb_eq in H1 as ->.
  destruct r1 as [|c2 r2]; [repeat constructor|].
  destruct (Ascii.eqb c2 "=") eqn:H2.
  - apply Ascii.eqb_eq in H2 as ->. now repeat constructor.
  - now constructor.
Qed.

Lemma stripPadding_ascii data :
  Forall (fun c => isAscii c = true) (stripPadding data) ->
  Forall (fun c => isAscii c = true) data.
Proof.
  unfold stripPadding. destruct (_ =? 0)%nat; [|easy].
  intros H. apply Forall_rev in H. rewrite rev_involutive in H.
  apply dropPaddingRev_ascii, Forall_rev in H. now rewrite rev_involutive in H.
Qed.

Lemma filter_ascii data :
  Forall (fun c => isAscii c = true)
    (List.filter (fun c => negb (isAsciiWhitespace c)) data) ->
  Forall (fun c => isAscii c = true) data.
Proof.
  induction data as [|c data IH]; [constructor|]. cbn [List.filter].
  destruct (isAsciiWhitespace c) eqn:Hc; cbn [negb].
  - intros H. constructor; [now apply whitespace_ascii|now apply IH].
  - intros H. inversion_clear H. constructor; [easy|now apply IH].
Qed.

(** Text that the base64 decoder accepts is ASCII. *)
Lemma base64_text_ascii p :
  isBase64Text p -> Forall (fun c => isAscii c = true) (list_ascii_of_string p).
Proof.
  unfold isBase64Text, atob. intros H.
  apply filter_ascii, stripPadding_ascii.
  destruct (_ =? 1)%nat; [congruence|].
  destruct (sextetsOf _) as [ns|] eqn:Hs; [|congruence].
  exact (sextetsOf_ascii _ _ Hs).
Qed.

(** On ASCII text the UTF-8 bytes are the code units. *)
Lemma binaryString_encode_ascii p :
  Forall (fun c => isAscii c = true) (list_ascii_of_string p) ->
  binaryStringOf (TextEncoder_encode p) = p.
Proof.
  unfold binaryStringOf, TextEncoder_encode. intros H.
  rewrite <- (string_of_list_ascii_of_string p) at 2. f_equal.
  induction H as [|c l Hc _ IH]; [reflexivity|].
  cbn [List.map List.concat]. unfold utf8Char at 1.
  unfold isAscii in Hc. rewrite Hc. cbn [app List.map].
  now rewrite ascii_of_byte_of_ascii, IH.
Qed.

Variable ConversationKey : Type.
Variable getConversationKey : list byte -> string -> result Exn ConversationKey.
Variable nip44_decrypt : string -> ConversationKey -> result Exn string.

(** C8, as amended. When the plaintext is valid base64 text,
    base64-decoding the bytes that decrypt-text returns gives the bytes
    that decrypt-binary returns. *)
Theorem decrypt_text_decoded_is_binary
    (ciphertext : string) (secretKey : list byte) (pubkey p : string) :
  plaintextOf ConversationKey getConversationKey nip44_decrypt
    ciphertext secretKey pubkey = Ok p ->
  isBase64Text p ->
  rbind (decryptChunk ConversationKey getConversationKey nip44_decrypt
           ciphertext secretKey pubkey)
        (fun text => base64ToUint8Array (binaryStringOf text))
  = decryptChunkBinary ConversationKey getConversationKey nip44_decrypt
      ciphertext secretKey pubkey.
Proof.
  unfold plaintextOf, decryptChunk, decryptChunkBinary. intros Hp Hb64.
  destruct (getConversationKey secretKey pubkey) as [k|e]; [|discriminate].
  cbn [rbind] in *. rewrite Hp. cbn [rbind].
  now rewrite (binaryString_encode_ascii p (base64_text_ascii p Hb64)).
Qed.

End CryptoFacts.

(** The property as the specification words it: the bytes of decrypt-text equal the bytes of
    decrypt-binary, base64-decoded once more. *)
Definition text_is_binary_decoded_again (ConversationKey : Type)
    (getConversationKey : list byte -> string -> result Crypto.Exn ConversationKey)
    (nip44_decrypt : string -> ConversationKey -> result Crypto.Exn string) : Prop :=
  forall ciphertext secretKey pubkey p,
    Crypto.plaintextOf ConversationKey getConversationKey nip44_decrypt
      ciphertext secretKey pubkey = Ok p ->
    Crypto.isBase64Text p ->
    Crypto.decryptChunk ConversationKey getConversationKey nip44_decrypt
      ciphertext secretKey pubkey
    = rbind (Crypto.decryptChunkBinary ConversationKey getConversationKey
               nip44_decrypt ciphertext secretKey pubkey)
        (fun bytes => Crypto.base64ToUint8Array (Crypto.binaryStringOf bytes)).

(** A stand-in for NIP-44 in which a ciphertext is its own plaintext; the
    real scheme reaches every plaintext as well. *)
Definition plainKey (_ : list byte) (_ : string) : result Crypto.Exn unit := Ok tt.
Definition plainDecrypt (ciphertext : string) (_ : unit) : result Crypto.Exn string :=
  Ok ciphertext.

(** For the plaintext [QUJD] (base64 of [ABC]) decrypt-text returns the four
    bytes of [QUJD], decrypt-binary the three bytes of [ABC], and decoding
    those once more gives two other bytes. *)
Lemma text_is_binary_decoded_again_fails :
  ~ text_is_binary_decoded_again unit plainKey plainDecrypt.
Proof.
  intros H. specialize (H "QUJD" [] "" "QUJD" eq_refl).
  assert (Hb : Crypto.isBase64Text "QUJD") by (vm_compute; discriminate).
  specialize (H Hb). vm_compute in H. discriminate H.
Qed.

Lemma decrypt_text_decoded_is_binary_witness :
  rbind (Crypto.decryptChunk unit plainKey plainDecrypt "QUJD" [] "")
        (fun text => Crypto.base64ToUint8Array (Crypto.binaryStringOf text))
  = Crypto.decryptChunkBinary unit plainKey plainDecrypt "QUJD" [] "".
Proof.
  apply (decrypt_text_decoded_is_binary unit plainKey plainDecrypt
           "QUJD" [] "" "QUJD" eq_refl).
  vm_compute. discriminate.
Defined.

(** ** Record resolver *)

(** Every integer up to 2^53 in absolute value is a double. *)
Definition isSafe (z : Z) : Prop := (Z.abs z <= 9007199254740992)%Z.

Lemma roundDouble_safe z : isSafe z -> JS.roundDouble z = JS.Int z.
Proof.
  unfold isSafe, JS.roundDouble. intros H.
  now destruct (Z.leb_spec (Z.abs z) 9007199254740992); [|lia].
Qed.

(** Within the integers that are doubles the archive number is exact. *)
Lemma archiveNumber_exact (ToString : Nostr.JSON -> string)
    (StringToNumber : string -> JS.Number) (N T : Z) :
  isSafe T -> isSafe N -> isSafe (T + 2) -> isSafe (T + 2 - N) ->
  Nostr.archiveNumber ToString StringToNumber N (Some (Nostr.JNumber T))
  = Some (JS.Int (T + 2 - N)).
Proof.
  intros HT HN Hsum Hdiff.
  unfold Nostr.archiveNumber, Nostr.plusTwo, Nostr.minusPage, Nostr.numberOf.
  rewrite (roundDouble_safe T HT), (roundDouble_safe N HN),
    (roundDouble_safe 2) by (unfold isSafe; lia).
  unfold JS.sub, JS.add at 2. rewrite (roundDouble_safe _ Hsum).
  cbn [JS.neg JS.add]. f_equal.
  replace (T + 2 + - N)%Z with (T + 2 - N)%Z by lia.
  exact (roundDouble_safe _ Hdiff).
Qed.

(** C3, as amended. For a page N > 1 and a total_archives that is the
    number T, the tag is the archive tag of the number that the runtime
    computes for T + 2 - N, in the arithmetic of doubles; it is the
    integer T + 2 - N whenever T, N, the sum T + 2 and the difference are
    at most 2^53 in absolute value.  For page 1 it is the current-index
    tag, whatever total_archives is. *)
Theorem getDTagForPage_archive_number (D_TAGS : Nostr.DTags)
    (ToString : Nostr.JSON -> string) (StringToNumber : string -> JS.Number)
    (N T : Z) :
  (N > 1)%Z ->
  Nostr.getDTagForPage D_TAGS ToString StringToNumber N (Some (Nostr.JNumber T))
  = Nostr.archiveTag D_TAGS
      (JS.sub (JS.add (Nostr.numberOf T) (Nostr.numberOf 2)) (Nostr.numberOf N))
  /\ (isSafe T -> isSafe N -> isSafe (T + 2) -> isSafe (T + 2 - N) ->
      Nostr.getDTagForPage D_TAGS ToString StringToNumber N (Some (Nostr.JNumber T))
      = Nostr.archiveTag D_TAGS (Some (JS.Int (T + 2 - N))))
  /\ (forall T', Nostr.getDTagForPage D_TAGS ToString StringToNumber 1 T'
                 = Nostr.CURRENT_INDEX D_TAGS).
Proof.
  intros HN.
  assert (Hpage : Nostr.getDTagForPage D_TAGS ToString StringToNumber N
                    (Some (Nostr.JNumber T))
                  = Nostr.archiveTag D_TAGS
                      (JS.sub (JS.add (Nostr.numberOf T) (Nostr.numberOf 2))
                         (Nostr.numberOf N))).
  { unfold Nostr.getDTagForPage.
    destruct (Z.eqb_spec N 1) as [->|_]; [lia|reflexivity]. }
  split; [exact Hpage|]. split; [|reflexivity].
  intros HT HNs Hsum Hdiff. rewrite Hpage. f_equal.
  exact (archiveNumber_exact ToString StringToNumber N T HT HNs Hsum Hdiff).
Qed.

(** The decimal numeral of an integer, for the examples. *)
Definition decimalOf (z : Z) : string := NilZero.string_of_int (Z.to_int z).

(** Tags in the style of the uploader, for the examples. *)
Definition exampleTags : Nostr.DTags :=
  {| Nostr.CURRENT_INDEX := "nostrsave-index";
     Nostr.archiveTag := fun n =>
       "nostrsave-index-archive-"
         +:+ match n with
             | None => "NaN"
             | Some (JS.Infinity false) => "Infinity"
             | Some (JS.Infinity true) => "-Infinity"
             | Some (JS.Int z) => decimalOf z
             end |}.

(** Stand-ins for the conversions of the runtime, for the examples: the
    string of an object, and the number of a string of decimal digits. *)
Definition exampleToString (v : Nostr.JSON) : string := "[object Object]".

Definition exampleToNumber (s : string) : JS.Number :=
  match s with
  | EmptyString => Some (JS.Int 0)
  | _ => if JS.all_chars JS.isDigit s then JS.parseInt10 s else JS.NaN
  end.

(** The property as the specification words it: the archive number is
    the integer T + 2 - N, for every T. *)
Definition archive_number_for_every_T : Prop :=
  forall (D_TAGS : Nostr.DTags) (ToString : Nostr.JSON -> string)
         (StringToNumber : string -> JS.Number) (N T : Z),
    (N > 1)%Z ->
    Nostr.getDTagForPage D_TAGS ToString StringToNumber N (Some (Nostr.JNumber T))
    = Nostr.archiveTag D_TAGS (Some (JS.Int (T + 2 - N))).

(** At T = 2^54 and N = 2 the sum T + 2 lies half way between the doubles
    2^54 and 2^54 + 4 and is rounded to 2^54; the archive number is
    2^54 - 2 and not 2^54. *)
Lemma archive_number_for_every_T_fails : ~ archive_number_for_every_T.
Proof.
  intros H.
  specialize (H exampleTags exampleToString exampleToNumber 2%Z (2 ^ 54)%Z eq_refl).
  vm_compute in H. discriminate H.
Qed.

Example archive_number_beyond_safe :
  Nostr.archiveNumber exampleToString exampleToNumber 2
    (Some (Nostr.JNumber 18014398509481984))
  = Some (JS.Int 18014398509481982).
Proof. vm_compute. reflexivity. Qed.

Lemma getDTagForPage_archive_number_witness :
  Nostr.getDTagForPage exampleTags exampleToString exampleToNumber 4
    (Some (Nostr.JNumber 5))
  = "nostrsave-index-archive-3"
  /\ (forall T', Nostr.getDTagForPage exampleTags exampleToString exampleToNumber 1 T'
                 = "nostrsave-index").
Proof.
  destruct (getDTagForPage_archive_number exampleTags exampleToString exampleToNumber
              4 5 eq_refl) as (_ & Hexact & Hfirst).
  split; [|exact Hfirst].
  apply Hexact; unfold isSafe; cbn; lia.
Defined.

Section ResolverFacts.

Import Nostr.

Variable D_TAGS : DTags.
Variable JSON_parse : string -> option JSON.
Variable querySync : nat -> list string -> Filter -> list NostrEvent.
Variable ToString : JSON -> string.
Variable StringToNumber : string -> JS.Number.

#[local] Abbreviation fetchFileIndex :=
  (fetchFileIndex D_TAGS JSON_parse querySync ToString StringToNumber).
#[local] Abbreviation getDTagForPage := (getDTagForPage D_TAGS ToString StringToNumber).
#[local] Abbreviation fetchCurrentIndex := (fetchCurrentIndex D_TAGS JSON_parse querySync).
#[local] Abbreviation fetchManifest := (fetchManifest JSON_parse querySync).
#[local] Abbreviation decodeIndex := (decodeIndex JSON_parse).
#[local] Abbreviation decodeManifest := (decodeManifest JSON_parse).
#[local] Abbreviation resolveIndex := (resolveIndex JSON_parse).
#[local] Abbreviation resolveManifest := (resolveManifest JSON_parse).

(** The events that the n-th query of a run returns. *)
Definition currentIndexEvents relays pubkey (log : QueryLog) : list NostrEvent :=
  querySync (List.length log) relays (indexFilter pubkey (CURRENT_INDEX D_TAGS)).

Definition archiveEvents relays pubkey page currentIndex (log : QueryLog)
  : list NostrEvent :=
  querySync (S (List.length log)) relays
    (indexFilter pubkey (getDTagForPage page (total_archives currentIndex))).

Definition manifestEventsX relays pubkey fileHash (log : QueryLog) : list NostrEvent :=
  querySync (List.length log) relays (manifestFilterX pubkey fileHash).

Definition manifestEventsD relays pubkey fileHash (log : QueryLog) : list NostrEvent :=
  querySync (S (List.length log)) relays (manifestFilterD pubkey fileHash).

(** The events of the convention that [fetchManifest] accepts. *)
Definition acceptedManifestEvents relays pubkey fileHash log : list NostrEvent :=
  match manifestEventsX relays pubkey fileHash log with
  | [] => manifestEventsD relays pubkey fileHash log
  | events => events
  end.

(** The payload parses and its version is not 2. *)
Definition wrongVersion (event : NostrEvent) (version : option JSON) : Prop :=
  exists v, JSON_parse (ev_content event) = Some v
            /\ getProp v "version" = Ok version /\ isNot2 version = true.

Definition unparsable (event : NostrEvent) : Prop :=
  JSON_parse (ev_content event) = None.

Lemma fetchCurrentIndex_eq relays pubkey log :
  fetchCurrentIndex relays pubkey log
  = resolveIndex (currentIndexEvents relays pubkey log)
      (log ++ [(relays, indexFilter pubkey (CURRENT_INDEX D_TAGS))]).
Proof. reflexivity. Qed.

Lemma fetchFileIndex_page1 relays pubkey log :
  fetchFileIndex relays pubkey 1 log = fetchCurrentIndex relays pubkey log.
Proof. reflexivity. Qed.

Lemma resolveIndex_log events log : snd (resolveIndex events log) = log.
Proof.
  unfold Nostr.resolveIndex, Nostr.decodeIndex.
  destruct (mostRecent events) as [event|]; [|reflexivity].
  destruct (JSON_parse _) as [v|]; [|reflexivity].
  unfold bind, lift. destruct (getProp v "version") as [ver|e]; [|reflexivity].
  now destruct (isNot2 ver).
Qed.

Lemma fetchFileIndex_archive relays pubkey page log currentIndex :
  page <> 1%Z ->
  fst (fetchCurrentIndex relays pubkey log) = Ok (Some currentIndex) ->
  fetchFileIndex relays pubkey page log
  = resolveIndex (archiveEvents relays pubkey page currentIndex log)
      (log ++ [(relays, indexFilter pubkey (CURRENT_INDEX D_TAGS));
               (relays, indexFilter pubkey
                  (getDTagForPage page (total_archives currentIndex)))]).
Proof.
  intros Hpage Hcur. unfold Nostr.fetchFileIndex.
  destruct (Z.eqb_spec page 1) as [|_]; [contradiction|].
  unfold bind at 1.
  pose proof (resolveIndex_log (currentIndexEvents relays pubkey log)
                (log ++ [(relays, indexFilter pubkey (CURRENT_INDEX D_TAGS))])) as Hlog.
  rewrite <- fetchCurrentIndex_eq in Hlog.
  destruct (fetchCurrentIndex relays pubkey log) as [res log'].
  cbn [fst snd] in *. subst res log'.
  unfold bind, query, archiveEvents. rewrite length_app. cbn [List.length].
  rewrite Nat.add_1_r, <- app_assoc. reflexivity.
Qed.

Lemma fetchFileIndex_archive_stop relays pubkey page log r :
  page <> 1%Z ->
  fst (fetchCurrentIndex relays pubkey log) = r ->
  r = Ok None \/ (exists e, r = Throw e) ->
  fst (fetchFileIndex relays pubkey page log) = r.
Proof.
  intros Hpage Hcur Hr. unfold Nostr.fetchFileIndex.
  destruct (Z.eqb_spec page 1) as [|_]; [contradiction|].
  unfold bind at 1.
  destruct (fetchCurrentIndex relays pubkey log) as [res log'].
  cbn [fst] in Hcur. subst res.
  destruct Hr as [->|[e ->]]; reflexivity.
Qed.

Lemma decodeIndex_wrongVersion event version log :
  wrongVersion event version ->
  decodeIndex event log = (Throw (UnsupportedIndexVersion version), log).
Proof.
  intros (v & Hv & Hver & Hnot). unfold Nostr.decodeIndex, bind, lift.
  now rewrite Hv, Hver, Hnot.
Qed.

Lemma decodeManifest_wrongVersion event version log :
  wrongVersion event version ->
  decodeManifest event log = (Throw (UnsupportedManifestVersion version), log).
Proof.
  intros (v & Hv & Hver & Hnot). unfold Nostr.decodeManifest, bind, lift.
  now rewrite Hv, Hver, Hnot.
Qed.

Lemma decodeIndex_unparsable event log :
  unparsable event -> decodeIndex event log = (Ok None, log).
Proof. intros H. unfold Nostr.decodeIndex. now rewrite H. Qed.

Lemma decodeManifest_unparsable event log :
  unparsable event -> decodeManifest event log = (Ok None, log).
Proof. intros H. unfold Nostr.decodeManifest. now rewrite H. Qed.

(** What [fetchManifest] does with the two conventions. *)
Lemma fetchManifest_eq relays pubkey fileHash log :
  fetchManifest relays pubkey fileHash log
  = resolveManifest (acceptedManifestEvents relays pubkey fileHash log)
      (log ++ (relays, manifestFilterX pubkey fileHash)
           :: match manifestEventsX relays pubkey fileHash log with
              | [] => [(relays, manifestFilterD pubkey fileHash)]
              | _ => []
              end).
Proof.
  unfold Nostr.fetchManifest, acceptedManifestEvents, manifestEventsX, manifestEventsD.
  unfold bind at 1. cbn [queryUntilNonEmpty]. unfold bind at 1, query at 1.
  destruct (querySync (List.length log) relays (manifestFilterX pubkey fileHash))
    as [|e es] eqn:Hx.
  - cbn [List.length Nat.ltb Nat.leb]. unfold bind at 1, query at 1.
    rewrite length_app. cbn [List.length]. rewrite Nat.add_1_r.
    destruct (querySync (S (List.length log)) relays (manifestFilterD pubkey fileHash))
      as [|e' es'] eqn:Hd.
    + cbn. rewrite <- app_assoc. reflexivity.
    + cbn [List.length Nat.ltb Nat.leb ret]. rewrite <- app_assoc. reflexivity.
  - cbn [List.length Nat.ltb Nat.leb ret]. reflexivity.
Qed.

(** The event that [reduce] picks is one of the events and none is more
    recent. *)
Lemma fold_later_max l x :
  let w := fold_left later l x in
  In w (x :: l) /\ (forall e, In e (x :: l) -> (created_at e <= created_at w)%Z).
Proof.
  revert x. induction l as [|y l IH]; intros x; cbn [fold_left].
  - split; [now left|]. intros e [<-|[]]. lia.
  - destruct (IH (later x y)) as [Hin Hmax]. split.
    + destruct Hin as [Hw|Hw]; [|now right; right].
      rewrite <- Hw. unfold later. destruct (_ >? _)%Z; [now left|now right; left].
    + intros e He.
      assert (Hxy : (created_at x <= created_at (later x y)
                     /\ created_at y <= created_at (later x y))%Z).
      { unfold later. destruct (Z.gtb_spec (created_at x) (created_at y)); lia. }
      pose proof (Hmax (later x y) (or_introl eq_refl)) as H0.
      destruct He as [<-|[<-|He]]; [lia|lia|].
      apply Hmax. now right.
Qed.

Lemma mostRecent_max events w :
  mostRecent events = Some w ->
  In w events /\ (forall e, In e events -> (created_at e <= created_at w)%Z).
Proof.
  destruct events as [|x l]; [discriminate|]. intros [= <-].
  apply fold_later_max.
Qed.

Lemma mostRecent_nonempty events :
  events <> [] -> exists w, mostRecent events = Some w.
Proof. destruct events; [easy|]. intros _. now eexists. Qed.


(** C4. When the record that a fetch resolves parses and its version
    is not 2, fetch-index and fetch-manifest raise the unsupported-version
    error: for the current index (on any page, since an archive page is
    reached through it), for the archive index of a page other than 1, and
    for the manifest of the accepted convention. *)
Theorem unsupported_version_raises
    (relays : list string) (pubkey fileHash : string) (page : Z) (log : QueryLog) :
  (forall event version,
      mostRecent (currentIndexEvents relays pubkey log) = Some event ->
      wrongVersion event version ->
      fst (fetchFileIndex relays pubkey page log)
      = Throw (UnsupportedIndexVersion version))
  /\ (forall currentIndex event version,
      page <> 1%Z ->
      fst (fetchCurrentIndex relays pubkey log) = Ok (Some currentIndex) ->
      mostRecent (archiveEvents relays pubkey page currentIndex log) = Some event ->
      wrongVersion event version ->
      fst (fetchFileIndex relays pubkey page log)
      = Throw (UnsupportedIndexVersion version))
  /\ (forall event version,
      mostRecent (acceptedManifestEvents relays pubkey fileHash log) = Some event ->
      wrongVersion event version ->
      fst (fetchManifest relays pubkey fileHash log)
      = Throw (UnsupportedManifestVersion version)).
Proof.
  repeat split.
  - intros event version Hw Hv.
    assert (Hcur : fst (fetchCurrentIndex relays pubkey log)
                   = Throw (UnsupportedIndexVersion version)).
    { rewrite fetchCurrentIndex_eq. unfold Nostr.resolveIndex. rewrite Hw.
      now rewrite (decodeIndex_wrongVersion _ _ _ Hv). }
    destruct (Z.eq_dec page 1%Z) as [->|Hpage]; [exact Hcur|].
    apply (fetchFileIndex_archive_stop _ _ _ _ _ Hpage Hcur). right. now eexists.
  - intros currentIndex event version Hpage Hcur Hw Hv.
    rewrite (fetchFileIndex_archive _ _ _ _ _ Hpage Hcur).
    unfold Nostr.resolveIndex. rewrite Hw.
    now rewrite (decodeIndex_wrongVersion _ _ _ Hv).
  - intros event version Hw Hv.
    rewrite fetchManifest_eq. unfold Nostr.resolveManifest. rewrite Hw.
    now rewrite (decodeManifest_wrongVersion _ _ _ Hv).
Qed.

(** C5. When the payload of the record that a fetch resolves does not
    parse, fetch-index and fetch-manifest return nothing-found and do not
    throw. *)
Theorem parse_failure_is_nothing_found
    (relays : list string) (pubkey fileHash : string) (page : Z) (log : QueryLog) :
  (forall event,
      mostRecent (currentIndexEvents relays pubkey log) = Some event ->
      unparsable event ->
      fst (fetchFileIndex relays pubkey page log) = Ok None)
  /\ (forall currentIndex event,
      page <> 1%Z ->
      fst (fetchCurrentIndex relays pubkey log) = Ok (Some currentIndex) ->
      mostRecent (archiveEvents relays pubkey page currentIndex log) = Some event ->
      unparsable event ->
      fst (fetchFileIndex relays pubkey page log) = Ok None)
  /\ (forall event,
      mostRecent (acceptedManifestEvents relays pubkey fileHash log) = Some event ->
      unparsable event ->
      fst (fetchManifest relays pubkey fileHash log) = Ok None).
Proof.
  repeat split.
  - intros event Hw Hp.
    assert (Hcur : fst (fetchCurrentIndex relays pubkey log) = Ok None).
    { rewrite fetchCurrentIndex_eq. unfold Nostr.resolveIndex. rewrite Hw.
      now rewrite (decodeIndex_unparsable _ _ Hp). }
    destruct (Z.eq_dec page 1%Z) as [->|Hpage]; [exact Hcur|].
    apply (fetchFileIndex_archive_stop _ _ _ _ _ Hpage Hcur). now left.
  - intros currentIndex event Hpage Hcur Hw Hp.
    rewrite (fetchFileIndex_archive _ _ _ _ _ Hpage Hcur).
    unfold Nostr.resolveIndex. rewrite Hw.
    now rewrite (decodeIndex_unparsable _ _ Hp).
  - intros event Hw Hp.
    rewrite fetchManifest_eq. unfold Nostr.resolveManifest. rewrite Hw.
    now rewrite (decodeManifest_unparsable _ _ Hp).
Qed.


End ResolverFacts.

(** A relay pool and a payload table for the examples: the payload [v1]
    parses to an index of version 1, [v2] to one of version 2, anything
    else does not parse. *)
Definition exampleParse (payload : string) : option Nostr.JSON :=
  if String.eqb payload "v1"
  then Some (Nostr.JObject [("version", Nostr.JNumber 1)])
  else if String.eqb payload "v2"
  then Some (Nostr.JObject [("version", Nostr.JNumber 2);
                            ("total_archives", Nostr.JNumber 5)])
  else None.

Definition exampleEvent (i : string) (t : Z) (payload : string) : Nostr.NostrEvent :=
  {| Nostr.id := i; Nostr.created_at := t; Nostr.tags := [];
     Nostr.ev_content := payload |}.

(** Every query is answered by an old record of version 2 and a newer one
    with the given payload. *)
Definition exampleQuery (payload : string) (n : nat) (relays : list string)
    (filter : Nostr.Filter) : list Nostr.NostrEvent :=
  [exampleEvent "a" 10 "v2"; exampleEvent "b" 20 payload].

(** A pool whose current index is of version 2 with five archives and
    whose archive pages are of version 1. *)
Definition archiveQuery (n : nat) (relays : list string) (filter : Nostr.Filter)
  : list Nostr.NostrEvent :=
  match Nostr.tag_d filter with
  | Some [tag] =>
      if String.eqb tag "nostrsave-index" then [exampleEvent "current" 30 "v2"]
      else [exampleEvent "archive" 5 "v1"]
  | _ => []
  end.

Lemma unsupported_version_raises_witness :
  fst (Nostr.fetchFileIndex exampleTags exampleParse (exampleQuery "v1")
         exampleToString exampleToNumber
         ["wss://relay"] "pk" 1 [])
  = Throw (Nostr.UnsupportedIndexVersion (Some (Nostr.JNumber 1)))
  /\ Nostr.fetchFileIndex exampleTags exampleParse archiveQuery
       exampleToString exampleToNumber
       ["wss://relay"] "pk" 4 []
     = (Throw (Nostr.UnsupportedIndexVersion (Some (Nostr.JNumber 1))),
        [(["wss://relay"], Nostr.indexFilter "pk" "nostrsave-index");
         (["wss://relay"], Nostr.indexFilter "pk" "nostrsave-index-archive-3")]).
Proof.
  split.
  - apply (proj1 (unsupported_version_raises exampleTags exampleParse
                    (exampleQuery "v1") exampleToString exampleToNumber ["wss://relay"] "pk" "hash" 1 []))
      with (event := exampleEvent "b" 20 "v1").
    + reflexivity.
    + exists (Nostr.JObject [("version", Nostr.JNumber 1)]).
      repeat split; reflexivity.
  - apply injective_projections; [|reflexivity].
    apply (proj1 (proj2 (unsupported_version_raises exampleTags exampleParse
                    archiveQuery exampleToString exampleToNumber ["wss://relay"] "pk" "hash" 4 [])))
      with (currentIndex := Nostr.JObject [("version", Nostr.JNumber 2);
                                           ("total_archives", Nostr.JNumber 5)])
           (event := exampleEvent "archive" 5 "v1").
    + discriminate.
    + reflexivity.
    + reflexivity.
    + exists (Nostr.JObject [("version", Nostr.JNumber 1)]).
      repeat split; reflexivity.
Defined.

Lemma parse_failure_is_nothing_found_witness :
  fst (Nostr.fetchManifest exampleParse (exampleQuery "not json")
         ["wss://relay"] "pk" "hash" [])
  = Ok None.
Proof.
  apply (proj2 (proj2 (parse_failure_is_nothing_found exampleTags exampleParse
                  (exampleQuery "not json") exampleToString exampleToNumber ["wss://relay"] "pk" "hash" 1 [])))
    with (event := exampleEvent "b" 20 "not json").
  - reflexivity.
  - reflexivity.
Defined.

(** A pool that knows the manifest under its file identifier only: the
    content-hash query finds nothing, the file-identifier query finds an
    old and a new record. *)
Definition fallbackQuery (n : nat) (relays : list string) (filter : Nostr.Filter)
  : list Nostr.NostrEvent :=
  match Nostr.tag_x filter with
  | Some _ => []
  | None => [exampleEvent "new" 20 "v2"; exampleEvent "old" 10 "v2"]
  end.



(** ** Chunk retrieval engine *)

Section ChunkIndexFacts.

Import Nostr.

Lemma split_nonempty sep s : JS.split sep s <> [].
Proof.
  destruct s as [|c s]; cbn; [easy|].
  destruct (Ascii.eqb c sep); [easy|]. now destruct (JS.split sep s).
Qed.

(** Splitting distributes over a separator. *)
Lemma split_app sep p s :
  JS.split sep (p +:+ String sep s) = JS.split sep p ++ JS.split sep s.
Proof.
  induction p as [|c p IH].
  - change (EmptyString +:+ String sep s) with (String sep s).
    cbn. now rewrite Ascii.eqb_refl.
  - change (String c p +:+ String sep s) with (String c (p +:+ String sep s)).
    cbn. destruct (Ascii.eqb c sep); [now rewrite IH|].
    rewrite IH. pose proof (split_nonempty sep p) as Hne.
    now destruct (JS.split sep p).
Qed.

Lemma split_no_separator sep s :
  JS.all_chars (fun c => negb (Ascii.eqb c sep)) s = true -> JS.split sep s = [s].
Proof.
  induction s as [|c s IH]; cbn; [easy|].
  intros [Hc Hs]%andb_true_iff. apply negb_true_iff in Hc.
  now rewrite Hc, (IH Hs).
Qed.

(** The last part of [prefix:suffix] is [suffix] when it has no colon. *)
Lemma last_split_suffix prefix suffix :
  JS.all_chars (fun c => negb (Ascii.eqb c ":")) suffix = true ->
  List.last (JS.split ":" (prefix +:+ ":" +:+ suffix)) EmptyString = suffix.
Proof.
  intros H. change (":" +:+ suffix) with (String ":" suffix).
  rewrite split_app, (split_no_separator _ _ H). apply List.last_last.
Qed.

Definition noColon (s : string) : Prop :=
  JS.all_chars (fun ch => negb (Ascii.eqb ch ":")) s = true.

(** The part of a d tag after its last colon; the whole tag when it has
    no colon. *)
Definition trailingSegment (dTag segment : string) : Prop :=
  (dTag = segment /\ noColon dTag)
  \/ exists prefix, dTag = prefix +:+ ":" +:+ segment /\ noColon segment.

Lemma trailingSegment_exists dTag : exists segment, trailingSegment dTag segment.
Proof.
  induction dTag as [|ch d [segment [[-> Hno]|[prefix [-> Hno]]]]].
  - exists EmptyString. now left.
  - destruct (Ascii.eqb ch ":") eqn:Hch.
    + apply Ascii.eqb_eq in Hch as ->. exists segment. right. now exists EmptyString.
    + exists (String ch segment). left. split; [reflexivity|].
      unfold noColon in *. cbn [JS.all_chars]. now rewrite Hch, Hno.
  - exists segment. right. now exists (String ch prefix).
Qed.

Lemma trailingSegment_last dTag segment :
  trailingSegment dTag segment -> List.last (JS.split ":" dTag) EmptyString = segment.
Proof.
  intros [[-> Hno]|[prefix [-> Hno]]].
  - now rewrite (split_no_separator _ _ Hno).
  - exact (last_split_suffix _ _ Hno).
Qed.

(** The integer of the explicit chunk tag of a record. *)
Definition chunkTagInteger (tags : list (list string)) (i : JS.Num) : Prop :=
  exists t v, findTag "chunk" tags = Some t /\ truthyValue t = Some v
              /\ JS.parseInt10 v = Some i.

(** The integer of the trailing segment of the d tag of a record. *)
Definition dTagInteger (tags : list (list string)) (i : JS.Num) : Prop :=
  exists t dTag segment,
    findTag "d" tags = Some t /\ truthyValue t = Some dTag
    /\ trailingSegment dTag segment /\ JS.parseInt10 segment = Some i.

(** What the two tags of a record say about its index. *)
Lemma parseChunkIndexFromTags_spec tags i :
  parseChunkIndexFromTags tags = Some i
  <-> chunkTagInteger tags i
      \/ ((forall j, ~ chunkTagInteger tags j) /\ dTagInteger tags i).
Proof.
  unfold parseChunkIndexFromTags, chunkTagInteger, dTagInteger.
  destruct (findTag "chunk" tags) as [t|] eqn:Hchunk.
  - destruct (truthyValue t) as [v|] eqn:Hv.
    + destruct (JS.parseInt10 v) as [j|] eqn:Hj.
      * split.
        -- intros [= <-]. left. now exists t, v.
        -- intros [(t' & v' & [= <-] & Hv' & Hi)|[Hnone _]].
           ++ congruence.
           ++ exfalso. apply (Hnone j). now exists t, v.
      * split.
        -- intros Hd. right. split.
           { intros j (t' & v' & [= <-] & Hv' & Hj'). congruence. }
           destruct (findTag "d" tags) as [td|]; [|discriminate].
           destruct (truthyValue td) as [dTag|] eqn:Hd'; [|discriminate].
           destruct (trailingSegment_exists dTag) as [segment Hseg].
           exists td, dTag, segment. rewrite (trailingSegment_last _ _ Hseg) in Hd.
           auto.
        -- intros [(t' & v' & [= <-] & Hv' & Hi)|[_ (td & dTag & segment & -> & -> & Hseg & Hi)]].
           ++ congruence.
           ++ now rewrite (trailingSegment_last _ _ Hseg).
    + split.
      * intros Hd. right. split.
        { intros j (t' & v' & [= <-] & Hv' & _). congruence. }
        destruct (findTag "d" tags) as [td|]; [|discriminate].
        destruct (truthyValue td) as [dTag|] eqn:Hd'; [|discriminate].
        destruct (trailingSegment_exists dTag) as [segment Hseg].
        exists td, dTag, segment. rewrite (trailingSegment_last _ _ Hseg) in Hd.
        auto.
      * intros [(t' & v' & [= <-] & Hv' & _)|[_ (td & dTag & segment & -> & -> & Hseg & Hi)]].
        -- congruence.
        -- now rewrite (trailingSegment_last _ _ Hseg).
  - split.
    + intros Hd. right. split.
      { intros j (t' & v' & [=] & _). }
      destruct (findTag "d" tags) as [td|]; [|discriminate].
      destruct (truthyValue td) as [dTag|] eqn:Hd'; [|discriminate].
      destruct (trailingSegment_exists dTag) as [segment Hseg].
      exists td, dTag, segment. rewrite (trailingSegment_last _ _ Hseg) in Hd.
      auto.
    + intros [(t' & v' & [=] & _)|[_ (td & dTag & segment & -> & -> & Hseg & Hi)]].
      now rewrite (trailingSegment_last _ _ Hseg).
Qed.

(** The chunk that [handleEvent] makes of a record for an index. *)
Definition chunkOfEvent (i : JS.Num) (event : NostrEvent) : ChunkEvent :=
  {| index := i; content := ev_content event;
     encryption := encryptionOfTags (tags event) |}.

(** C1, as amended. The index of an incoming record is the integer
    of its explicit chunk tag; failing that, the integer parsed from the
    part after the last colon of its d tag (from the whole d tag when it
    has no colon); a record without such an integer, in particular one
    with neither tag, has no index of its own and takes the index that the
    manifest's chunk_infos give for its identifier.  A record with none
    of the three is discarded: neither the map of the retrieval nor the
    cache changes.  A record with an index is inserted at that index when
    the index is free, and ignored otherwise. *)
Theorem chunk_index_strategy (r : nat) (a : FetchArgs) (event : NostrEvent)
    (c : Closure) (cache : gmap string ChunkCacheEntry) (progress : Progress) :
  id event ∉ seenEventIds c ->
  let c' := (handleEvent r a event c cache progress).1.1 in
  let cache' := (handleEvent r a event c cache progress).1.2 in
  let ofTags (i : JS.Num) : Prop :=
    chunkTagInteger (tags event) i
    \/ ((forall j, ~ chunkTagInteger (tags event) j) /\ dTagInteger (tags event) i) in
  let ofManifest (i : JS.Num) : Prop :=
    (forall j, ~ ofTags j)
    /\ JS.Int <$> mapGet (id event) (indexByEventId c) = Some i in
  (forall i, parseChunkIndexFromTags (tags event) = Some i <-> ofTags i)
  /\ (findTag "chunk" (tags event) = None -> findTag "d" (tags event) = None ->
      parseChunkIndexFromTags (tags event) = None /\ forall j, ~ ofTags j)
  /\ ((forall j, ~ ofTags j) -> mapGet (id event) (indexByEventId c) = None ->
      chunks c' = chunks c /\ cache' = cache)
  /\ (forall i, ofTags i \/ ofManifest i -> chunks c !! i = None ->
        chunks c' = <[i := chunkOfEvent i event]> (chunks c)
        /\ forall entry, cache !! cacheKey a = Some entry ->
             chunksByIndex <$> cache' !! cacheKey a
             = Some (<[i := chunkOfEvent i event]> (chunksByIndex entry)))
  /\ (forall i, ofTags i \/ ofManifest i -> is_Some (chunks c !! i) ->
        chunks c' = chunks c /\ cache' = cache).
Proof.
  intros Hnew c' cache' ofTags ofManifest. subst c' cache'.
  assert (Hspec : forall i, parseChunkIndexFromTags (tags event) = Some i <-> ofTags i)
    by (intros i; apply parseChunkIndexFromTags_spec).
  assert (Hnone : (forall j, ~ ofTags j) -> parseChunkIndexFromTags (tags event) = None).
  { intros Hno. destruct (parseChunkIndexFromTags (tags event)) as [j|];
      [|reflexivity]. exfalso. apply (Hno j), Hspec. reflexivity. }
  assert (Hindex : forall i, ofTags i \/ ofManifest i ->
            match parseChunkIndexFromTags (tags event) with
            | Some j => Some j
            | None => JS.Int <$> mapGet (id event) (indexByEventId c)
            end = Some i).
  { intros i [Hi|[Hno Hi]].
    - apply Hspec in Hi. now rewrite Hi.
    - now rewrite (Hnone Hno). }
  unfold handleEvent. rewrite (bool_decide_eq_false_2 _ Hnew).
  cbn [chunks seenEventIds indexByEventId].
  split; [exact Hspec|]. split; [|split; [|split]].
  - intros Hchunk Hd.
    assert (Hno : forall j, ~ ofTags j).
    { intros j [(t & v & Ht & _)|[_ (t & dTag & segment & Ht & _)]]; congruence. }
    split; [exact (Hnone Hno)|exact Hno].
  - intros Hno Hmap. rewrite (Hnone Hno), Hmap. now split.
  - intros i Hi Hfree. rewrite (Hindex i Hi), Hfree. split; [reflexivity|].
    intros entry Hentry. cbn [fst snd].
    now rewrite Hentry, lookup_insert_eq.
  - intros i Hi [x Hx]. rewrite (Hindex i Hi), Hx. now split.
Qed.

End ChunkIndexFacts.

(** The property as the specification words it: a record whose tags give no index is never
    inserted, whatever the manifest says about its identifier. *)
Definition unplaced_record_is_discarded : Prop :=
  forall r a event c cache progress,
    Nostr.id event ∉ Nostr.seenEventIds c ->
    Nostr.parseChunkIndexFromTags (Nostr.tags event) = None ->
    Nostr.chunks (Nostr.handleEvent r a event c cache progress).1.1 = Nostr.chunks c.

Definition exampleArgs (total : Z) (infos : option (list Nostr.ChunkInfo))
  : Nostr.FetchArgs :=
  {| Nostr.relays := ["wss://relay"]; Nostr.pubkey := "pk"; Nostr.fileHash := "hash";
     Nostr.totalChunks := total; Nostr.onProgress := true;
     Nostr.chunkInfos := infos |}.

(** A manifest that lists the record [e1] as chunk 0. *)
Definition manifestInfos : option (list Nostr.ChunkInfo) :=
  Some [{| Nostr.ci_index := 0; Nostr.event_id := Some "e1" |}].

Definition freshClosure (infos : option (list Nostr.ChunkInfo)) : Nostr.Closure :=
  {| Nostr.chunks := ∅; Nostr.seenEventIds := ∅;
     Nostr.indexByEventId := Nostr.buildIndexByEventId infos |}.

Definition chunkRecord (i : string) (tags : list (list string)) : Nostr.NostrEvent :=
  {| Nostr.id := i; Nostr.created_at := 0; Nostr.tags := tags;
     Nostr.ev_content := "ciphertext of " +:+ i |}.

(** The record [e1] carries neither a chunk tag nor a d tag, and is
    inserted at index 0, which the manifest gives for it. *)
Lemma unplaced_record_is_discarded_fails : ~ unplaced_record_is_discarded.
Proof.
  intros H.
  specialize (H 0%nat (exampleArgs 1 manifestInfos)
                (chunkRecord "e1" [["x"; "hash"]])
                (freshClosure manifestInfos) ∅ []).
  assert (Hnew : "e1" ∉ (∅ : gset string)) by set_solver.
  specialize (H Hnew eq_refl).
  apply (f_equal (fun m => m !! JS.Int 0)) in H. vm_compute in H. discriminate H.
Qed.

Lemma chunk_index_strategy_witness :
  Nostr.parseChunkIndexFromTags [["chunk"; "5"]; ["d"; "hash:7"]] = Some (JS.Int 5)
  /\ Nostr.chunks (Nostr.handleEvent 0 (exampleArgs 8 None)
                     (chunkRecord "e2" [["chunk"; "5"]; ["d"; "hash:7"]])
                     (freshClosure None) ∅ []).1.1
     = {[ JS.Int 5 := {| Nostr.index := JS.Int 5; Nostr.content := "ciphertext of e2";
                         Nostr.encryption := "none" |} ]}
  /\ Nostr.chunks (Nostr.handleEvent 0 (exampleArgs 1 manifestInfos)
                     (chunkRecord "e1" [["x"; "hash"]])
                     (freshClosure manifestInfos) ∅ []).1.1
     = {[ JS.Int 0 := {| Nostr.index := JS.Int 0; Nostr.content := "ciphertext of e1";
                         Nostr.encryption := "none" |} ]}.
Proof.
  assert (Hnew : forall i, i ∉ (∅ : gset string)) by (intros i; apply not_elem_of_empty).
  assert (Hfive : chunkTagInteger [["chunk"; "5"]; ["d"; "hash:7"]] (JS.Int 5)).
  { exists ["chunk"; "5"], "5". repeat split. }
  pose proof (chunk_index_strategy 0 (exampleArgs 8 None)
                (chunkRecord "e2" [["chunk"; "5"]; ["d"; "hash:7"]])
                (freshClosure None) ∅ [] (Hnew _)) as (H1 & _ & _ & H3 & _).
  pose proof (chunk_index_strategy 0 (exampleArgs 1 manifestInfos)
                (chunkRecord "e1" [["x"; "hash"]])
                (freshClosure manifestInfos) ∅ [] (Hnew _))
    as (_ & Hneither & _ & H3' & _).
  split; [|split].
  - exact (proj2 (H1 (JS.Int 5)) (or_introl Hfive)).
  - exact (proj1 (H3 (JS.Int 5) (or_introl (or_introl Hfive)) eq_refl)).
  - exact (proj1 (H3' (JS.Int 0)
                    (or_intror (conj (proj2 (Hneither eq_refl eq_refl)) eq_refl))
                    eq_refl)).
Defined.

(** ** Retrieval cache *)

Section CacheFacts.

Import Nostr.

#[local] Instance byIndex_total : Total byIndex.
Proof.
  intros x y. unfold byIndex, JS.le.
  destruct (index x) as [[]|i], (index y) as [[]|j]; auto. lia.
Qed.

Lemma sortedChunks_sorted m : Sorted byIndex (sortedChunks m).
Proof. apply Sorted_merge_sort, _. Qed.

Lemma sortedChunks_perm m : sortedChunks m ≡ₚ (map_to_list m).*2.
Proof. apply merge_sort_Permutation. Qed.

(** C7. A call that finds the cache entry of its key with exactly
    total_chunks indices returns the cached chunks sorted by index at once:
    it is not suspended, opens no subscription, queues nothing and leaves
    the cache as it is. *)
Theorem fetchChunks_complete_cache (a : FetchArgs) (st : State)
    (cached : ChunkCacheEntry) :
  chunkCache st !! cacheKey a = Some cached ->
  sizeZ (chunksByIndex cached) = totalChunks a ->
  let st' := fetchChunks a st in
  let result := sortedChunks (chunksByIndex cached) in
  requests st' = requests st ++ [{| args := a; status := ReturnedCached result |}]
  /\ chunkCache st' = chunkCache st
  /\ subscriptions st' = subscriptions st
  /\ microtasks st' = microtasks st
  /\ progress st' = progress st
  /\ Sorted byIndex result
  /\ result ≡ₚ (map_to_list (chunksByIndex cached)).*2.
Proof.
  intros Hcached Hsize st' result. subst st'.
  unfold fetchChunks. rewrite Hcached, Hsize, Z.eqb_refl.
  repeat split; [apply sortedChunks_sorted|apply sortedChunks_perm].
Qed.

End CacheFacts.

(** Two records of a file of two chunks. *)
Definition chunk0 : Nostr.NostrEvent := chunkRecord "e0" [["d"; "hash:0"]].
Definition chunk1 : Nostr.NostrEvent := chunkRecord "e1" [["chunk"; "1"]; ["d"; "hash:0"]].

Definition stateAfter (trace : list Nostr.Input) : Nostr.State :=
  default Nostr.initial (Nostr.run Nostr.initial trace).

(** One request has fetched both chunks and returned. *)
Definition completedTrace : list Nostr.Input :=
  [Nostr.Call (exampleArgs 2 None); Nostr.Deliver 0 chunk1; Nostr.Deliver 0 chunk0;
   Nostr.Continue; Nostr.Continue].

Lemma fetchChunks_complete_cache_witness :
  Nostr.status <$> Nostr.requests
     (Nostr.fetchChunks (exampleArgs 2 None) (stateAfter completedTrace)) !! 1%nat
  = Some (Nostr.ReturnedCached
            [{| Nostr.index := JS.Int 0; Nostr.content := "ciphertext of e0";
                Nostr.encryption := "none" |};
             {| Nostr.index := JS.Int 1; Nostr.content := "ciphertext of e1";
                Nostr.encryption := "none" |}])
  /\ Nostr.subscriptions
       (Nostr.fetchChunks (exampleArgs 2 None) (stateAfter completedTrace))
     = Nostr.subscriptions (stateAfter completedTrace).
Proof.
  destruct (Nostr.chunkCache (stateAfter completedTrace)
              !! Nostr.cacheKey (exampleArgs 2 None)) as [cached|] eqn:Hcached;
    [|vm_compute in Hcached; discriminate Hcached].
  assert (Hsize : Nostr.sizeZ (Nostr.chunksByIndex cached) = 2%Z).
  { vm_compute in Hcached. injection Hcached as <-. reflexivity. }
  pose proof (fetchChunks_complete_cache (exampleArgs 2 None)
                (stateAfter completedTrace) cached Hcached Hsize)
    as (Hreq & _ & Hsubs & _).
  split; [|exact Hsubs].
  rewrite Hreq. vm_compute in Hcached. injection Hcached as <-. reflexivity.
Defined.

(** ** Coalescing of concurrent requests *)

Section Coalescing.

Import Nostr.

(** The key whose cache entry and requests are followed. *)
Variable k : string.

(** A retrieval is in flight from its start to the return of its block. *)
Definition running (s : Status) : Prop :=
  match s with
  | Subscribed _ _ | PhaseResolved _ _ => True
  | _ => False
  end.

(** A request that has started no retrieval of its own. *)
Definition passive (s : Status) : Prop :=
  match s with
  | AwaitInFlight _ | ReturnedCached _ | ReturnedReady _ => True
  | _ => False
  end.

Definition keysOf (reqs : list Request) : list string :=
  (fun q => cacheKey (args q)) <$> reqs.

(** How many requests were made for the key. *)
Definition requestsFor (st : State) : nat :=
  List.length (filter (fun key => key = k) (keysOf (requests st))).

(** The status of request [x] when it is a request for the key. *)
Definition statusFor (reqs : list Request) (x : nat) : option Status :=
  match reqs !! x with
  | Some q => if decide (cacheKey (args q) = k) then Some (status q) else None
  | None => None
  end.

Definition entryOf (st : State) : option ChunkCacheEntry := chunkCache st !! k.

Definition chunksOf (E : option ChunkCacheEntry) : gmap JS.Num ChunkEvent :=
  match E with
  | Some e => chunksByIndex e
  | None => ∅
  end.

(** What a request holds agrees with the cache entry. *)
Definition agrees (e : ChunkCacheEntry) (s : Status) : Prop :=
  match s with
  | Subscribed c _ | PhaseResolved c _ => chunks c = chunksByIndex e
  | Settled res | Returned res | ReturnedReady res =>
      res = sortedChunks (chunksByIndex e)
  | _ => True
  end.

(** The block has just started or continued over the map [m]. *)
Definition started (m : gmap JS.Num ChunkEvent) (s : Status) : Prop :=
  (exists c ph, s = Subscribed c ph /\ chunks c = m) \/ s = Settled (sortedChunks m).

(** *** Counting the requests of the key *)

Definition countIn (l : list string) : nat := List.length (filter (fun key => key = k) l).

Lemma countIn_app l1 l2 : countIn (l1 ++ l2) = (countIn l1 + countIn l2)%nat.
Proof. unfold countIn. now rewrite filter_app, length_app. Qed.

Lemma countIn_one l x : l !! x = Some k -> (1 <= countIn l)%nat.
Proof.
  intros H. rewrite <- (take_drop_middle l x k H), countIn_app.
  unfold countIn at 2. rewrite filter_cons_True by reflexivity. cbn. lia.
Qed.

Lemma countIn_two l x y :
  (x < y)%nat -> l !! x = Some k -> l !! y = Some k -> (2 <= countIn l)%nat.
Proof.
  intros Hxy Hx Hy. rewrite <- (take_drop_middle l x k Hx), countIn_app.
  unfold countIn at 2. rewrite filter_cons_True by reflexivity.
  assert (H : (1 <= countIn (drop (S x) l))%nat).
  { apply (countIn_one _ (y - S x)). rewrite lookup_drop.
    now replace (S x + (y - S x))%nat with y by lia. }
  cbn. unfold countIn in H. lia.
Qed.

Lemma countIn_three l x y z :
  (x < y < z)%nat -> l !! x = Some k -> l !! y = Some k -> l !! z = Some k ->
  (3 <= countIn l)%nat.
Proof.
  intros Hxyz Hx Hy Hz. rewrite <- (take_drop_middle l x k Hx), countIn_app.
  unfold countIn at 2. rewrite filter_cons_True by reflexivity.
  assert (H : (2 <= countIn (drop (S x) l))%nat).
  { apply (countIn_two _ (y - S x) (z - S x)); [lia| |]; rewrite lookup_drop.
    - now replace (S x + (y - S x))%nat with y by lia.
    - now replace (S x + (z - S x))%nat with z by lia. }
  cbn. unfold countIn in H. lia.
Qed.

Lemma statusFor_key reqs x :
  is_Some (statusFor reqs x) -> keysOf reqs !! x = Some k.
Proof.
  unfold statusFor, keysOf. rewrite list_lookup_fmap.
  destruct (reqs !! x) as [q|]; cbn; [|now intros [? ?]].
  destruct (decide _) as [->|]; [reflexivity|now intros [? ?]].
Qed.

(** The count bounds the number of distinct requests of the key. *)
Definition Card (σ : nat -> option Status) (n : nat) : Prop :=
  (forall x, is_Some (σ x) -> 1 <= n)%nat
  /\ (forall x y, x <> y -> is_Some (σ x) -> is_Some (σ y) -> 2 <= n)%nat
  /\ (forall x y z, x <> y -> x <> z -> y <> z ->
        is_Some (σ x) -> is_Some (σ y) -> is_Some (σ z) -> 3 <= n)%nat.

Lemma card_state st : Card (statusFor (requests st)) (requestsFor st).
Proof.
  unfold requestsFor. fold (countIn (keysOf (requests st))).
  repeat split.
  - intros x Hx%statusFor_key. exact (countIn_one _ _ Hx).
  - intros x y Hne Hx%statusFor_key Hy%statusFor_key.
    destruct (Nat.lt_total x y) as [H|[H|H]]; [|contradiction|].
    + exact (countIn_two _ _ _ H Hx Hy).
    + exact (countIn_two _ _ _ H Hy Hx).
  - intros x y z Hxy Hxz Hyz Hx%statusFor_key Hy%statusFor_key Hz%statusFor_key.
    destruct (Nat.lt_total x y) as [H1|[H1|H1]]; [|contradiction|];
    destruct (Nat.lt_total x z) as [H2|[H2|H2]]; try contradiction;
    destruct (Nat.lt_total y z) as [H3|[H3|H3]]; try contradiction; try lia.
    + exact (countIn_three _ x y z (conj H1 H3) Hx Hy Hz).
    + exact (countIn_three _ x z y (conj H2 H3) Hx Hz Hy).
    + exact (countIn_three _ z x y (conj H2 H1) Hz Hx Hy).
    + exact (countIn_three _ y x z (conj H1 H2) Hy Hx Hz).
    + exact (countIn_three _ y z x (conj H3 H2) Hy Hz Hx).
    + exact (countIn_three _ z y x (conj H3 H1) Hz Hy Hx).
Qed.


(** *** The invariant

    It is stated over the cache entry [E] of the key, the statuses [σ] of
    the requests of the key, and their number [n]. *)

Record InvOn (E : option ChunkCacheEntry) (σ : nat -> option Status) (n : nat)
  : Prop := {
  (* no entry, no request *)
  inv_entry : E = None -> forall x, σ x = None;
  (* the handle names a retrieval whose owner has not passed line 492 *)
  inv_handle : forall e p, E = Some e -> inFlight e = Some p ->
      exists s, σ p = Some s /\ (running s \/ exists res, s = Settled res);
  (* a waiter waits for another request of the key *)
  inv_wait : forall r p, σ r = Some (AwaitInFlight p) -> p <> r /\ is_Some (σ p);
  (* the retrieval of a lone request is the one published *)
  inv_single : n = 1%nat -> forall r s, σ r = Some s -> running s ->
      exists e, E = Some e /\ inFlight e = Some r;
  (* with two requests at most, one retrieval at a time *)
  inv_one : (n <= 2)%nat -> forall r r' s s',
      σ r = Some s -> σ r' = Some s' -> running s -> running s' -> r = r';
  (* the only request that retrieves holds what the entry holds *)
  inv_agree : (n <= 2)%nat -> forall r s, σ r = Some s ->
      (forall r' s', r' <> r -> σ r' = Some s' -> passive s') ->
      exists e, E = Some e /\ agrees e s;
  (* a waiter returns from the cache after the other request has settled *)
  inv_ready : (n <= 2)%nat -> forall r res, σ r = Some (ReturnedReady res) ->
      exists p s e, p <> r /\ σ p = Some s /\ isSettled s = true
                    /\ E = Some e /\ res = sortedChunks (chunksByIndex e)
}.

(** *** The transitions, seen from the key

    Either nothing of the key changes, or request [rc] of the key moves to
    status [s] along one of the edges of [fetchChunks]. *)

Definition setAt (σ : nat -> option Status) (rc : nat) (s : Status)
    (σ' : nat -> option Status) : Prop :=
  forall x, σ' x = if decide (x = rc) then Some s else σ x.

Definition withChunks (i : JS.Num) (chunk : ChunkEvent) (e : ChunkCacheEntry)
  : ChunkCacheEntry :=
  {| chunksByIndex := <[i := chunk]> (chunksByIndex e); inFlight := inFlight e |}.

Definition cleared (e : ChunkCacheEntry) : ChunkCacheEntry :=
  {| chunksByIndex := chunksByIndex e; inFlight := None |}.

Definition published (E : option ChunkCacheEntry) (rc : nat) : ChunkCacheEntry :=
  {| chunksByIndex := chunksOf E; inFlight := Some rc |}.

Inductive Trans (E : option ChunkCacheEntry) (σ : nat -> option Status) (n : nat)
    (E' : option ChunkCacheEntry) (σ' : nat -> option Status) (n' : nat) : Prop :=
| T_frame :
    E' = E -> (forall x, σ' x = σ x) -> n' = n -> Trans E σ n E' σ' n'
| T_call_cached rc res cached :                       (* line 380 *)
    σ rc = None -> n' = S n -> E = Some cached -> E' = E ->
    setAt σ rc (ReturnedCached res) σ' -> Trans E σ n E' σ' n'
| T_call_wait rc p cached :                           (* line 384 *)
    σ rc = None -> n' = S n -> E = Some cached -> inFlight cached = Some p ->
    E' = E -> setAt σ rc (AwaitInFlight p) σ' -> Trans E σ n E' σ' n'
| T_call_start rc s :                                 (* lines 391-489 *)
    σ rc = None -> n' = S n ->
    (E = None \/ exists cached, E = Some cached /\ inFlight cached = None) ->
    E' = Some (published E rc) -> started (chunksOf E) s ->
    setAt σ rc s σ' -> Trans E σ n E' σ' n'
| T_wait_ready rc p ready :                           (* line 387 *)
    σ rc = Some (AwaitInFlight p) -> n' = n ->
    (forall s, σ p = Some s -> isSettled s = true) ->
    E = Some ready -> E' = E ->
    setAt σ rc (ReturnedReady (sortedChunks (chunksByIndex ready))) σ' ->
    Trans E σ n E' σ' n'
| T_wait_start rc p s :                               (* lines 391-489 *)
    σ rc = Some (AwaitInFlight p) -> n' = n ->
    (forall s, σ p = Some s -> isSettled s = true) ->
    E' = Some (published E rc) -> started (chunksOf E) s ->
    setAt σ rc s σ' -> Trans E σ n E' σ' n'
| T_event rc c ph c' s :                              (* onevent, onclose *)
    σ rc = Some (Subscribed c ph) -> n' = n ->
    (s = Subscribed c' ph \/ s = PhaseResolved c' ph) ->
    ((chunks c' = chunks c /\ E' = E)
     \/ exists i chunk, chunks c' = <[i := chunk]> (chunks c)
                        /\ E' = withChunks i chunk <$> E) ->
    setAt σ rc s σ' -> Trans E σ n E' σ' n'
| T_block rc c ph s :                                 (* after line 446 or 469 *)
    σ rc = Some (PhaseResolved c ph) -> n' = n -> E' = E ->
    started (chunks c) s -> setAt σ rc s σ' -> Trans E σ n E' σ' n'
| T_owner rc res :                                    (* lines 490-496 *)
    σ rc = Some (Settled res) -> n' = n -> E' = cleared <$> E ->
    setAt σ rc (Returned res) σ' -> Trans E σ n E' σ' n'.


(** *** Every transition keeps the invariant *)

Section Preservation.

Variables (E E' : option ChunkCacheEntry) (σ σ' : nat -> option Status) (n n' : nat).
Hypothesis I : InvOn E σ n.
Hypothesis C : Card σ n.
Hypothesis T : Trans E σ n E' σ' n'.

(** Read a status of the new state through the one of the old state. *)
Ltac old_status Hset H Hne :=
  match type of H with
  | σ' ?x = _ =>
      let Heq := fresh "Heq" in
      rewrite (Hset x) in H;
      destruct (decide (x = _)) as [Heq|Hne];
      [try (subst x); try clear Heq; injection H as H|]
  end.

Ltac new_status Hset x :=
  let Heq := fresh "Heq" in
  rewrite (Hset x); destruct (decide (x = _)) as [Heq|?];
  [try (subst x); try clear Heq|try easy].

Lemma started_not_passive m s : started m s -> passive s -> False.
Proof. intros [(c & ph & -> & _)| ->]; cbn; tauto. Qed.

Lemma started_handle m s : started m s -> running s \/ exists res, s = Settled res.
Proof. intros [(c & ph & -> & _)| ->]; cbn; eauto. Qed.

Lemma started_agrees m s e : started m s -> chunksByIndex e = m -> agrees e s.
Proof. intros [(c & ph & -> & Hc)| ->] <-; cbn; congruence. Qed.

Ltac cases_of_T :=
  destruct T as
    [HE Hσ Hn
    |rc rs cached Hrc Hn HE HE'' Hset
    |rc wp cached Hrc Hn HE Hwp HE'' Hset
    |rc ns Hrc Hn HE HE'' Hns Hset
    |rc wp rdy Hrc Hn Hwp HE HE'' Hset
    |rc wp ns Hrc Hn Hwp HE'' Hns Hset
    |rc c0 ph0 c1 ns Hrc Hn Hns Hev Hset
    |rc c0 ph0 ns Hrc Hn HE'' Hns Hset
    |rc rs Hrc Hn HE'' Hset].

Lemma pres_entry : E' = None -> forall x, σ' x = None.
Proof using I T.
  intros HE' x. cases_of_T; try congruence.
  - rewrite Hσ. apply (inv_entry _ _ _ I). congruence.
  - assert (HE : E = None).
    { destruct Hev as [[_ Heq]|(i & chunk & _ & Heq)]; [congruence|].
      rewrite Heq in HE'. now destruct E. }
    rewrite (inv_entry _ _ _ I HE) in Hrc. discriminate.
  - assert (HE : E = None) by congruence.
    rewrite (inv_entry _ _ _ I HE) in Hrc. discriminate.
  - assert (HE : E = None) by (rewrite HE'' in HE'; now destruct E).
    rewrite (inv_entry _ _ _ I HE) in Hrc. discriminate.
Qed.

Lemma pres_handle e p :
  E' = Some e -> inFlight e = Some p ->
  exists s, σ' p = Some s /\ (running s \/ exists res, s = Settled res).
Proof using I T.
  intros HE' He. cases_of_T.
  - rewrite Hσ. apply (inv_handle _ _ _ I e); congruence.
  - destruct (inv_handle _ _ _ I e p) as (s0 & Hs0 & Hr); [congruence|easy|].
    exists s0. new_status Hset p. congruence.
  - destruct (inv_handle _ _ _ I e p) as (s0 & Hs0 & Hr); [congruence|easy|].
    exists s0. new_status Hset p. congruence.
  - rewrite HE'' in HE'. injection HE' as <-. cbn in He. injection He as <-.
    exists ns. new_status Hset rc. split; [easy|]. exact (started_handle _ _ Hns).
  - destruct (inv_handle _ _ _ I e p) as (s0 & Hs0 & Hr); [congruence|easy|].
    exists s0. new_status Hset p.
    rewrite Hrc in Hs0. injection Hs0 as <-. destruct Hr as [[]|[res [=]]].
  - rewrite HE'' in HE'. injection HE' as <-. cbn in He. injection He as <-.
    exists ns. new_status Hset rc. split; [easy|]. exact (started_handle _ _ Hns).
  - assert (He0 : exists e0, E = Some e0 /\ inFlight e0 = Some p).
    { destruct Hev as [[_ Heq]|(i & chunk & _ & Heq)]; rewrite Heq in HE'.
      - now exists e.
      - destruct E as [e0|]; [|discriminate]. injection HE' as <-. now exists e0. }
    destruct He0 as (e0 & HE0 & Hp0).
    destruct (inv_handle _ _ _ I e0 p HE0 Hp0) as (s0 & Hs0 & Hr).
    new_status Hset p; [|now exists s0].
    exists ns. split; [easy|]. left. destruct Hns as [-> | ->]; exact Logic.I.
  - destruct (inv_handle _ _ _ I e p) as (s0 & Hs0 & Hr); [congruence|easy|].
    new_status Hset p; [|now exists s0].
    exists ns. split; [easy|]. exact (started_handle _ _ Hns).
  - rewrite HE'' in HE'. destruct E as [e0|]; [|discriminate].
    injection HE' as <-. discriminate He.
Qed.

Lemma started_not_wait m s q : started m s -> s <> AwaitInFlight q.
Proof. intros [(c & ph & -> & _)| ->]; discriminate. Qed.

Lemma pres_wait r p : σ' r = Some (AwaitInFlight p) -> p <> r /\ is_Some (σ' p).
Proof using I T.
  intros Hr.
  assert (Hold : forall rc s, setAt σ rc s σ' -> r <> rc ->
                   σ r = Some (AwaitInFlight p) /\ 
                   (p <> r /\ is_Some (σ p) -> p <> r /\ is_Some (σ' p))).
  { intros rc s Hset Hne. rewrite (Hset r) in Hr.
    destruct (decide (r = rc)); [contradiction|]. split; [easy|].
    intros [? ?]. split; [easy|]. rewrite (Hset p). now destruct (decide (p = rc)). }
  assert (Hsame : forall rc s, setAt σ rc s σ' ->
                    (forall q, s <> AwaitInFlight q) -> p <> r /\ is_Some (σ' p)).
  { intros rc s Hset Hs. destruct (decide (r = rc)) as [->|Hne].
    - rewrite (Hset rc) in Hr. destruct (decide (rc = rc)); [|contradiction].
      injection Hr as ->. now destruct (Hs p).
    - destruct (Hold rc s Hset Hne) as [H1 H2]. apply H2.
      exact (inv_wait _ _ _ I r p H1). }
  cases_of_T.
  - rewrite Hσ in *. exact (inv_wait _ _ _ I r p Hr).
  - apply (Hsame _ _ Hset). discriminate.
  - destruct (decide (r = rc)) as [->|Hne].
    + rewrite (Hset rc) in Hr. destruct (decide (rc = rc)); [|contradiction].
      injection Hr as ->.
      destruct (inv_handle _ _ _ I cached p HE Hwp) as (s0 & Hs0 & _).
      assert (p <> rc) by congruence. split; [easy|].
      rewrite (Hset p). destruct (decide (p = rc)); [contradiction|]. now exists s0.
    + destruct (Hold _ _ Hset Hne) as [H1 H2]. apply H2.
      exact (inv_wait _ _ _ I r p H1).
  - apply (Hsame _ _ Hset). intros q. exact (started_not_wait _ _ q Hns).
  - apply (Hsame _ _ Hset). discriminate.
  - apply (Hsame _ _ Hset). intros q. exact (started_not_wait _ _ q Hns).
  - apply (Hsame _ _ Hset). destruct Hns as [-> | ->]; discriminate.
  - apply (Hsame _ _ Hset). intros q. exact (started_not_wait _ _ q Hns).
  - apply (Hsame _ _ Hset). discriminate.
Qed.

Lemma card1 x s : σ x = Some s -> (1 <= n)%nat.
Proof using C. intros H. apply (proj1 C x). now exists s. Qed.

Lemma card2 x y s s' : x <> y -> σ x = Some s -> σ y = Some s' -> (2 <= n)%nat.
Proof using C. intros Hne H H'. apply (proj1 (proj2 C) x y Hne); eauto. Qed.

Lemma card3 x y z s s' s'' :
  x <> y -> x <> z -> y <> z ->
  σ x = Some s -> σ y = Some s' -> σ z = Some s'' -> (3 <= n)%nat.
Proof using C.
  intros H1 H2 H3 H H' H''. apply (proj2 (proj2 C) x y z H1 H2 H3); eauto.
Qed.

(** A waiter and the request it waits for make two requests. *)
Lemma waiter_two rc wp : σ rc = Some (AwaitInFlight wp) -> (2 <= n)%nat.
Proof using I C.
  intros Hrc. destruct (inv_wait _ _ _ I rc wp Hrc) as [Hne [s0 Hs0]].
  exact (card2 _ _ _ _ Hne Hs0 Hrc).
Qed.

Lemma pres_single :
  n' = 1%nat -> forall r s, σ' r = Some s -> running s ->
  exists e, E' = Some e /\ inFlight e = Some r.
Proof using I C T.
  intros Hn1 r s Hr Hrun. cases_of_T.
  - rewrite Hσ in Hr. rewrite HE. apply (inv_single _ _ _ I) with s; congruence.
  - old_status Hset Hr Hne; [now subst s|]. pose proof (card1 _ _ Hr). lia.
  - old_status Hset Hr Hne; [now subst s|]. pose proof (card1 _ _ Hr). lia.
  - old_status Hset Hr Hne; [|pose proof (card1 _ _ Hr); lia].
    now exists (published E rc).
  - pose proof (waiter_two _ _ Hrc). lia.
  - pose proof (waiter_two _ _ Hrc). lia.
  - old_status Hset Hr Hne; [|pose proof (card2 _ _ _ _ Hne Hr Hrc); lia].
    destruct (inv_single _ _ _ I) with (r := rc) (s := Subscribed c0 ph0)
      as (e & HEe & He); [lia|easy|exact Logic.I|].
    destruct Hev as [[_ ->]|(i & chunk & _ & ->)]; [now exists e|].
    rewrite HEe. now exists (withChunks i chunk e).
  - old_status Hset Hr Hne; [|pose proof (card2 _ _ _ _ Hne Hr Hrc); lia].
    rewrite HE''. apply (inv_single _ _ _ I) with (PhaseResolved c0 ph0);
      [lia|easy|exact Logic.I].
  - old_status Hset Hr Hne; [now subst s|].
    pose proof (card2 _ _ _ _ Hne Hr Hrc). lia.
Qed.

Lemma settled_not_running s : isSettled s = true -> running s -> False.
Proof. now destruct s. Qed.

Lemma pres_one :
  (n' <= 2)%nat -> forall r r' s s',
  σ' r = Some s -> σ' r' = Some s' -> running s -> running s' -> r = r'.
Proof using I C T.
  intros Hn2 r r' s s' Hr Hr' Hrun Hrun'.
  destruct (decide (r = r')) as [|Hneq]; [assumption|exfalso].
  (* the case analysis at the request [rc] that moves to [ns], given that no
     other running request is compatible with [ns] running *)
  assert (Hsplit : forall rc ns, setAt σ rc ns σ' -> (n <= 2)%nat ->
            (forall y sy, y <> rc -> σ y = Some sy -> running sy -> running ns -> False) ->
            False).
  { intros rc ns Hset Hn Hkey.
    old_status Hset Hr Hne1; old_status Hset Hr' Hne2.
    - contradiction.
    - subst s. exact (Hkey r' s' Hne2 Hr' Hrun' Hrun).
    - subst s'. exact (Hkey r s Hne1 Hr Hrun Hrun').
    - apply Hneq. apply (inv_one _ _ _ I) with s s'; easy. }
  cases_of_T.
  - rewrite Hσ in Hr, Hr'. apply Hneq. apply (inv_one _ _ _ I) with s s'; [lia|easy..].
  - apply (Hsplit _ _ Hset); [lia|]. intros y sy _ _ _ [].
  - apply (Hsplit _ _ Hset); [lia|]. intros y sy _ _ _ [].
  - apply (Hsplit _ _ Hset); [lia|]. intros y sy Hy Hsy Hruny _.
    pose proof (card1 _ _ Hsy).
    destruct (inv_single _ _ _ I) with (r := y) (s := sy)
      as (e & HEe & He); [lia|easy..|].
    destruct HE as [HE|(cached & HE & Hc)]; congruence.
  - apply (Hsplit _ _ Hset); [lia|]. intros y sy _ _ _ [].
  - apply (Hsplit _ _ Hset); [lia|]. intros y sy Hy Hsy Hruny _.
    destruct (inv_wait _ _ _ I _ _ Hrc) as [Hwne [s0 Hs0]].
    assert (y <> wp).
    { intros ->. rewrite Hs0 in Hsy. injection Hsy as ->.
      exact (settled_not_running _ (Hwp _ Hs0) Hruny). }
    pose proof (card3 _ _ _ _ _ _ H Hy Hwne Hsy Hs0 Hrc). lia.
  - apply (Hsplit _ _ Hset); [lia|]. intros y sy Hy Hsy Hruny _.
    apply Hy. apply (inv_one _ _ _ I) with sy (Subscribed c0 ph0);
      [lia|easy..|exact Logic.I].
  - apply (Hsplit _ _ Hset); [lia|]. intros y sy Hy Hsy Hruny _.
    apply Hy. apply (inv_one _ _ _ I) with sy (PhaseResolved c0 ph0);
      [lia|easy..|exact Logic.I].
  - apply (Hsplit _ _ Hset); [lia|]. intros y sy _ _ _ [].
Qed.

Lemma pres_agree :
  (n' <= 2)%nat -> forall r s, σ' r = Some s ->
  (forall r' s', r' <> r -> σ' r' = Some s' -> passive s') ->
  exists e, E' = Some e /\ agrees e s.
Proof using I C T.
  intros Hn2 r s Hr Hothers.
  (* the new status of the request that moved *)
  assert (Hat : forall rc ns, setAt σ rc ns σ' -> σ' rc = Some ns).
  { intros rc ns Hset. rewrite (Hset rc). now destruct (decide (rc = rc)). }
  (* a request other than the one that moved, whose old status is passive *)
  assert (Hkeep : forall rc ns, setAt σ rc ns σ' -> r <> rc -> (n <= 2)%nat ->
            (forall s0, σ rc = Some s0 -> passive s0) ->
            exists e, E = Some e /\ agrees e s).
  { intros rc ns Hset Hne Hn Hpass. rewrite (Hset r) in Hr.
    destruct (decide (r = rc)); [contradiction|].
    apply (inv_agree _ _ _ I Hn r s Hr). intros r' s' Hne' Hr'.
    destruct (decide (r' = rc)) as [->|Hne''].
    - exact (Hpass _ Hr').
    - apply (Hothers r' s' Hne'). rewrite (Hset r').
      now destruct (decide (r' = rc)). }
  (* a request other than the one that moved, which is not passive now *)
  assert (Hactive : forall rc ns, setAt σ rc ns σ' -> r <> rc -> ~ passive ns -> False).
  { intros rc ns Hset Hne Hns. apply Hns, (Hothers rc ns); [congruence|].
    exact (Hat _ _ Hset). }
  cases_of_T.
  - rewrite HE. rewrite Hσ in Hr. apply (inv_agree _ _ _ I) with r; [lia|easy|].
    intros r' s' Hne Hr'. apply (Hothers r' s' Hne). now rewrite Hσ.
  - destruct (decide (r = rc)) as [->|Hne].
    + rewrite (Hat _ _ Hset) in Hr. injection Hr as <-.
      exists cached. split; [congruence|exact Logic.I].
    + rewrite HE''. apply (Hkeep _ _ Hset Hne); [lia|]. congruence.
  - destruct (decide (r = rc)) as [->|Hne].
    + rewrite (Hat _ _ Hset) in Hr. injection Hr as <-.
      exists cached. split; [congruence|exact Logic.I].
    + rewrite HE''. apply (Hkeep _ _ Hset Hne); [lia|]. congruence.
  - destruct (decide (r = rc)) as [->|Hne].
    + rewrite (Hat _ _ Hset) in Hr. injection Hr as <-.
      exists (published E rc). split; [easy|]. now apply (started_agrees _ _ _ Hns).
    + destruct (Hactive _ _ Hset Hne). exact (started_not_passive _ _ Hns).
  - destruct (decide (r = rc)) as [->|Hne].
    + rewrite (Hat _ _ Hset) in Hr. injection Hr as <-.
      exists rdy. split; [congruence|reflexivity].
    + rewrite HE''. apply (Hkeep _ _ Hset Hne); [lia|].
      intros s0 Hs0. rewrite Hrc in Hs0. injection Hs0 as <-. exact Logic.I.
  - destruct (decide (r = rc)) as [->|Hne].
    + rewrite (Hat _ _ Hset) in Hr. injection Hr as <-.
      exists (published E rc). split; [easy|]. now apply (started_agrees _ _ _ Hns).
    + destruct (Hactive _ _ Hset Hne). exact (started_not_passive _ _ Hns).
  - destruct (decide (r = rc)) as [->|Hne].
    + rewrite (Hat _ _ Hset) in Hr. injection Hr as <-.
      destruct (inv_agree _ _ _ I) with (r := rc) (s := Subscribed c0 ph0)
        as (e & HEe & Hagree); [lia|easy| |].
      { intros r' s' Hne' Hr'. apply (Hothers r' s' Hne'). rewrite (Hset r').
        now destruct (decide (r' = rc)). }
      cbn in Hagree.
      destruct Hev as [[Hc ->]|(i & chunk & Hc & ->)].
      * exists e. split; [easy|]. destruct Hns as [-> | ->]; cbn; congruence.
      * exists (withChunks i chunk e). split; [now rewrite HEe|].
        destruct Hns as [-> | ->]; cbn; congruence.
    + destruct (Hactive _ _ Hset Hne). destruct Hns as [-> | ->]; cbn; tauto.
  - destruct (decide (r = rc)) as [->|Hne].
    + rewrite (Hat _ _ Hset) in Hr. injection Hr as <-.
      destruct (inv_agree _ _ _ I) with (r := rc) (s := PhaseResolved c0 ph0)
        as (e & HEe & Hagree); [lia|easy| |].
      { intros r' s' Hne' Hr'. apply (Hothers r' s' Hne'). rewrite (Hset r').
        now destruct (decide (r' = rc)). }
      cbn in Hagree. exists e. split; [congruence|].
      now apply (started_agrees _ _ _ Hns).
    + destruct (Hactive _ _ Hset Hne). exact (started_not_passive _ _ Hns).
  - destruct (decide (r = rc)) as [->|Hne].
    + rewrite (Hat _ _ Hset) in Hr. injection Hr as <-.
      destruct (inv_agree _ _ _ I) with (r := rc) (s := Settled rs)
        as (e & HEe & Hagree); [lia|easy| |].
      { intros r' s' Hne' Hr'. apply (Hothers r' s' Hne'). rewrite (Hset r').
        now destruct (decide (r' = rc)). }
      cbn in Hagree. exists (cleared e). split; [now rewrite HE'', HEe|exact Hagree].
    + destruct (Hactive _ _ Hset Hne). cbn. tauto.
Qed.

Lemma pres_ready :
  (n' <= 2)%nat -> forall r res, σ' r = Some (ReturnedReady res) ->
  exists p s e, p <> r /\ σ' p = Some s /\ isSettled s = true
                /\ E' = Some e /\ res = sortedChunks (chunksByIndex e).
Proof using I C T.
  intros Hn2 r res Hr.
  (* the request is not the one that moved, and with its partner and the
     one that moved there are three *)
  assert (Hthird : forall rc ns s0, setAt σ rc ns σ' -> n' = n ->
            ns <> ReturnedReady res -> σ rc = Some s0 -> isSettled s0 = false ->
            False).
  { intros rc ns s0 Hset Hn Hns Hrc Hs0. old_status Hset Hr Hne; [congruence|].
    destruct (inv_ready _ _ _ I) with (r := r) (res := res)
      as (p & s & e & Hp & Hps & Hsettled & _); [lia|easy|].
    assert (p <> rc) by (intros ->; congruence).
    pose proof (card3 _ _ _ _ _ _ Hp H Hne Hps Hr Hrc). lia. }
  (* a call adds a request to the two *)
  assert (Hcall : forall rc ns, setAt σ rc ns σ' -> n' = S n ->
            ns <> ReturnedReady res -> False).
  { intros rc ns Hset Hn Hns. old_status Hset Hr Hne; [congruence|].
    destruct (inv_ready _ _ _ I) with (r := r) (res := res)
      as (p & s & e & Hp & Hps & _); [lia|easy|].
    pose proof (card2 _ _ _ _ Hp Hps Hr). lia. }
  cases_of_T.
  - rewrite Hσ in Hr.
    destruct (inv_ready _ _ _ I) with (r := r) (res := res)
      as (p & s & e & Hp & Hps & Hsettled & HEe & Hres); [lia|easy|].
    exists p, s, e. rewrite Hσ. repeat split; congruence.
  - destruct (Hcall _ _ Hset Hn). discriminate.
  - destruct (Hcall _ _ Hset Hn). discriminate.
  - destruct (Hcall _ _ Hset Hn). destruct Hns as [(c & ph & -> & _)| ->]; discriminate.
  - old_status Hset Hr Hne.
    + subst res.
      destruct (inv_wait _ _ _ I _ _ Hrc) as [Hwne [s0 Hs0]].
      exists wp, s0, rdy. rewrite (Hset wp).
      destruct (decide (wp = rc)); [contradiction|].
      repeat split; [easy..|apply (Hwp _ Hs0)|congruence].
    + destruct (inv_ready _ _ _ I) with (r := r) (res := res)
        as (p & s & e & Hp & Hps & Hsettled & _); [lia|easy|].
      assert (p <> rc) by (intros ->; rewrite Hrc in Hps; now injection Hps as <-).
      pose proof (card3 _ _ _ _ _ _ Hp H Hne Hps Hr Hrc). lia.
  - exfalso. apply (Hthird _ _ (AwaitInFlight wp) Hset Hn); [|easy..].
    destruct Hns as [(c & ph & -> & _)| ->]; discriminate.
  - exfalso. apply (Hthird _ _ (Subscribed c0 ph0) Hset Hn); [|easy..].
    destruct Hns as [-> | ->]; discriminate.
  - exfalso. apply (Hthird _ _ (PhaseResolved c0 ph0) Hset Hn); [|easy..].
    destruct Hns as [(c & ph & -> & _)| ->]; discriminate.
  - old_status Hset Hr Hne; [discriminate Hr|].
    destruct (inv_ready _ _ _ I) with (r := r) (res := res)
      as (p & s & e & Hp & Hps & Hsettled & HEe & Hres); [lia|easy|].
    destruct (decide (p = rc)) as [->|Hprc].
    + exists rc, (Returned rs), (cleared e). rewrite (Hset rc).
      destruct (decide (rc = rc)); [|contradiction].
      repeat split; [easy|now rewrite HE'', HEe|exact Hres].
    + pose proof (card3 _ _ _ _ _ _ Hp Hprc Hne Hps Hr Hrc). lia.
Qed.

(** Every transition keeps the invariant. *)
Lemma inv_trans : InvOn E' σ' n'.
Proof using I C T.
  constructor.
  - exact pres_entry.
  - exact pres_handle.
  - exact pres_wait.
  - exact pres_single.
  - exact pres_one.
  - exact pres_agree.
  - exact pres_ready.
Qed.

End Preservation.


(** *** The steps of the model are such transitions *)

Lemma keysOf_setStatus rc s reqs : keysOf (setStatus rc s reqs) = keysOf reqs.
Proof.
  unfold setStatus, keysOf. destruct (reqs !! rc) as [q|] eqn:Hq; [|reflexivity].
  rewrite list_fmap_insert. cbn. apply list_insert_id.
  now rewrite list_lookup_fmap, Hq.
Qed.

Lemma keysOf_newRequest a reqs s :
  keysOf (newRequest a reqs s) = keysOf reqs ++ [cacheKey a].
Proof. unfold newRequest, keysOf. now rewrite fmap_app. Qed.

Lemma statusFor_setStatus reqs rc q s x :
  reqs !! rc = Some q ->
  statusFor (setStatus rc s reqs) x
  = if decide (x = rc)
    then (if decide (cacheKey (args q) = k) then Some s else None)
    else statusFor reqs x.
Proof.
  intros Hq. unfold statusFor, setStatus. rewrite Hq.
  destruct (decide (x = rc)) as [->|Hne].
  - rewrite list_lookup_insert_eq by (now apply lookup_lt_Some in Hq). reflexivity.
  - now rewrite list_lookup_insert_ne by congruence.
Qed.

Lemma statusFor_newRequest a reqs s x :
  statusFor (newRequest a reqs s) x
  = if decide (x = List.length reqs)
    then (if decide (cacheKey a = k) then Some s else None)
    else statusFor reqs x.
Proof.
  unfold statusFor, newRequest. destruct (decide (x = List.length reqs)) as [->|Hne].
  - rewrite lookup_app_r by lia. now rewrite Nat.sub_diag.
  - destruct (decide (x < List.length reqs)%nat).
    + now rewrite lookup_app_l.
    + rewrite !lookup_ge_None_2; [reflexivity|lia|rewrite length_app; cbn; lia].
Qed.

Lemma statusFor_fresh reqs : statusFor reqs (List.length reqs) = None.
Proof. unfold statusFor. now rewrite lookup_ge_None_2. Qed.

Lemma statusFor_lookup reqs rc q :
  reqs !! rc = Some q -> cacheKey (args q) = k -> statusFor reqs rc = Some (status q).
Proof. intros Hq Hk. unfold statusFor. rewrite Hq. now destruct (decide _). Qed.

Lemma statusFor_other_key reqs rc q :
  reqs !! rc = Some q -> cacheKey (args q) <> k -> statusFor reqs rc = None.
Proof. intros Hq Hk. unfold statusFor. rewrite Hq. now destruct (decide _). Qed.

Definition TransOf (st st' : State) : Prop :=
  Trans (entryOf st) (statusFor (requests st)) (requestsFor st)
        (entryOf st') (statusFor (requests st')) (requestsFor st').

(** A request of another key moves: nothing of the key changes. *)
Lemma frame_set st st' rc q s :
  requests st !! rc = Some q -> cacheKey (args q) <> k ->
  requests st' = setStatus rc s (requests st) ->
  entryOf st' = entryOf st -> TransOf st st'.
Proof.
  intros Hq Hk Hreqs HE. apply T_frame; [exact HE| |].
  - intros x. rewrite Hreqs, (statusFor_setStatus _ _ _ _ _ Hq).
    destruct (decide (x = rc)) as [->|]; [|reflexivity].
    destruct (decide _); [contradiction|].
    now rewrite (statusFor_other_key _ _ _ Hq Hk).
  - unfold requestsFor. now rewrite Hreqs, keysOf_setStatus.
Qed.

Lemma frame_new st st' a s :
  cacheKey a <> k -> requests st' = newRequest a (requests st) s ->
  entryOf st' = entryOf st -> TransOf st st'.
Proof.
  intros Hk Hreqs HE. apply T_frame; [exact HE| |].
  - intros x. rewrite Hreqs, statusFor_newRequest.
    destruct (decide (x = _)) as [->|]; [|reflexivity].
    destruct (decide _); [contradiction|]. now rewrite statusFor_fresh.
  - unfold requestsFor. rewrite Hreqs, keysOf_newRequest, filter_app, length_app.
    rewrite filter_cons_False, filter_nil by congruence. cbn. lia.
Qed.

(** A request of the key moves: the status function is updated at it. *)
Lemma set_at st st' rc q s :
  requests st !! rc = Some q -> cacheKey (args q) = k ->
  requests st' = setStatus rc s (requests st) ->
  statusFor (requests st) rc = Some (status q)
  /\ requestsFor st' = requestsFor st
  /\ setAt (statusFor (requests st)) rc s (statusFor (requests st')).
Proof.
  intros Hq Hk Hreqs. split; [exact (statusFor_lookup _ _ _ Hq Hk)|]. split.
  - unfold requestsFor. now rewrite Hreqs, keysOf_setStatus.
  - intros x. rewrite Hreqs, (statusFor_setStatus _ _ _ _ _ Hq).
    destruct (decide (x = rc)); [|reflexivity]. now destruct (decide _).
Qed.

Lemma new_at st st' a s :
  cacheKey a = k -> requests st' = newRequest a (requests st) s ->
  statusFor (requests st) (List.length (requests st)) = None
  /\ requestsFor st' = S (requestsFor st)
  /\ setAt (statusFor (requests st)) (List.length (requests st)) s
       (statusFor (requests st')).
Proof.
  intros Hk Hreqs. split; [apply statusFor_fresh|]. split.
  - unfold requestsFor. rewrite Hreqs, keysOf_newRequest, filter_app, length_app.
    rewrite filter_cons_True, filter_nil by congruence. cbn. lia.
  - intros x. rewrite Hreqs, statusFor_newRequest.
    destruct (decide (x = _)); [|reflexivity]. now destruct (decide _).
Qed.


Lemma afterIds_started a c : started (chunks c) (afterIds a c).1.
Proof.
  unfold afterIds. destruct (_ <? _)%Z; cbn; [left; now exists c, FallbackX|now right].
Qed.

Lemma idsLoop_started a c i : started (chunks c) (idsLoop a c i).1.
Proof.
  unfold idsLoop. destruct (_ <? _)%nat; [|apply afterIds_started].
  left. now exists c, (IdsBatch i).
Qed.

Lemma blockStart_started a c : started (chunks c) (blockStart a c).1.
Proof.
  unfold blockStart. destruct (_ <? _)%nat; [apply idsLoop_started|apply afterIds_started].
Qed.

Lemma blockResume_started a c ph : started (chunks c) (blockResume a c ph).1.
Proof.
  unfold blockResume. destruct ph as [i|]; [|now right].
  destruct (_ <=? _)%Z; [apply afterIds_started|apply idsLoop_started].
Qed.

(** What [handleEvent] does to the map of the retrieval and to the cache. *)
Lemma handleEvent_shape r a event c cache pr :
  let c' := (handleEvent r a event c cache pr).1.1 in
  let cache' := (handleEvent r a event c cache pr).1.2 in
  (chunks c' = chunks c /\ cache' = cache)
  \/ exists i chunk,
       chunks c' = <[i := chunk]> (chunks c)
       /\ cache' = match cache !! cacheKey a with
                   | Some e => <[cacheKey a := withChunks i chunk e]> cache
                   | None => cache
                   end.
Proof.
  unfold handleEvent. destruct (bool_decide _); [now left|].
  cbn [chunks seenEventIds indexByEventId].
  destruct (match parseChunkIndexFromTags (tags event) with
            | Some i => Some i
            | None => JS.Int <$> mapGet (id event) (indexByEventId c)
            end) as [i|]; [|now left].
  destruct (chunks c !! i); [now left|]. right.
  eexists i, _. split; reflexivity.
Qed.

Lemma entry_after_event a (cache cache' : gmap string ChunkCacheEntry) i chunk :
  cacheKey a = k ->
  cache' = match cache !! cacheKey a with
           | Some e => <[cacheKey a := withChunks i chunk e]> cache
           | None => cache
           end ->
  cache' !! k = withChunks i chunk <$> cache !! k.
Proof.
  intros <- ->. destruct (cache !! cacheKey a) as [e|] eqn:He.
  - now rewrite lookup_insert_eq.
  - now rewrite He.
Qed.

Lemma entry_other_key a (cache cache' : gmap string ChunkCacheEntry) i chunk :
  cacheKey a <> k ->
  cache' = match cache !! cacheKey a with
           | Some e => <[cacheKey a := withChunks i chunk e]> cache
           | None => cache
           end ->
  cache' !! k = cache !! k.
Proof.
  intros Hk ->. destruct (cache !! cacheKey a); [|reflexivity].
  now rewrite lookup_insert_ne.
Qed.

(** The start of a retrieval, lines 391-489. *)
Lemma startFetch_spec r a place st :
  exists s,
    started (chunksOf (chunkCache st !! cacheKey a)) s
    /\ requests (startFetch r a place st) = place s
    /\ chunkCache (startFetch r a place st)
       = <[cacheKey a := published (chunkCache st !! cacheKey a) r]> (chunkCache st).
Proof.
  unfold startFetch.
  set (c := {| chunks := _; seenEventIds := ∅; indexByEventId := _ |}).
  pose proof (blockStart_started a c) as Hs.
  destruct (blockStart a c) as [s filters]. cbn in *.
  exists s. split; [exact Hs|]. split; reflexivity.
Qed.

Lemma trans_start_new a st :
  (chunkCache st !! cacheKey a = None
   \/ exists cached, chunkCache st !! cacheKey a = Some cached
                     /\ inFlight cached = None) ->
  TransOf st (startFetch (List.length (requests st)) a (newRequest a (requests st)) st).
Proof.
  intros Hc.
  destruct (startFetch_spec (List.length (requests st)) a (newRequest a (requests st)) st)
    as (s & Hs & Hreqs & Hcache).
  destruct (decide (cacheKey a = k)) as [Hk|Hk].
  - destruct (new_at st _ a s Hk Hreqs) as (Hfresh & Hn & Hset).
    apply (T_call_start _ _ _ _ _ _ (List.length (requests st)) s);
      unfold entryOf; rewrite <- ?Hk; try easy.
    rewrite Hcache. now rewrite lookup_insert_eq.
  - apply (frame_new st _ a s Hk Hreqs).
    unfold entryOf. rewrite Hcache. now rewrite lookup_insert_ne.
Qed.

Lemma trans_call a st : TransOf st (fetchChunks a st).
Proof.
  unfold fetchChunks.
  destruct (chunkCache st !! cacheKey a) as [cached|] eqn:Hcached.
  2:{ apply trans_start_new. now left. }
  destruct (_ =? _)%Z.
  - destruct (decide (cacheKey a = k)) as [Hk|Hk].
    + destruct (new_at st (addRequest a (ReturnedCached
                  (sortedChunks (chunksByIndex cached))) st) a _ Hk eq_refl)
        as (Hfresh & Hn & Hset).
      apply (T_call_cached _ _ _ _ _ _ (List.length (requests st))
               (sortedChunks (chunksByIndex cached)) cached Hfresh Hn); try easy.
      unfold entryOf. now rewrite <- Hk.
    + now apply (frame_new st _ a (ReturnedCached (sortedChunks (chunksByIndex cached)))).
  - destruct (inFlight cached) as [p|] eqn:Hp.
    2:{ apply trans_start_new. right. now exists cached. }
    set (st1 := addRequest a (AwaitInFlight p) st).
    assert (H1 : TransOf st st1).
    { destruct (decide (cacheKey a = k)) as [Hk|Hk].
      - destruct (new_at st st1 a _ Hk eq_refl) as (Hfresh & Hn & Hset).
        apply (T_call_wait _ _ _ _ _ _ (List.length (requests st)) p cached
                 Hfresh Hn); try easy.
        unfold entryOf. now rewrite <- Hk.
      - now apply (frame_new st _ a (AwaitInFlight p)). }
    now destruct (promiseSettled _ _).
Qed.


Lemma trans_onevent r event st st' : onevent r event st = Some st' -> TransOf st st'.
Proof.
  unfold onevent.
  destruct (requests st !! r) as [[a s0]|] eqn:Hq; [|discriminate].
  destruct s0 as [| c ph | | | | |]; try discriminate.
  pose proof (handleEvent_shape r a event c (chunkCache st) (progress st)) as Hshape.
  destruct (handleEvent r a event c (chunkCache st) (progress st))
    as [[c' cache'] progress']. cbn [fst snd] in Hshape.
  set (s := if (totalChunks a <=? sizeZ (chunks c'))%Z
            then PhaseResolved c' ph else Subscribed c' ph).
  intros Hst'.
  assert (Hreqs : requests st' = setStatus r s (requests st)).
  { unfold s. destruct (_ <=? _)%Z; now injection Hst' as <-. }
  assert (Hcache : chunkCache st' = cache').
  { destruct (_ <=? _)%Z; now injection Hst' as <-. }
  destruct (decide (cacheKey a = k)) as [Hk|Hk].
  - destruct (set_at st st' r _ s Hq Hk Hreqs) as (Hold & Hn & Hset).
    apply (T_event _ _ _ _ _ _ r c ph c' s Hold Hn); [| |exact Hset].
    + unfold s. destruct (_ <=? _)%Z; [now right|now left].
    + unfold entryOf. rewrite Hcache.
      destruct Hshape as [[Hc ->]|(i & chunk & Hc & Hcache')]; [now left|right].
      exists i, chunk. split; [exact Hc|].
      exact (entry_after_event a _ _ i chunk Hk Hcache').
  - apply (frame_set st st' r _ s Hq Hk Hreqs).
    unfold entryOf. rewrite Hcache.
    destruct Hshape as [[_ ->]|(i & chunk & _ & Hcache')]; [reflexivity|].
    exact (entry_other_key a _ _ i chunk Hk Hcache').
Qed.

Ltac name_target st' :=
  match goal with |- TransOf _ ?s' => set (st' := s') end.

Lemma trans_onclose r st st' : onclose r st = Some st' -> TransOf st st'.
Proof.
  unfold onclose.
  destruct (requests st !! r) as [[a s0]|] eqn:Hq; [|discriminate].
  destruct s0 as [| c ph | | | | |]; try discriminate.
  intros [= <-]. name_target st'.
  destruct (decide (cacheKey a = k)) as [Hk|Hk].
  - destruct (set_at st st' r _ (PhaseResolved c ph) Hq Hk eq_refl)
      as (Hold & Hn & Hset).
    apply (T_event _ _ _ _ _ _ r c ph c (PhaseResolved c ph) Hold Hn);
      [now right|now left|exact Hset].
  - now apply (frame_set st st' r _ (PhaseResolved c ph) Hq Hk).
Qed.

Lemma trans_resumeBlock r a c ph st :
  requests st !! r = Some {| args := a; status := PhaseResolved c ph |} ->
  TransOf st (resumeBlock r a c ph st).
Proof.
  intros Hq. unfold resumeBlock.
  pose proof (blockResume_started a c ph) as Hs.
  destruct (blockResume a c ph) as [s filters]. cbn [fst] in Hs.
  name_target st'.
  destruct (decide (cacheKey a = k)) as [Hk|Hk].
  - destruct (set_at st st' r _ s Hq Hk eq_refl) as (Hold & Hn & Hset).
    exact (T_block _ _ _ _ _ _ r c ph s Hold Hn eq_refl Hs Hset).
  - now apply (frame_set st st' r _ s Hq Hk).
Qed.

Lemma trans_resumeOwner r a res st :
  requests st !! r = Some {| args := a; status := Settled res |} ->
  TransOf st (resumeOwner r a res st).
Proof.
  intros Hq.
  destruct (decide (cacheKey a = k)) as [Hk|Hk].
  - destruct (set_at st (resumeOwner r a res st) r _ (Returned res) Hq Hk eq_refl)
      as (Hold & Hn & Hset).
    apply (T_owner _ _ _ _ _ _ r res Hold Hn); [|exact Hset].
    unfold entryOf, resumeOwner. cbn [chunkCache]. cbn [args] in Hk. rewrite <- Hk.
    destruct (chunkCache st !! cacheKey a) as [e|] eqn:He.
    + now rewrite lookup_insert_eq.
    + now rewrite He.
  - apply (frame_set st (resumeOwner r a res st) r _ (Returned res) Hq Hk eq_refl).
    unfold entryOf, resumeOwner. cbn [chunkCache].
    destruct (chunkCache st !! cacheKey a); [|reflexivity].
    now rewrite lookup_insert_ne.
Qed.

Lemma promiseSettled_status reqs p s :
  promiseSettled reqs p = true -> statusFor reqs p = Some s -> isSettled s = true.
Proof.
  unfold promiseSettled, statusFor. destruct (reqs !! p) as [q|]; [|discriminate].
  intros H. destruct (decide _); [|discriminate]. now intros [= <-].
Qed.

Lemma trans_resumeWaiter r a p st :
  requests st !! r = Some {| args := a; status := AwaitInFlight p |} ->
  promiseSettled (requests st) p = true ->
  TransOf st (resumeWaiter r a st).
Proof.
  intros Hq Hp.
  assert (Hstart : TransOf st
            (startFetch r a (fun s => setStatus r s (requests st)) st)).
  { destruct (startFetch_spec r a (fun s => setStatus r s (requests st)) st)
      as (s & Hs & Hreqs & Hcache).
    destruct (decide (cacheKey a = k)) as [Hk|Hk].
    - destruct (set_at st _ r _ s Hq Hk Hreqs) as (Hold & Hn & Hset).
      apply (T_wait_start _ _ _ _ _ _ r p s Hold Hn);
        [exact (fun s1 => promiseSettled_status _ _ s1 Hp)| | |exact Hset];
        unfold entryOf; cbn [args] in Hk; rewrite <- Hk; [|exact Hs].
      rewrite Hcache. now rewrite lookup_insert_eq.
    - apply (frame_set st _ r _ s Hq Hk Hreqs).
      unfold entryOf. rewrite Hcache. now rewrite lookup_insert_ne. }
  unfold resumeWaiter.
  destruct (chunkCache st !! cacheKey a) as [ready|] eqn:Hready; [|exact Hstart].
  destruct (_ =? _)%Z; [|exact Hstart].
  destruct (decide (cacheKey a = k)) as [Hk|Hk].
  - destruct (set_at st {| chunkCache := chunkCache st;
                           requests := setStatus r (ReturnedReady
                             (sortedChunks (chunksByIndex ready))) (requests st);
                           microtasks := microtasks st;
                           subscriptions := subscriptions st;
                           progress := progress st |}
                r _ (ReturnedReady (sortedChunks (chunksByIndex ready)))
                Hq Hk eq_refl) as (Hold & Hn & Hset).
    apply (T_wait_ready _ _ _ _ _ _ r p ready Hold Hn);
      [exact (fun s1 => promiseSettled_status _ _ s1 Hp)| |reflexivity|exact Hset].
    unfold entryOf. cbn [args] in Hk. now rewrite <- Hk.
  - name_target st'.
    now apply (frame_set st st' r _ (ReturnedReady (sortedChunks (chunksByIndex ready)))
                 Hq Hk).
Qed.

(** Taking a continuation off the queue changes nothing else. *)
Lemma trans_dequeue st rest st' :
  TransOf {| chunkCache := chunkCache st; requests := requests st;
             microtasks := rest; subscriptions := subscriptions st;
             progress := progress st |} st' ->
  TransOf st st'.
Proof. intros H. exact H. Qed.

Lemma trans_runMicrotask st st' : runMicrotask st = Some st' -> TransOf st st'.
Proof.
  unfold runMicrotask. destruct (microtasks st) as [|t rest]; [discriminate|].
  destruct t as [r|r|r]; cbn [requests];
    destruct (requests st !! r) as [[a s0]|] eqn:Hq; try discriminate.
  - destruct s0; try discriminate. intros [= <-].
    apply (trans_dequeue st rest). now apply trans_resumeBlock.
  - destruct s0; try discriminate. intros [= <-].
    apply (trans_dequeue st rest). now apply trans_resumeOwner.
  - destruct s0 as [p| | | | | |]; try discriminate.
    destruct (promiseSettled (requests st) p) eqn:Hp; [|discriminate].
    intros [= <-]. apply (trans_dequeue st rest). now apply trans_resumeWaiter with p.
Qed.

(** Every step of the model is a transition. *)
Lemma step_trans st i st' : step st i = Some st' -> TransOf st st'.
Proof.
  destruct i as [a|r event|r|]; cbn [step].
  - intros [= <-]. apply trans_call.
  - destruct (noMicrotask st); [|discriminate]. apply trans_onevent.
  - destruct (noMicrotask st); [|discriminate]. apply trans_onclose.
  - apply trans_runMicrotask.
Qed.

Definition Inv (st : State) : Prop :=
  InvOn (entryOf st) (statusFor (requests st)) (requestsFor st).

Lemma inv_initial : Inv initial.
Proof. constructor; unfold entryOf, statusFor; cbn; easy. Qed.

Lemma inv_step st i st' : step st i = Some st' -> Inv st -> Inv st'.
Proof.
  intros Hstep HI. exact (inv_trans _ _ _ _ _ _ HI (card_state st) (step_trans _ _ _ Hstep)).
Qed.

Lemma inv_run trace : forall st st', run st trace = Some st' -> Inv st -> Inv st'.
Proof.
  induction trace as [|i trace IH]; intros st st'; cbn [run].
  - now intros [= <-].
  - destruct (step st i) as [st1|] eqn:Hstep; [|discriminate].
    intros Hrun HI. exact (IH _ _ Hrun (inv_step _ _ _ Hstep HI)).
Qed.

Lemma inv_reachable st : reachable st -> Inv st.
Proof. intros [trace Hrun]. exact (inv_run _ _ _ Hrun inv_initial). Qed.



End Coalescing.

(** The result of a request that has returned. *)
Definition resultOf (st : Nostr.State) (r : nat) : option (list Nostr.ChunkEvent) :=
  match Nostr.status <$> Nostr.requests st !! r with
  | Some (Nostr.ReturnedCached res) | Some (Nostr.ReturnedReady res)
  | Some (Nostr.Returned res) => Some res
  | _ => None
  end.

(** The requests that have started a retrieval of their own. *)
Definition startedRetrieval (s : Nostr.Status) : bool :=
  match s with
  | Nostr.Subscribed _ _ | Nostr.PhaseResolved _ _ | Nostr.Settled _
  | Nostr.Returned _ => true
  | _ => false
  end.

Definition retrievalsStarted (st : Nostr.State) : nat :=
  List.length (List.filter (fun q => startedRetrieval (Nostr.status q))
                 (Nostr.requests st)).

Definition isCall (i : Nostr.Input) : bool :=
  match i with Nostr.Call _ => true | _ => false end.

(** The property as the specification words it: one retrieval in flight per key in every
    reachable state; two requests for a key, the second made while the
    first is suspended, start one retrieval between them and return the
    same list; the handle is cleared when the retrieval settles. *)
Definition one_retrieval_for_concurrent_requests : Prop :=
  (forall k st, Nostr.reachable st ->
     forall r r' q q',
       Nostr.requests st !! r = Some q -> Nostr.requests st !! r' = Some q' ->
       Nostr.cacheKey (Nostr.args q) = k -> Nostr.cacheKey (Nostr.args q') = k ->
       running (Nostr.status q) -> running (Nostr.status q') -> r = r')
  /\ (forall a trace st,
        Nostr.run Nostr.initial (Nostr.Call a :: Nostr.Call a :: trace) = Some st ->
        forallb (fun i => negb (isCall i)) trace = true ->
        retrievalsStarted st = 1%nat
        /\ forall res res', resultOf st 0 = Some res -> resultOf st 1 = Some res' ->
                            res = res')
  /\ (forall r a res st0 e,
        Nostr.chunkCache (Nostr.resumeOwner r a res st0) !! Nostr.cacheKey a = Some e ->
        Nostr.inFlight e = None).

(** The first retrieval closes with one chunk of two; the waiter finds the
    cache short and starts a second retrieval, which finds the other chunk. *)
Definition shortTrace : list Nostr.Input :=
  [Nostr.Deliver 0 chunk0; Nostr.Close 0;
   Nostr.Continue; Nostr.Continue; Nostr.Continue;
   Nostr.Deliver 1 chunk1; Nostr.Continue; Nostr.Continue].


(** The same run, for the record: two retrievals, two different lists. *)
Example short_first_retrieval :
  let st := stateAfter (Nostr.Call (exampleArgs 2 None)
                          :: Nostr.Call (exampleArgs 2 None) :: shortTrace) in
  retrievalsStarted st = 2%nat
  /\ option_map (List.map Nostr.index) (resultOf st 0) = Some [JS.Int 0]
  /\ option_map (List.map Nostr.index) (resultOf st 1) = Some [JS.Int 0; JS.Int 1].
Proof. vm_compute. auto. Qed.

(** The requests whose retrieval is in flight. *)
Definition inFlightRequests (st : Nostr.State) : list nat :=
  List.filter (fun r => match Nostr.status <$> Nostr.requests st !! r with
                        | Some (Nostr.Subscribed _ _)
                        | Some (Nostr.PhaseResolved _ _) => true
                        | _ => false
                        end)
    (seq 0 (List.length (Nostr.requests st))).

(** With a third request the two waiters of a short retrieval each start
    a retrieval: requests 1 and 2 are in flight together, and the handle
    names the last one only. *)
Example three_requests_two_in_flight :
  let st := stateAfter [Nostr.Call (exampleArgs 2 None); Nostr.Call (exampleArgs 2 None);
                        Nostr.Call (exampleArgs 2 None); Nostr.Close 0;
                        Nostr.Continue; Nostr.Continue; Nostr.Continue;
                        Nostr.Continue] in
  inFlightRequests st = [1; 2]%nat
  /\ Nostr.inFlight <$> Nostr.chunkCache st !! "pk:hash" = Some (Some 2%nat).
Proof. vm_compute. auto. Qed.

(** Both chunks arrive during the first retrieval; the waiter returns from
    the cache. *)
Definition coalescedTrace : list Nostr.Input :=
  [Nostr.Call (exampleArgs 2 None); Nostr.Call (exampleArgs 2 None);
   Nostr.Deliver 0 chunk1; Nostr.Deliver 0 chunk0;
   Nostr.Continue; Nostr.Continue; Nostr.Continue].

Definition chunkEvent (i : Z) (record : string) : Nostr.ChunkEvent :=
  {| Nostr.index := JS.Int i; Nostr.content := "ciphertext of " +:+ record;
     Nostr.encryption := "none" |}.



(** * Further properties *)

(** ** Identity codec: every kind of input *)

Section KeysMore.

Variable nip19_decode : string -> result Keys.Exn Keys.Decoded.
Variable getPublicKey : list byte -> result Keys.Exn string.

#[local] Abbreviation normalize := (Keys.normalizeToPublicKey nip19_decode getPublicKey).

Definition isSpace (s : string) : Prop := JS.all_chars JS.isWhiteSpace s = true.

Lemma trimStart_space w s : isSpace w -> JS.trimStart (w +:+ s) = JS.trimStart s.
Proof.
  unfold isSpace. induction w as [|c w IH]; [reflexivity|]. cbn [JS.all_chars].
  intros [Hc Hw]%andb_true_iff.
  change (String c w +:+ s) with (String c (w +:+ s)). cbn [JS.trimStart].
  rewrite Hc. now apply IH.
Qed.

Lemma trimEnd_space w : isSpace w -> JS.trimEnd w = "".
Proof.
  unfold isSpace. induction w as [|c w IH]; [reflexivity|]. cbn [JS.all_chars JS.trimEnd].
  intros [Hc Hw]%andb_true_iff. now rewrite (IH Hw), Hc.
Qed.

Lemma trimEnd_app_space s w : isSpace w -> JS.trimEnd (s +:+ w) = JS.trimEnd s.
Proof.
  intros Hw. induction s as [|c s IH].
  - change ("" +:+ w) with w. now rewrite trimEnd_space.
  - change (String c s +:+ w) with (String c (s +:+ w)). cbn [JS.trimEnd].
    now rewrite IH.
Qed.

(** Trimming the start leaves a tail of white space in place, unless the
    whole string is white space. *)
Lemma trimStart_app s w :
  isSpace w ->
  JS.trimStart (s +:+ w) = JS.trimStart s +:+ w
  \/ (JS.trimStart s = "" /\ JS.trimStart (s +:+ w) = JS.trimStart w).
Proof.
  intros Hw. induction s as [|c s IH].
  - right. split; reflexivity.
  - change (String c s +:+ w) with (String c (s +:+ w)). cbn [JS.trimStart].
    destruct (JS.isWhiteSpace c); [exact IH|now left].
Qed.

Lemma trimStart_all_space w : isSpace w -> JS.trimStart w = "".
Proof.
  unfold isSpace. induction w as [|c w IH]; [reflexivity|]. cbn [JS.all_chars JS.trimStart].
  intros [Hc Hw]%andb_true_iff. now rewrite Hc, IH.
Qed.

Lemma trim_surrounded w1 s w2 :
  isSpace w1 -> isSpace w2 -> JS.trim (w1 +:+ s +:+ w2) = JS.trim s.
Proof.
  intros H1 H2. unfold JS.trim. rewrite (trimStart_space _ _ H1).
  destruct (trimStart_app s w2 H2) as [->|[Hs ->]].
  - now apply trimEnd_app_space.
  - rewrite Hs, (trimStart_all_space _ H2). reflexivity.
Qed.

(** X1. White space around the input is ignored. *)
Theorem normalize_ignores_surrounding_space (w1 input w2 : string) :
  isSpace w1 -> isSpace w2 ->
  normalize (w1 +:+ input +:+ w2) = normalize input.
Proof.
  intros H1 H2. unfold Keys.normalizeToPublicKey.
  now rewrite (trim_surrounded _ _ _ H1 H2).
Qed.

Ltac by_char c := destruct c as [[] [] [] [] [] [] [] []]; vm_compute; congruence.

Lemma hex_not_space c : Keys.isHexDigit c = true -> JS.isWhiteSpace c = false.
Proof. by_char c. Qed.

Lemma hex_not_n c : Keys.isHexDigit c = true -> Ascii.eqb c "n" = false.
Proof. by_char c. Qed.

Lemma lowerChar_hex c :
  Keys.isHexDigit c = true ->
  Keys.isHexDigit (JS.lowerChar c) = true /\ JS.lowerChar (JS.lowerChar c) = JS.lowerChar c.
Proof.
  destruct c as [[] [] [] [] [] [] [] []]; vm_compute;
    (discriminate || (intros _; split; reflexivity)).
Qed.

Lemma hexExactly_iff n s :
  Keys.matchHexExactly n s = true <->
  String.length s = n /\ JS.all_chars Keys.isHexDigit s = true.
Proof.
  revert s. induction n as [|n IH]; intros [|c s]; simpl; try (split; [easy|intros [? ?]; easy]).
  rewrite !andb_true_iff, IH. split; [intros [? [? ?]]|intros [? [? ?]]]; repeat split; congruence.
Qed.

Lemma trim_hex s : JS.all_chars Keys.isHexDigit s = true -> JS.trim s = s.
Proof.
  intros H. unfold JS.trim.
  assert (Hs : JS.trimStart s = s).
  { destruct s as [|c s]; [reflexivity|]. simpl in H.
    apply andb_true_iff in H as [Hc _].
    apply trimStart_no_space. now apply hex_not_space. }
  rewrite Hs. apply trimEnd_no_space.
  revert H. apply all_chars_impl. intros c Hc.
  now rewrite (hex_not_space c Hc).
Qed.

Lemma toLowerCase_hex_again s :
  JS.all_chars Keys.isHexDigit s = true ->
  String.length (JS.toLowerCase s) = String.length s
  /\ JS.all_chars Keys.isHexDigit (JS.toLowerCase s) = true
  /\ JS.toLowerCase (JS.toLowerCase s) = JS.toLowerCase s.
Proof.
  induction s as [|c s IH]; simpl; [easy|].
  intros [Hc Hs]%andb_true_iff. destruct (IH Hs) as (-> & -> & ->).
  destruct (lowerChar_hex c Hc) as [-> ->]. easy.
Qed.

(** A string that begins with a hexadecimal digit begins with neither
    [npub1] nor [nsec1]. *)
Lemma hex_not_bech32 n s :
  Keys.matchHexExactly (S n) s = true ->
  Keys.isValidNpub nip19_decode s = false /\ Keys.isValidNsec nip19_decode s = false.
Proof.
  destruct s as [|c s]; [discriminate|]. cbn [Keys.matchHexExactly].
  intros [Hc _]%andb_true_iff. apply hex_not_n in Hc.
  unfold Keys.isValidNpub, Keys.isValidNsec, JS.startsWith. cbn [String.prefix].
  destruct (ascii_dec "n" c) as [<-|Hn]; [discriminate Hc|]. split; reflexivity.
Qed.

Lemma normalize_hex s :
  Keys.isValidHexPubkey s = true ->
  normalize s = Ok {| Keys.pubkey := JS.toLowerCase s; Keys.secretKey := None |}.
Proof.
  intros Hhex. unfold Keys.normalizeToPublicKey.
  assert (Htrim : JS.trim s = s).
  { apply trim_hex. now apply (hexExactly_iff 64). }
  rewrite Htrim. destruct (hex_not_bech32 63 s Hhex) as [-> ->].
  unfold Keys.isValidHexPubkey in Hhex |- *. now rewrite Hhex.
Qed.

(** X2. A key of 64 hexadecimal digits, in any mix of cases and with white
    space around it, normalizes to its lower-case form with no secret key;
    that form is again a valid hexadecimal key and normalizes to itself. *)
Theorem normalize_hex_canonical (input : string) :
  Keys.isValidHexPubkey (JS.trim input) = true ->
  let pk := JS.toLowerCase (JS.trim input) in
  normalize input = Ok {| Keys.pubkey := pk; Keys.secretKey := None |}
  /\ Keys.isValidHexPubkey pk = true
  /\ normalize pk = Ok {| Keys.pubkey := pk; Keys.secretKey := None |}.
Proof.
  intros Hhex pk.
  pose proof (proj1 (hexExactly_iff 64 _) Hhex) as [Hlen Hall].
  destruct (toLowerCase_hex_again _ Hall) as (Hlen' & Hall' & Hidem).
  assert (Hpk : Keys.isValidHexPubkey pk = true).
  { apply hexExactly_iff. split; [|exact Hall']. subst pk. congruence. }
  split; [|split; [exact Hpk|]].
  - unfold Keys.normalizeToPublicKey.
    destruct (hex_not_bech32 63 _ Hhex) as [-> ->]. now rewrite Hhex.
  - rewrite (normalize_hex pk Hpk). subst pk. now rewrite Hidem.
Qed.

Lemma isValidNpub_decoded s :
  Keys.isValidNpub nip19_decode s = true ->
  JS.startsWith s "npub1" = true /\ exists pk, nip19_decode s = Ok (Keys.DecNpub pk).
Proof.
  unfold Keys.isValidNpub. destruct (JS.startsWith s "npub1"); [|discriminate].
  cbn [negb]. destruct (nip19_decode s) as [[]|]; try discriminate. eauto.
Qed.

Lemma isValidNsec_decoded s :
  Keys.isValidNsec nip19_decode s = true ->
  JS.startsWith s "nsec1" = true /\ exists sk, nip19_decode s = Ok (Keys.DecNsec sk).
Proof.
  unfold Keys.isValidNsec. destruct (JS.startsWith s "nsec1"); [|discriminate].
  cbn [negb]. destruct (nip19_decode s) as [[]|]; try discriminate. eauto.
Qed.

(** X3. A secret key is returned only for an input that, once trimmed,
    begins with [nsec1] and decodes as an nsec; it is the decoded key, and
    the public key returned with it is the one derived from it. *)
Theorem normalize_secret_key_origin (input : string) (r : Keys.NormalizedKey)
    (sk : list byte) :
  normalize input = Ok r ->
  Keys.secretKey r = Some sk ->
  JS.startsWith (JS.trim input) "nsec1" = true
  /\ nip19_decode (JS.trim input) = Ok (Keys.DecNsec sk)
  /\ getPublicKey sk = Ok (Keys.pubkey r).
Proof.
  unfold Keys.normalizeToPublicKey.
  destruct (Keys.isValidNpub nip19_decode (JS.trim input)) eqn:Hnpub.
  { unfold Keys.npubToPublicKey.
    destruct (nip19_decode (JS.trim input)) as [[]|]; cbn; intros [= <-]; discriminate. }
  destruct (Keys.isValidNsec nip19_decode (JS.trim input)) eqn:Hnsec.
  - destruct (isValidNsec_decoded _ Hnsec) as [Hpre [sk' Hdec]].
    unfold Keys.nsecToSecretKey, Keys.getPublicKeyFromSecret. rewrite Hdec. cbn.
    destruct (getPublicKey sk') as [pk|e] eqn:Hpk; cbn; [|discriminate].
    intros [= <-]. cbn. intros [= <-]. auto.
  - destruct (Keys.isValidHexPubkey (JS.trim input)); [|discriminate].
    intros [= <-]. discriminate.
Qed.

(** X4. Normalizing fails in two ways only: with the invalid-key-format
    error, when the trimmed input is none of the three forms, or with what
    the key derivation threw on the secret key of a valid nsec.  The errors
    of [npubToPublicKey] and [nsecToSecretKey] never come out of it. *)
Theorem normalize_failures (input : string) (e : Keys.Exn) :
  normalize input = Throw e ->
  (e = Keys.InvalidKeyFormat
   /\ Keys.isValidNpub nip19_decode (JS.trim input) = false
   /\ Keys.isValidNsec nip19_decode (JS.trim input) = false
   /\ Keys.isValidHexPubkey (JS.trim input) = false)
  \/ (exists sk, nip19_decode (JS.trim input) = Ok (Keys.DecNsec sk)
                 /\ getPublicKey sk = Throw e).
Proof.
  unfold Keys.normalizeToPublicKey.
  destruct (Keys.isValidNpub nip19_decode (JS.trim input)) eqn:Hnpub.
  { destruct (isValidNpub_decoded _ Hnpub) as [_ [pk Hdec]].
    unfold Keys.npubToPublicKey. rewrite Hdec. discriminate. }
  destruct (Keys.isValidNsec nip19_decode (JS.trim input)) eqn:Hnsec.
  - destruct (isValidNsec_decoded _ Hnsec) as [_ [sk Hdec]].
    unfold Keys.nsecToSecretKey, Keys.getPublicKeyFromSecret. rewrite Hdec. cbn.
    destruct (getPublicKey sk) as [pk|e'] eqn:Hpk; cbn; [discriminate|].
    intros [= <-]. right. eauto.
  - destruct (Keys.isValidHexPubkey (JS.trim input)) eqn:Hhex; [discriminate|].
    intros [= <-]. left. auto.
Qed.

End KeysMore.

Definition lowerHexKey : string :=
  "0123456789abcdef0123456789abcdef0123456789abcdef0123456789abcdef".

(** A decoder that knows one npub and one nsec, and the key derivation
    that goes with it. *)
Definition exampleDecode (s : string) : result Keys.Exn Keys.Decoded :=
  if String.eqb s "npub1example" then Ok (Keys.DecNpub lowerHexKey)
  else if String.eqb s "nsec1example" then Ok (Keys.DecNsec [x01; x02])
  else Throw Keys.LibraryError.

Definition exampleGetPublicKey (sk : list byte) : result Keys.Exn string :=
  match sk with
  | [x01; x02] => Ok lowerHexKey
  | _ => Throw Keys.LibraryError
  end.

Lemma normalize_ignores_surrounding_space_witness :
  Keys.normalizeToPublicKey exampleDecode exampleGetPublicKey "  npub1example "
  = Keys.normalizeToPublicKey exampleDecode exampleGetPublicKey "npub1example".
Proof.
  exact (normalize_ignores_surrounding_space exampleDecode exampleGetPublicKey
           "  " "npub1example" " " eq_refl eq_refl).
Defined.

Lemma normalize_hex_canonical_witness :
  Keys.normalizeToPublicKey exampleDecode exampleGetPublicKey
      " 0123456789abcdef0123456789ABCDEF0123456789abcdef0123456789ABCDEF "
    = Ok {| Keys.pubkey := lowerHexKey; Keys.secretKey := None |}.
Proof.
  exact (proj1 (normalize_hex_canonical exampleDecode exampleGetPublicKey
     " 0123456789abcdef0123456789ABCDEF0123456789abcdef0123456789ABCDEF " eq_refl)).
Defined.

Lemma normalize_secret_key_origin_witness :
  exampleDecode "nsec1example" = Ok (Keys.DecNsec [x01; x02])
  /\ exampleGetPublicKey [x01; x02] = Ok lowerHexKey.
Proof.
  exact (proj2 (normalize_secret_key_origin exampleDecode exampleGetPublicKey
     " nsec1example"
     {| Keys.pubkey := lowerHexKey; Keys.secretKey := Some [x01; x02] |}
     [x01; x02] eq_refl eq_refl)).
Defined.

Lemma normalize_failures_witness :
  (Keys.InvalidKeyFormat = Keys.InvalidKeyFormat
   /\ Keys.isValidNpub exampleDecode (JS.trim "npub1other") = false
   /\ Keys.isValidNsec exampleDecode (JS.trim "npub1other") = false
   /\ Keys.isValidHexPubkey (JS.trim "npub1other") = false)
  \/ (exists sk, exampleDecode (JS.trim "npub1other") = Ok (Keys.DecNsec sk)
                 /\ exampleGetPublicKey sk = Throw Keys.InvalidKeyFormat).
Proof.
  exact (normalize_failures exampleDecode exampleGetPublicKey "npub1other"
           Keys.InvalidKeyFormat eq_refl).
Defined.

(** ** Route parameters *)

Section RouteFacts.

Variable nip19_decode : string -> result Keys.Exn Keys.Decoded.

(** X5. The route parameter gives a key and no error, or no key and one of
    the two messages of [normalizePubkeyParam] itself: the message of an
    error caught from [npubToPublicKey] is never shown, because the npub
    has just been decoded by the validity check. *)
Theorem normalizePubkeyParam_outcomes (input : option string) :
  (exists pk, App.normalizePubkeyParam nip19_decode input
              = {| App.pubkey := Some pk; App.error := None |})
  \/ App.normalizePubkeyParam nip19_decode input
     = {| App.pubkey := None; App.error := Some App.MissingPublicKey |}
  \/ App.normalizePubkeyParam nip19_decode input
     = {| App.pubkey := None; App.error := Some App.InvalidPublicKey |}.
Proof.
  unfold App.normalizePubkeyParam.
  destruct input as [[|c s]|]; [now right; left| |now right; left].
  destruct (Keys.isValidHexPubkey (String c s)); [left; eauto|].
  destruct (Keys.isValidNpub nip19_decode (String c s)) eqn:Hnpub; [|now right; right].
  destruct (isValidNpub_decoded _ _ Hnpub) as [_ [pk Hdec]].
  unfold Keys.npubToPublicKey. rewrite Hdec. left. cbn. eauto.
Qed.

(** X6. A parameter that begins with [nsec1] is rejected with the
    invalid-public-key message, whatever the decoder would make of it: the
    routes never take a secret key. *)
Theorem normalizePubkeyParam_rejects_nsec (input : string) :
  JS.startsWith input "nsec1" = true ->
  App.normalizePubkeyParam nip19_decode (Some input)
  = {| App.pubkey := None; App.error := Some App.InvalidPublicKey |}
  /\ App.FileListRoute nip19_decode (Some input)
     = App.InvalidPublicKeyView (Some App.InvalidPublicKey).
Proof.
  intros Hpre.
  assert (Hp : App.normalizePubkeyParam nip19_decode (Some input)
               = {| App.pubkey := None; App.error := Some App.InvalidPublicKey |}).
  { unfold App.normalizePubkeyParam.
    destruct input as [|c s]; [discriminate|].
    unfold JS.startsWith in Hpre. cbn [String.prefix] in Hpre.
    destruct (ascii_dec "n" c) as [<-|]; [|discriminate].
    destruct s as [|c2 s]; [discriminate|].
    cbn [String.prefix] in Hpre.
    destruct (ascii_dec "s" c2) as [<-|]; [|discriminate].
    assert (Hhex : Keys.isValidHexPubkey (String "n" (String "s" s)) = false) by reflexivity.
    assert (Hnpub : Keys.isValidNpub nip19_decode (String "n" (String "s" s)) = false)
      by reflexivity.
    now rewrite Hhex, Hnpub. }
  split; [exact Hp|]. unfold App.FileListRoute. now rewrite Hp.
Qed.

Variable getPublicKey : list byte -> result Keys.Exn string.

(** X7. On an input without white space around it, the route parameter is
    accepted with key [pk] exactly when [normalizeToPublicKey] returns [pk]
    with no secret key: the two functions test the hexadecimal form and
    the npub form in a different order and agree. *)
Theorem normalizePubkeyParam_agrees (input pk : string) :
  JS.trim input = input ->
  App.normalizePubkeyParam nip19_decode (Some input)
  = {| App.pubkey := Some pk; App.error := None |}
  <-> Keys.normalizeToPublicKey nip19_decode getPublicKey input
      = Ok {| Keys.pubkey := pk; Keys.secretKey := None |}.
Proof.
  intros Htrim. unfold Keys.normalizeToPublicKey, App.normalizePubkeyParam.
  rewrite Htrim.
  destruct input as [|c s].
  { cbn. split; discriminate. }
  destruct (Keys.isValidHexPubkey (String c s)) eqn:Hhex.
  - destruct (hex_not_bech32 nip19_decode 63 _ Hhex) as [-> ->].
    split; intros [= <-]; reflexivity.
  - destruct (Keys.isValidNpub nip19_decode (String c s)) eqn:Hnpub.
    + destruct (Keys.npubToPublicKey nip19_decode (String c s)); cbn;
        split; intros [= <-]; reflexivity.
    + destruct (Keys.isValidNsec nip19_decode (String c s)) eqn:Hnsec;
        [|split; discriminate].
      split; [discriminate|].
      destruct (Keys.nsecToSecretKey nip19_decode (String c s)) as [sk|]; cbn;
        [|discriminate].
      destruct (Keys.getPublicKeyFromSecret getPublicKey sk); cbn; discriminate.
Qed.

(** X8. The detail route shows a file exactly when the list route shows
    the list for the same parameter and the file hash is 64 hexadecimal
    digits; the key is the one of the list route and the hash is passed on
    as it was written, without lower-casing. *)
Theorem FileDetailRoute_shows_file (pubkeyParam fileHash : option string)
    (pk h : string) :
  App.FileDetailRoute nip19_decode pubkeyParam fileHash = App.FileDetailView pk h
  <-> App.FileListRoute nip19_decode pubkeyParam = App.FileListView pk
      /\ fileHash = Some h /\ Keys.matchHexExactly 64 h = true.
Proof.
  unfold App.FileDetailRoute, App.FileListRoute.
  destruct (App.rejected (App.normalizePubkeyParam nip19_decode pubkeyParam)).
  { split; [discriminate|intros [? _]; discriminate]. }
  destruct (App.pubkey (App.normalizePubkeyParam nip19_decode pubkeyParam)) as [pk'|].
  2:{ split; [discriminate|intros [? _]; discriminate]. }
  unfold App.invalidFileHash.
  destruct fileHash as [[|c s]|].
  - split; [discriminate|]. intros (_ & [= <-] & Hhex). discriminate.
  - destruct (Keys.matchHexExactly 64 (String c s)) eqn:Hhex; cbn [negb].
    + split; [intros [= <- <-]; auto|]. intros ([= <-] & [= <-] & _). reflexivity.
    + split; [discriminate|]. intros (_ & [= <-] & Hh). congruence.
  - split; [discriminate|]. intros (_ & [=] & _).
Qed.

End RouteFacts.

Lemma normalizePubkeyParam_rejects_nsec_witness :
  App.normalizePubkeyParam exampleDecode (Some "nsec1example")
  = {| App.pubkey := None; App.error := Some App.InvalidPublicKey |}.
Proof.
  exact (proj1 (normalizePubkeyParam_rejects_nsec exampleDecode "nsec1example" eq_refl)).
Defined.

Lemma FileDetailRoute_shows_file_witness :
  App.FileDetailRoute exampleDecode (Some "npub1example") (Some upperHexKey)
  = App.FileDetailView lowerHexKey upperHexKey.
Proof.
  apply (proj2 (FileDetailRoute_shows_file exampleDecode (Some "npub1example")
                  (Some upperHexKey) lowerHexKey upperHexKey)).
  split; [reflexivity|]. split; reflexivity.
Defined.

Lemma normalizePubkeyParam_agrees_witness :
  Keys.normalizeToPublicKey exampleDecode exampleGetPublicKey "npub1example"
  = Ok {| Keys.pubkey := lowerHexKey; Keys.secretKey := None |}.
Proof.
  exact (proj1 (normalizePubkeyParam_agrees exampleDecode exampleGetPublicKey
                  "npub1example" lowerHexKey eq_refl) eq_refl).
Defined.

(** ** Base64 helpers and decryption adapter, continued *)

Section CryptoMore.

Import Crypto.

Lemma codes_are_bytes (s : string) :
  Forall isByte (List.map JS.code (list_ascii_of_string s)).
Proof.
  apply List.Forall_forall. intros n [c [<- _]]%List.in_map_iff.
  unfold isByte, JS.code. apply N_ascii_bounded.
Qed.

(** The runtime's decoder gives back the binary string that was encoded. *)
Lemma atob_btoa (s : string) : atob (btoa s) = Some s.
Proof.
  unfold btoa. rewrite atob_encodeBytes by apply codes_are_bytes.
  rewrite List.map_map. f_equal.
  rewrite <- (string_of_list_ascii_of_string s) at 2. f_equal.
  rewrite <- (List.map_id (list_ascii_of_string s)) at 2.
  apply List.map_ext. intros c. unfold JS.code. apply ascii_N_embedding.
Qed.

Lemma bytes_of_binaryString (bytes : list byte) :
  List.map byte_of_ascii (list_ascii_of_string (binaryStringOf bytes)) = bytes.
Proof.
  unfold binaryStringOf. rewrite list_ascii_of_string_of_list_ascii, List.map_map.
  rewrite <- (List.map_id bytes) at 2. apply List.map_ext. intros b.
  apply byte_of_ascii_of_byte.
Qed.

(** X9. Two byte arrays with the same base64 encoding are the same
    array. *)
Theorem uint8ArrayToBase64_injective (bytes1 bytes2 : list byte) :
  uint8ArrayToBase64 bytes1 = uint8ArrayToBase64 bytes2 -> bytes1 = bytes2.
Proof.
  unfold uint8ArrayToBase64. intros H. apply (f_equal atob) in H.
  rewrite !atob_btoa in H. injection H as H.
  rewrite <- (bytes_of_binaryString bytes1), <- (bytes_of_binaryString bytes2).
  now rewrite H.
Qed.

Lemma encodeBytes_length (l : list N) :
  List.length (encodeBytes l) = (4 * ((List.length l + 2) / 3))%nat.
Proof.
  induction l as [|a|a b|a b c l IH] using list_ind3; try reflexivity.
  cbn [encodeBytes List.length]. rewrite IH.
  replace (S (S (S (List.length l))) + 2)%nat with (List.length l + 2 + 1 * 3)%nat by lia.
  rewrite Nat.div_add by lia. lia.
Qed.

Lemma length_string_of_list (l : list ascii) :
  String.length (string_of_list_ascii l) = List.length l.
Proof. induction l as [|c l IH]; [reflexivity|]. cbn. now rewrite IH. Qed.

Lemma encodeBytes_chars (l : list N) :
  Forall isByte l ->
  Forall (fun c => c = "="%char \/ exists n, b64index c = Some n) (encodeBytes l).
Proof.
  intros Hl. rewrite encodeBytes_split. apply Forall_app. split.
  - pose proof (sextets_bound l Hl) as Hss.
    induction Hss as [|n ss Hn _ IH]; [constructor|].
    cbn [List.map]. constructor; [|exact IH].
    right. exists n. now apply b64index_b64char.
  - destruct (padding_shape l) as [Hpad _].
    eapply Forall_impl; [exact Hpad|]. intros c ->. now left.
Qed.

(** X10. The encoding of n bytes has four characters for every started
    group of three bytes, each of them a character of the base64 alphabet or
    the padding sign. *)
Theorem uint8ArrayToBase64_shape (bytes : list byte) :
  String.length (uint8ArrayToBase64 bytes) = (4 * ((List.length bytes + 2) / 3))%nat
  /\ Forall (fun c => c = "="%char \/ exists n, b64index c = Some n)
       (list_ascii_of_string (uint8ArrayToBase64 bytes)).
Proof.
  unfold uint8ArrayToBase64, btoa, binaryStringOf. split.
  - rewrite length_string_of_list, encodeBytes_length.
    now rewrite list_ascii_of_string_of_list_ascii, !length_map.
  - rewrite list_ascii_of_string_of_list_ascii. apply encodeBytes_chars, codes_are_bytes.
Qed.

Variable ConversationKey : Type.
Variable getConversationKey : list byte -> string -> result Exn ConversationKey.
Variable nip44_decrypt : string -> ConversationKey -> result Exn string.

#[local] Abbreviation plaintextOf := (plaintextOf ConversationKey getConversationKey nip44_decrypt).
#[local] Abbreviation decryptChunk := (decryptChunk ConversationKey getConversationKey nip44_decrypt).
#[local] Abbreviation decryptChunkBinary :=
  (decryptChunkBinary ConversationKey getConversationKey nip44_decrypt).

(** X11. A chunk whose plaintext is the base64 encoding of a byte array
    decrypts, in binary mode, to that byte array. *)
Theorem decryptChunkBinary_of_encoded
    (ciphertext : string) (secretKey : list byte) (pubkey : string) (bytes : list byte) :
  plaintextOf ciphertext secretKey pubkey = Ok (uint8ArrayToBase64 bytes) ->
  decryptChunkBinary ciphertext secretKey pubkey = Ok bytes.
Proof.
  unfold Crypto.plaintextOf, Crypto.decryptChunkBinary. intros Hp.
  destruct (getConversationKey secretKey pubkey) as [key|e]; [|discriminate].
  cbn [rbind] in *. rewrite Hp. cbn [rbind].
  unfold base64ToUint8Array, uint8ArrayToBase64.
  now rewrite atob_btoa, bytes_of_binaryString.
Qed.

(** X12. The two decryption functions fail together when the key
    agreement or the decryption fails, with its error; apart from that
    decrypt-text never fails, and decrypt-binary fails exactly when the
    plaintext is not base64 text, with the decoder's error. *)
Theorem decrypt_failures (ciphertext : string) (secretKey : list byte) (pubkey : string) :
  (forall e, plaintextOf ciphertext secretKey pubkey = Throw e ->
     decryptChunk ciphertext secretKey pubkey = Throw e
     /\ decryptChunkBinary ciphertext secretKey pubkey = Throw e)
  /\ (forall p, plaintextOf ciphertext secretKey pubkey = Ok p ->
        decryptChunk ciphertext secretKey pubkey = Ok (TextEncoder_encode p)
        /\ (isBase64Text p ->
            exists bytes, decryptChunkBinary ciphertext secretKey pubkey = Ok bytes)
        /\ (~ isBase64Text p ->
            decryptChunkBinary ciphertext secretKey pubkey = Throw InvalidCharacterError)).
Proof.
  unfold Crypto.plaintextOf, Crypto.decryptChunk, Crypto.decryptChunkBinary.
  destruct (getConversationKey secretKey pubkey) as [key|e0]; cbn [rbind].
  - split.
    + intros e ->. now split.
    + intros p ->. cbn [rbind]. split; [reflexivity|].
      unfold isBase64Text, base64ToUint8Array.
      destruct (atob p) as [s|]; split; try congruence; eauto.
      intros H. now contradiction H.
  - split; [|discriminate]. intros e [= <-]. now split.
Qed.

End CryptoMore.

Lemma decryptChunkBinary_of_encoded_witness :
  Crypto.decryptChunkBinary unit plainKey plainDecrypt "SGkhAP8=" [] ""
  = Ok ["H"; "i"; "!"; x00; xff]%byte.
Proof.
  exact (decryptChunkBinary_of_encoded unit plainKey plainDecrypt "SGkhAP8=" [] ""
           ["H"; "i"; "!"; x00; xff]%byte eq_refl).
Defined.

Lemma uint8ArrayToBase64_injective_witness :
  ["H"; "i"]%byte = ["H"; "i"]%byte.
Proof.
  exact (uint8ArrayToBase64_injective ["H"; "i"]%byte ["H"; "i"]%byte eq_refl).
Defined.

Lemma decrypt_failures_witness :
  Crypto.decryptChunk unit plainKey plainDecrypt "chunk #1" [] ""
    = Ok (Crypto.TextEncoder_encode "chunk #1")
  /\ Crypto.decryptChunkBinary unit plainKey plainDecrypt "chunk #1" [] ""
     = Throw Crypto.InvalidCharacterError.
Proof.
  destruct (proj2 (decrypt_failures unit plainKey plainDecrypt "chunk #1" [] "")
              "chunk #1" eq_refl) as (Htext & _ & Hbinary).
  split; [exact Htext|]. apply Hbinary.
  intros H. apply H. vm_compute. reflexivity.
Defined.

(** ** Record resolver, continued *)

Section ResolverMore.

Import Nostr.

(** [reduce] keeps the later of two events and, of two events of the same
    time, the second. *)
Lemma fold_later_last l : forall x w,
  fold_left later l x = w ->
  (w = x /\ Forall (fun e => created_at e < created_at x)%Z l)
  \/ exists l1 l2, l = l1 ++ w :: l2
       /\ (created_at x <= created_at w)%Z
       /\ Forall (fun e => created_at e <= created_at w)%Z l1
       /\ Forall (fun e => created_at e < created_at w)%Z l2.
Proof.
  induction l as [|y l IH]; intros x w; cbn [fold_left].
  - intros <-. left. split; [reflexivity|constructor].
  - intros Hw. unfold later in Hw at 2.
    destruct (Z.gtb_spec (created_at x) (created_at y)) as [Hxy|Hxy];
      destruct (IH _ _ Hw) as [[-> Hall]|(l1 & l2 & -> & Hle & H1 & H2)].
    + left. split; [reflexivity|]. constructor; [lia|exact Hall].
    + right. exists (y :: l1), l2. repeat split; [exact Hle| |exact H2].
      constructor; [lia|exact H1].
    + right. exists [], l. repeat split; [exact Hxy|constructor|exact Hall].
    + right. exists (y :: l1), l2. repeat split; [lia| |exact H2].
      constructor; [exact Hle|exact H1].
Qed.

Lemma fold_later_bound l : forall x w,
  (created_at x <= created_at w)%Z ->
  Forall (fun e => created_at e <= created_at w)%Z l ->
  (created_at (fold_left later l x) <= created_at w)%Z.
Proof.
  induction l as [|y l IH]; intros x w Hx Hl; cbn [fold_left]; [exact Hx|].
  inversion_clear Hl as [|? ? Hy Hl']. apply IH; [|exact Hl'].
  unfold later. now destruct (_ >? _)%Z.
Qed.

Lemma fold_later_keep l : forall w,
  Forall (fun e => created_at e < created_at w)%Z l -> fold_left later l w = w.
Proof.
  induction l as [|y l IH]; intros w Hl; cbn [fold_left]; [reflexivity|].
  inversion_clear Hl as [|? ? Hy Hl']. unfold later at 2.
  destruct (Z.gtb_spec (created_at w) (created_at y)); [|lia]. now apply IH.
Qed.

(** X13. Of the events of a query the one decoded is the last of those
    with the greatest creation time: every event before it is at most as
    recent, every event after it is strictly older. *)
Theorem mostRecent_last_of_latest (events : list NostrEvent) (w : NostrEvent) :
  mostRecent events = Some w
  <-> exists l1 l2, events = l1 ++ w :: l2
        /\ Forall (fun e => created_at e <= created_at w)%Z l1
        /\ Forall (fun e => created_at e < created_at w)%Z l2.
Proof.
  split.
  - destruct events as [|x l]; [discriminate|]. intros [= Hw].
    destruct (fold_later_last _ _ _ Hw) as [[-> Hall]|(l1 & l2 & -> & Hle & H1 & H2)].
    + exists [], l. repeat split; [constructor|exact Hall].
    + exists (x :: l1), l2. repeat split; [|exact H2]. constructor; [exact Hle|exact H1].
  - intros (l1 & l2 & -> & H1 & H2). destruct l1 as [|x l1]; cbn.
    + now rewrite (fold_later_keep _ _ H2).
    + inversion_clear H1 as [|? ? Hx H1']. rewrite fold_left_app. cbn [fold_left].
      pose proof (fold_later_bound _ _ _ Hx H1') as Hb.
      unfold later at 2. destruct (Z.gtb_spec (created_at (fold_left later l1 x)) (created_at w));
        [lia|]. now rewrite (fold_later_keep _ _ H2).
Qed.

Variable D_TAGS : DTags.
Variable JSON_parse : string -> option JSON.
Variable querySync : nat -> list string -> Filter -> list NostrEvent.
Variable ToString : JSON -> string.
Variable StringToNumber : string -> JS.Number.

#[local] Abbreviation fetchFileIndex :=
  (fetchFileIndex D_TAGS JSON_parse querySync ToString StringToNumber).
#[local] Abbreviation getDTagForPage := (getDTagForPage D_TAGS ToString StringToNumber).
#[local] Abbreviation fetchCurrentIndex := (fetchCurrentIndex D_TAGS JSON_parse querySync).
#[local] Abbreviation fetchManifest := (fetchManifest JSON_parse querySync).

(** The payload of some event parses to [v], and the version of [v] is
    the number 2. *)
Definition acceptedPayload (v : JSON) : Prop :=
  getProp v "version" = Ok (Some (JNumber 2))
  /\ exists event, JSON_parse (ev_content event) = Some v.

Lemma isNot2_false version : isNot2 version = false -> version = Some (JNumber 2).
Proof.
  destruct version as [[| |n| | |]|]; try discriminate.
  destruct n as [|p|p]; try discriminate.
  destruct p as [p|p|]; try discriminate.
  destruct p as [p|p|]; try discriminate. reflexivity.
Qed.

Lemma decodeIndex_accepted event log v :
  fst (decodeIndex JSON_parse event log) = Ok (Some v) -> acceptedPayload v.
Proof.
  unfold Nostr.decodeIndex. destruct (JSON_parse (ev_content event)) as [index|] eqn:Hp;
    [|discriminate].
  unfold bind, lift. destruct (getProp index "version") as [version|e] eqn:Hv;
    [|discriminate].
  destruct (isNot2 version) eqn:H2; [discriminate|]. cbn. intros [= <-].
  split; [now rewrite Hv, (isNot2_false _ H2)|now exists event].
Qed.

Lemma decodeManifest_accepted event log v :
  fst (decodeManifest JSON_parse event log) = Ok (Some v) -> acceptedPayload v.
Proof.
  unfold Nostr.decodeManifest. destruct (JSON_parse (ev_content event)) as [m|] eqn:Hp;
    [|discriminate].
  unfold bind, lift. destruct (getProp m "version") as [version|e] eqn:Hv;
    [|discriminate].
  destruct (isNot2 version) eqn:H2; [discriminate|]. cbn. intros [= <-].
  split; [now rewrite Hv, (isNot2_false _ H2)|now exists event].
Qed.

Lemma resolveIndex_accepted events log v :
  fst (resolveIndex JSON_parse events log) = Ok (Some v) -> acceptedPayload v.
Proof.
  unfold Nostr.resolveIndex. destruct (mostRecent events) as [event|]; [|discriminate].
  apply decodeIndex_accepted.
Qed.

Lemma resolveIndex_same_log events log :
  snd (resolveIndex JSON_parse events log) = log.
Proof.
  unfold Nostr.resolveIndex, Nostr.decodeIndex.
  destruct (mostRecent events) as [event|]; [|reflexivity].
  destruct (JSON_parse _) as [v|]; [|reflexivity].
  unfold bind, lift. destruct (getProp v "version") as [ver|e]; [|reflexivity].
  now destruct (isNot2 ver).
Qed.

(** X14. What fetch-index and fetch-manifest return, when they return a
    record, is the parsed payload of an event, and its version is the
    number 2: a record of another version never comes out of them. *)
Theorem resolver_returns_version_2
    (relays : list string) (pubkey fileHash : string) (page : Z) (log : QueryLog) :
  (forall index, fst (fetchFileIndex relays pubkey page log) = Ok (Some index) ->
                 acceptedPayload index)
  /\ (forall manifest, fst (fetchManifest relays pubkey fileHash log) = Ok (Some manifest) ->
                       acceptedPayload manifest).
Proof.
  split.
  - intros index. unfold Nostr.fetchFileIndex.
    assert (Hcur : forall l v, fst (fetchCurrentIndex relays pubkey l) = Ok (Some v) ->
                               acceptedPayload v).
    { intros l v. unfold Nostr.fetchCurrentIndex, bind at 1, query.
      apply resolveIndex_accepted. }
    destruct (page =? 1)%Z; [apply Hcur|].
    unfold bind at 1.
    destruct (fetchCurrentIndex relays pubkey log) as [[[cur|]|e] log'];
      [|discriminate|discriminate].
    unfold bind, query. apply resolveIndex_accepted.
  - intros manifest. unfold Nostr.fetchManifest, bind at 1.
    destruct (queryUntilNonEmpty querySync relays _ [] log) as [[events|e] log'];
      [|discriminate].
    unfold Nostr.resolveManifest. destruct (mostRecent events) as [event|]; [|discriminate].
    apply decodeManifest_accepted.
Qed.

(** X15. fetch-index issues the current-index query first, whatever the
    page; for a page other than 1 it issues one more query, for the archive
    tag that [getDTagForPage] computes from the total_archives of the
    current index, exactly when the current index was found, and without a
    current index the page is nothing-found.  That tag is the archive tag
    of NaN when the current index has no total_archives, and of the integer
    T + 2 - page when total_archives is a number T and T, the page, the sum
    T + 2 and the difference are at most 2^53 in absolute value. *)
Theorem fetchFileIndex_queries
    (relays : list string) (pubkey : string) (page : Z) (log : QueryLog) :
  snd (fetchFileIndex relays pubkey page log)
  = log ++ (relays, indexFilter pubkey (CURRENT_INDEX D_TAGS))
        :: (if (page =? 1)%Z then []
            else match fst (fetchCurrentIndex relays pubkey log) with
                 | Ok (Some currentIndex) =>
                     [(relays, indexFilter pubkey
                                 (getDTagForPage page (total_archives currentIndex)))]
                 | _ => []
                 end)
  /\ (fst (fetchCurrentIndex relays pubkey log) = Ok None ->
      fst (fetchFileIndex relays pubkey page log) = Ok None)
  /\ (forall currentIndex,
        page <> 1%Z -> total_archives currentIndex = None ->
        getDTagForPage page (total_archives currentIndex) = archiveTag D_TAGS JS.NaN)
  /\ (forall currentIndex T,
        page <> 1%Z -> total_archives currentIndex = Some (JNumber T) ->
        isSafe T -> isSafe page -> isSafe (T + 2) -> isSafe (T + 2 - page) ->
        getDTagForPage page (total_archives currentIndex)
        = archiveTag D_TAGS (Some (JS.Int (T + 2 - page)))).
Proof.
  assert (Hcur : snd (fetchCurrentIndex relays pubkey log)
                 = log ++ [(relays, indexFilter pubkey (CURRENT_INDEX D_TAGS))]).
  { unfold Nostr.fetchCurrentIndex, bind at 1, query. apply resolveIndex_same_log. }
  assert (Htag : forall v, page <> 1%Z ->
            getDTagForPage page v
            = archiveTag D_TAGS (archiveNumber ToString StringToNumber page v)).
  { intros v Hpage. unfold Nostr.getDTagForPage.
    now destruct (Z.eqb_spec page 1). }
  split; [|split; [|split]].
  - unfold Nostr.fetchFileIndex. destruct (page =? 1)%Z; [exact Hcur|].
    unfold bind at 1.
    destruct (fetchCurrentIndex relays pubkey log) as [[[cur|]|e] log'];
      cbn [fst snd] in *; subst log'; [|reflexivity|reflexivity].
    unfold bind, query. rewrite resolveIndex_same_log, <- app_assoc. reflexivity.
  - unfold Nostr.fetchFileIndex. destruct (page =? 1)%Z; [easy|].
    unfold bind at 1.
    destruct (fetchCurrentIndex relays pubkey log) as [[[cur|]|e] log'];
      cbn [fst]; [discriminate|reflexivity|discriminate].
  - intros currentIndex Hpage ->. now rewrite (Htag _ Hpage).
  - intros currentIndex T Hpage -> HT HN Hsum Hdiff. rewrite (Htag _ Hpage).
    now rewrite (archiveNumber_exact ToString StringToNumber page T HT HN Hsum Hdiff).
Qed.

End ResolverMore.

Lemma mostRecent_last_of_latest_witness :
  Nostr.mostRecent [exampleEvent "a" 20 "v1"; exampleEvent "b" 20 "v2";
                    exampleEvent "c" 10 "v2"]
  = Some (exampleEvent "b" 20 "v2").
Proof.
  apply (proj2 (mostRecent_last_of_latest _ _)).
  exists [exampleEvent "a" 20 "v1"], [exampleEvent "c" 10 "v2"].
  split; [reflexivity|]. split; repeat constructor; cbn; lia.
Defined.

Lemma resolver_returns_version_2_witness :
  acceptedPayload exampleParse
    (Nostr.JObject [("version", Nostr.JNumber 2); ("total_archives", Nostr.JNumber 5)]).
Proof.
  exact (proj1 (resolver_returns_version_2 exampleTags exampleParse (exampleQuery "v2")
                  exampleToString exampleToNumber
                  ["wss://relay"] "pk" "hash" 1 []) _ eq_refl).
Defined.

Lemma fetchFileIndex_queries_witness :
  snd (Nostr.fetchFileIndex exampleTags exampleParse archiveQuery
         exampleToString exampleToNumber ["wss://relay"] "pk" 4 [])
  = [(["wss://relay"], Nostr.indexFilter "pk" "nostrsave-index");
     (["wss://relay"], Nostr.indexFilter "pk" "nostrsave-index-archive-3")]
  /\ fst (Nostr.fetchFileIndex exampleTags exampleParse (fun _ _ _ => [])
            exampleToString exampleToNumber ["wss://relay"] "pk" 4 [])
     = Ok None
  /\ Nostr.getDTagForPage exampleTags exampleToString exampleToNumber 4
       (Nostr.total_archives (Nostr.JObject [("version", Nostr.JNumber 2)]))
     = "nostrsave-index-archive-NaN"
  /\ Nostr.getDTagForPage exampleTags exampleToString exampleToNumber 4
       (Nostr.total_archives
          (Nostr.JObject [("version", Nostr.JNumber 2);
                          ("total_archives", Nostr.JNumber 5)]))
     = "nostrsave-index-archive-3".
Proof.
  destruct (fetchFileIndex_queries exampleTags exampleParse archiveQuery
              exampleToString exampleToNumber ["wss://relay"] "pk" 4 [])
    as (Hlog & _ & Hnan & Hexact).
  split; [exact Hlog|]. split; [|split].
  - exact (proj1 (proj2 (fetchFileIndex_queries exampleTags exampleParse
                           (fun _ _ _ => []) exampleToString exampleToNumber
                           ["wss://relay"] "pk" 4 [])) eq_refl).
  - apply (Hnan (Nostr.JObject [("version", Nostr.JNumber 2)]));
      [discriminate|reflexivity].
  - apply (Hexact (Nostr.JObject [("version", Nostr.JNumber 2);
                                  ("total_archives", Nostr.JNumber 5)]) 5%Z);
      [discriminate|reflexivity|unfold isSafe; cbn; lia..].
Defined.

(** ** Chunk retrieval engine, continued *)

(** The decimal numeral of a natural number, as the runtime prints it. *)
Definition decimal (n : N) : string := NilZero.string_of_uint (N.to_uint n).

Section ChunkParsing.

Import Nostr.

Lemma digitsValue_acc d : forall acc : positive,
  JS.digitsValue (Z.pos acc) (NilEmpty.string_of_uint d) = Z.pos (Pos.of_uint_acc d acc).
Proof.
  induction d as [|d IH|d IH|d IH|d IH|d IH|d IH|d IH|d IH|d IH|d IH]; intros acc;
    [reflexivity|..];
    cbn [NilEmpty.string_of_uint JS.digitsValue Pos.of_uint_acc];
    change (JS.isDigit _) with true; cbv iota;
    rewrite <- IH; f_equal; cbn; lia.
Qed.

Lemma digitsValue_of_uint d :
  JS.digitsValue 0 (NilEmpty.string_of_uint d) = Z.of_N (N.of_uint d).
Proof.
  unfold N.of_uint.
  induction d as [|d IH|d IH|d IH|d IH|d IH|d IH|d IH|d IH|d IH|d IH];
    [reflexivity|exact IH|..];
    cbn [NilEmpty.string_of_uint JS.digitsValue Pos.of_uint];
    change (JS.isDigit _) with true; cbv iota;
    match goal with
    | |- JS.digitsValue ?z _ = Z.of_N (N.pos (Pos.of_uint_acc _ ?p)) =>
        change z with (Z.pos p)
    end; apply digitsValue_acc.
Qed.

Lemma decimal_digits d :
  JS.all_chars JS.isDigit (NilEmpty.string_of_uint d) = true.
Proof.
  induction d as [|d IH|d IH|d IH|d IH|d IH|d IH|d IH|d IH|d IH|d IH];
    [reflexivity|..]; cbn [NilEmpty.string_of_uint JS.all_chars]; now rewrite IH.
Qed.

Lemma digit_facts c :
  JS.isDigit c = true ->
  JS.isWhiteSpace c = false /\ c <> "-"%char /\ c <> "+"%char
  /\ negb (Ascii.eqb c ":") = true.
Proof.
  destruct c as [[] [] [] [] [] [] [] []]; vm_compute; intros H;
    try discriminate H; repeat split; discriminate.
Qed.

(** The numeral is not empty and is made of digits. *)
Lemma decimal_shape n :
  exists c s, decimal n = String c s /\ JS.all_chars JS.isDigit (String c s) = true.
Proof.
  assert (Hall : JS.all_chars JS.isDigit (decimal n) = true).
  { unfold decimal. destruct (N.to_uint n) as [|d|d|d|d|d|d|d|d|d|d]; [reflexivity|..];
      match goal with |- JS.all_chars _ (NilZero.string_of_uint ?x) = _ =>
        exact (decimal_digits x) end. }
  assert (Hne : decimal n <> "").
  { unfold decimal. destruct (N.to_uint n); discriminate. }
  destruct (decimal n) as [|c s]; [contradiction|]. now exists c, s.
Qed.

Lemma parseInt10_decimal n :
  JS.parseInt10 (decimal n) = Some (JS.roundDouble (Z.of_N n)).
Proof.
  destruct (decimal_shape n) as (c & s & Hn & Hall).
  assert (Hv : JS.digitsValue 0 (decimal n) = Z.of_N n).
  { unfold decimal. rewrite <- (DecimalN.Unsigned.of_to n) at 2.
    destruct (N.to_uint n); [reflexivity|..]; apply digitsValue_of_uint. }
  rewrite Hn in Hv |- *. cbn [JS.all_chars] in Hall.
  apply andb_true_iff in Hall as [Hc _].
  destruct (digit_facts c Hc) as (Hsp & Hm & Hp & _).
  unfold JS.parseInt10. cbn [JS.trimStart]. rewrite Hsp.
  assert (Hparse : JS.parseDigits (String c s) = Some (Z.of_N n)).
  { unfold JS.parseDigits. now rewrite Hc, Hv. }
  destruct c as [[] [] [] [] [] [] [] []];
    try (now rewrite Hparse); congruence.
Qed.

Lemma decimal_no_colon n :
  JS.all_chars (fun c => negb (Ascii.eqb c ":")) (decimal n) = true.
Proof.
  destruct (decimal_shape n) as (c & s & -> & Hall).
  revert Hall. generalize (String c s). intros t.
  induction t as [|x t IH]; cbn [JS.all_chars]; [easy|].
  intros [Hx Ht]%andb_true_iff.
  destruct (digit_facts x Hx) as (_ & _ & _ & ->). now apply IH.
Qed.

(** X16. A record whose chunk tag holds the decimal numeral of a natural
    number n of at most twenty digits has as its index the double nearest
    to n, whatever its other tags are, and so has a record without a chunk
    tag whose d tag ends, after its last colon, in the numeral of n,
    whatever stands before that colon.  Up to 2^53 that index is n
    itself. *)
Theorem parseChunkIndexFromTags_numeral (n : N) :
  forall tags t rest,
    findTag "chunk" tags = Some ("chunk" :: decimal n :: rest) \/
    (findTag "chunk" tags = None
     /\ findTag "d" tags = Some ("d" :: t :: rest)
     /\ exists prefix, t = prefix +:+ ":" +:+ decimal n) ->
    ((n < 10 ^ 20)%N ->
     parseChunkIndexFromTags tags = Some (JS.roundDouble (Z.of_N n)))
    /\ ((n <= 9007199254740992)%N ->
        parseChunkIndexFromTags tags = Some (JS.Int (Z.of_N n))).
Proof.
  intros tags t rest H.
  assert (Hparse : parseChunkIndexFromTags tags = Some (JS.roundDouble (Z.of_N n))).
  { unfold parseChunkIndexFromTags.
    destruct (decimal_shape n) as (c & s & Hn & _).
    destruct H as [Hchunk|(Hchunk & Hd & prefix & ->)]; rewrite Hchunk.
    - unfold truthyValue. cbn [nth_error]. rewrite Hn, <- Hn.
      now rewrite parseInt10_decimal.
    - rewrite Hd. unfold truthyValue. cbn [nth_error].
      assert (Hne : exists c' s', prefix +:+ ":" +:+ decimal n = String c' s').
      { destruct prefix as [|c' p']; [now eexists _, _|].
        change (String c' p' +:+ ":" +:+ decimal n)
          with (String c' (p' +:+ ":" +:+ decimal n)). now eexists _, _. }
      destruct Hne as (c' & s' & Hne). rewrite Hne, <- Hne.
      rewrite (last_split_suffix _ _ (decimal_no_colon n)). apply parseInt10_decimal. }
  split; [intros _; exact Hparse|]. intros Hn. rewrite Hparse. f_equal.
  apply roundDouble_safe. unfold isSafe. lia.
Qed.

End ChunkParsing.

Lemma parseChunkIndexFromTags_numeral_witness :
  Nostr.parseChunkIndexFromTags [["x"; "hash"]; ["d"; "a:b:12"; "extra"]]
  = Some (JS.Int 12)
  /\ Nostr.parseChunkIndexFromTags [["chunk"; "9007199254740993"]]
     = Some (JS.Int 9007199254740992).
Proof.
  split.
  - apply (parseChunkIndexFromTags_numeral 12 [["x"; "hash"]; ["d"; "a:b:12"; "extra"]]
             "a:b:12" ["extra"]); [|vm_compute; discriminate].
    right. split; [reflexivity|]. split; [reflexivity|]. now exists "a:b".
  - apply (parseChunkIndexFromTags_numeral 9007199254740993
             [["chunk"; "9007199254740993"]] "" []); [|reflexivity].
    left. reflexivity.
Defined.

Section HandleEventFacts.

Import Nostr.

(** X17. After a record has been handled its identifier is among the
    seen ones, none is forgotten, and any record with that identifier that
    is handled later changes nothing: not the map of the retrieval, not the
    cache, and the progress callback is not called. *)
Theorem handleEvent_once (r : nat) (a : FetchArgs) (event : NostrEvent)
    (c : Closure) (cache : gmap string ChunkCacheEntry) (progress : Progress) :
  let c1 := (handleEvent r a event c cache progress).1.1 in
  let cache1 := (handleEvent r a event c cache progress).1.2 in
  let progress1 := (handleEvent r a event c cache progress).2 in
  id event ∈ seenEventIds c1
  /\ seenEventIds c ⊆ seenEventIds c1
  /\ forall r' a' event', id event' = id event ->
       handleEvent r' a' event' c1 cache1 progress1 = (c1, cache1, progress1).
Proof.
  assert (Hagain : forall r' a' event' c1 cache1 progress1,
             id event' ∈ seenEventIds c1 ->
             handleEvent r' a' event' c1 cache1 progress1 = (c1, cache1, progress1)).
  { intros r' a' event' c1 cache1 progress1 Hin. unfold handleEvent.
    now rewrite (bool_decide_eq_true_2 _ Hin). }
  assert (Hseen : id event ∈ seenEventIds (handleEvent r a event c cache progress).1.1
                  /\ seenEventIds c ⊆ seenEventIds (handleEvent r a event c cache progress).1.1).
  { unfold handleEvent. destruct (bool_decide (id event ∈ seenEventIds c)) eqn:Hb.
    - apply bool_decide_eq_true in Hb. cbn. split; [exact Hb|reflexivity].
    - cbn [chunks seenEventIds indexByEventId].
      destruct (match parseChunkIndexFromTags (tags event) with
                | Some i => Some i
                | None => JS.Int <$> mapGet (id event) (indexByEventId c)
                end) as [i|]; [destruct (chunks c !! i)|]; cbn; split; set_solver. }
  cbv zeta. destruct Hseen as [Hin Hsub]. split; [exact Hin|]. split; [exact Hsub|].
  intros r' a' event' Heq. apply Hagain. now rewrite Heq.
Qed.

(** X18. Handling a record either leaves the map of the retrieval and the
    progress reports as they are, or adds one index to the map, keeping
    every chunk it held, and then the progress callback, when there is
    one, is called once, with the new number of chunks. *)
Theorem handleEvent_progress (r : nat) (a : FetchArgs) (event : NostrEvent)
    (c : Closure) (cache : gmap string ChunkCacheEntry) (progress : Progress) :
  let c1 := (handleEvent r a event c cache progress).1.1 in
  let progress1 := (handleEvent r a event c cache progress).2 in
  indexByEventId c1 = indexByEventId c
  /\ ((chunks c1 = chunks c /\ progress1 = progress)
      \/ (chunks c ⊆ chunks c1
          /\ size (chunks c1) = S (size (chunks c))
          /\ progress1 = if onProgress a
                         then progress ++ [(r, Z.of_nat (S (size (chunks c))), totalChunks a)]
                         else progress)).
Proof.
  unfold handleEvent. destruct (bool_decide (id event ∈ seenEventIds c));
    [cbn; auto|].
  cbn [chunks seenEventIds indexByEventId].
  destruct (match parseChunkIndexFromTags (tags event) with
            | Some i => Some i
            | None => JS.Int <$> mapGet (id event) (indexByEventId c)
            end) as [i|]; [|cbn; auto].
  destruct (chunks c !! i) eqn:Hi; [cbn; auto|].
  cbn. split; [reflexivity|]. right. split; [now apply insert_subseteq|].
  assert (Hsize : size (<[i := {| index := i; content := ev_content event;
                                  encryption := encryptionOfTags (tags event) |}]>
                          (chunks c)) = S (size (chunks c))).
  { now apply map_size_insert_None. }
  split; [exact Hsize|]. unfold sizeZ. now rewrite Hsize.
Qed.

(** *** The index of the manifest's identifiers *)

Lemma mapGet_mapSet_eq k v m : mapGet k (mapSet k v m) = Some v.
Proof.
  induction m as [|[k' v'] m IH]; cbn; [now rewrite String.eqb_refl|].
  destruct (String.eqb k k') eqn:Hk; cbn; [now rewrite String.eqb_refl|].
  now rewrite Hk.
Qed.

Lemma mapGet_mapSet_ne k k' v m : k <> k' -> mapGet k' (mapSet k v m) = mapGet k' m.
Proof.
  intros Hne. induction m as [|[k0 v0] m IH]; cbn.
  - destruct (String.eqb_spec k' k); [congruence|reflexivity].
  - destruct (String.eqb_spec k k0) as [<-|Hk0]; cbn.
    + destruct (String.eqb_spec k' k); [congruence|reflexivity].
    + now rewrite IH.
Qed.

Lemma mapSet_keys k v m x : In x (mapSet k v m).*1 <-> x = k \/ In x m.*1.
Proof.
  induction m as [|[k0 v0] m IH]; cbn; [intuition congruence|].
  destruct (String.eqb_spec k k0) as [<-|Hk0]; cbn; [intuition congruence|].
  rewrite IH. intuition congruence.
Qed.

Lemma mapSet_NoDup k v m : List.NoDup m.*1 -> List.NoDup (mapSet k v m).*1.
Proof.
  induction m as [|[k0 v0] m IH]; cbn; intros Hnd.
  - constructor; [easy|constructor].
  - inversion_clear Hnd as [|? ? Hk0 Hm].
    destruct (String.eqb_spec k k0) as [<-|Hne]; cbn.
    + now constructor.
    + constructor; [|now apply IH]. rewrite mapSet_keys. intros [->|H]; congruence.
Qed.

(** One turn of the loop of lines 398-400. *)
Definition addInfo (m : list (string * Z)) (info : ChunkInfo) : list (string * Z) :=
  match event_id info with
  | Some EmptyString | None => m
  | Some eid => mapSet eid (ci_index info) m
  end.

(** The entry of the manifest that decides the index of an identifier:
    the last one that carries it. *)
Definition lastInfoFor (eid : string) (infos : list ChunkInfo) : option ChunkInfo :=
  List.find (fun info => bool_decide (event_id info = Some eid)) (rev infos).

Lemma buildIndexByEventId_snoc infos info :
  buildIndexByEventId (Some (infos ++ [info]))
  = addInfo (buildIndexByEventId (Some infos)) info.
Proof. unfold buildIndexByEventId. now rewrite fold_left_app. Qed.

(** X19. The index built from the manifest lists every identifier once,
    never the empty identifier, and gives for an identifier the index of
    the last chunk_info that carries it; chunk_infos without an identifier
    are skipped. *)
Theorem buildIndexByEventId_last (infos : list ChunkInfo) :
  let m := buildIndexByEventId (Some infos) in
  List.NoDup m.*1
  /\ mapGet "" m = None
  /\ forall eid, eid <> "" -> mapGet eid m = ci_index <$> lastInfoFor eid infos.
Proof.
  cbv zeta. induction infos as [|info infos (IHnd & IHe & IHget)] using rev_ind.
  - cbn. split; [constructor|]. split; [reflexivity|]. intros eid _. reflexivity.
  - rewrite buildIndexByEventId_snoc. unfold lastInfoFor. rewrite rev_app_distr.
    cbn [rev app List.find]. unfold addInfo.
    destruct (event_id info) as [[|ch eid']|] eqn:Hid.
    + split; [exact IHnd|]. split; [exact IHe|]. intros eid Hne.
      rewrite bool_decide_eq_false_2 by congruence. now apply IHget.
    + split; [now apply mapSet_NoDup|]. split.
      * now rewrite mapGet_mapSet_ne.
      * intros eid Hne. destruct (decide (String ch eid' = eid)) as [<-|Hd].
        -- rewrite bool_decide_eq_true_2 by reflexivity. apply mapGet_mapSet_eq.
        -- rewrite bool_decide_eq_false_2 by congruence.
           rewrite mapGet_mapSet_ne by exact Hd. now apply IHget.
    + split; [exact IHnd|]. split; [exact IHe|]. intros eid Hne.
      rewrite bool_decide_eq_false_2 by congruence. now apply IHget.
Qed.

End HandleEventFacts.

Lemma buildIndexByEventId_last_witness :
  Nostr.mapGet "e1"
    (Nostr.buildIndexByEventId
       (Some [{| Nostr.ci_index := 0; Nostr.event_id := Some "e1" |};
              {| Nostr.ci_index := 1; Nostr.event_id := None |};
              {| Nostr.ci_index := 2; Nostr.event_id := Some "e1" |}]))
  = Some 2%Z.
Proof.
  refine (proj2 (proj2 (buildIndexByEventId_last _)) "e1" _). discriminate.
Defined.

Lemma handleEvent_once_witness :
  Nostr.handleEvent 1 (exampleArgs 8 None) (chunkRecord "e2" [["chunk"; "6"]])
    (Nostr.handleEvent 0 (exampleArgs 8 None)
       (chunkRecord "e2" [["chunk"; "5"]]) (freshClosure None) ∅ []).1.1
    (Nostr.handleEvent 0 (exampleArgs 8 None)
       (chunkRecord "e2" [["chunk"; "5"]]) (freshClosure None) ∅ []).1.2
    (Nostr.handleEvent 0 (exampleArgs 8 None)
       (chunkRecord "e2" [["chunk"; "5"]]) (freshClosure None) ∅ []).2
  = Nostr.handleEvent 0 (exampleArgs 8 None)
      (chunkRecord "e2" [["chunk"; "5"]]) (freshClosure None) ∅ [].
Proof.
  rewrite (proj2 (proj2 (handleEvent_once 0 (exampleArgs 8 None)
                           (chunkRecord "e2" [["chunk"; "5"]]) (freshClosure None) ∅ []))
             1%nat (exampleArgs 8 None) (chunkRecord "e2" [["chunk"; "6"]]) eq_refl).
  now destruct (Nostr.handleEvent 0 (exampleArgs 8 None)
                  (chunkRecord "e2" [["chunk"; "5"]]) (freshClosure None) ∅ []) as [[? ?] ?].
Defined.

(** ** The retrieval engine in every reachable state *)

Section EngineInvariants.

Import Nostr.

(** Every chunk of a map sits at its own index. *)
Definition keyed (m : gmap JS.Num ChunkEvent) : Prop :=
  map_Forall (fun i chunk => index chunk = i) m.

(** Strictly ascending by index. *)
Definition ascending (l : list ChunkEvent) : Prop :=
  StronglySorted (fun x y => JS.lt (index x) (index y)) l.

#[local] Instance byIndex_transitive : Transitive byIndex.
Proof.
  intros x y z. unfold byIndex.
  destruct (index x) as [[]|], (index y) as [[]|], (index z) as [[]|];
    cbn; try tauto; lia.
Qed.

#[local] Instance byIndex_is_total : Total byIndex.
Proof.
  intros x y. unfold byIndex.
  destruct (index x) as [[]|], (index y) as [[]|]; cbn; try tauto; lia.
Qed.

Lemma strictly_ascending l :
  StronglySorted byIndex l -> NoDup (index <$> l) -> ascending l.
Proof.
  induction 1 as [|x l Hl IH Hx]; intros Hnd; [constructor|].
  rewrite fmap_cons in Hnd. apply NoDup_cons in Hnd as [Hnot Hnd].
  constructor; [now apply IH|].
  apply List.Forall_forall. intros y Hy.
  pose proof (proj1 (List.Forall_forall _ _) Hx y Hy) as Hle. unfold byIndex in Hle.
  split; [exact Hle|].
  intros Heq. symmetry in Heq. apply Hnot. rewrite <- Heq. apply list_elem_of_fmap.
  exists y. split; [reflexivity|]. now apply list_elem_of_In.
Qed.

Lemma keyed_indices m : keyed m -> index <$> (map_to_list m).*2 = (map_to_list m).*1.
Proof.
  intros Hm. rewrite <- list_fmap_compose. apply list_fmap_ext.
  intros n [i chunk] Hlook. cbn.
  apply (Hm i chunk), elem_of_map_to_list, (list_elem_of_lookup_2 _ n), Hlook.
Qed.

Lemma sortedChunks_ascending m : keyed m -> ascending (sortedChunks m).
Proof.
  intros Hm. apply strictly_ascending.
  - apply StronglySorted_merge_sort; apply _.
  - unfold sortedChunks. rewrite merge_sort_Permutation, (keyed_indices m Hm).
    apply NoDup_fst_map_to_list.
Qed.

(** *** How a step changes the cache *)

Inductive CacheStep (cache cache' : gmap string ChunkCacheEntry) : Prop :=
| CS_same : cache' = cache -> CacheStep cache cache'
| CS_handle key h :          (* lines 481-485 and 491-492 *)
    cache' = <[key := {| chunksByIndex := chunksOf (cache !! key); inFlight := h |}]> cache ->
    CacheStep cache cache'
| CS_chunk key e i chunk :   (* line 428 *)
    cache !! key = Some e -> index chunk = i ->
    cache' = <[key := withChunks i chunk e]> cache -> CacheStep cache cache'.

Lemma handleEvent_cases r a event c cache pr :
  let c' := (handleEvent r a event c cache pr).1.1 in
  let cache' := (handleEvent r a event c cache pr).1.2 in
  (chunks c' = chunks c /\ cache' = cache)
  \/ exists i chunk,
       index chunk = i /\ chunks c !! i = None
       /\ chunks c' = <[i := chunk]> (chunks c)
       /\ cache' = match cache !! cacheKey a with
                   | Some e => <[cacheKey a := withChunks i chunk e]> cache
                   | None => cache
                   end.
Proof.
  unfold handleEvent. destruct (bool_decide _); [now left|].
  cbn [chunks seenEventIds indexByEventId].
  destruct (match parseChunkIndexFromTags (tags event) with
            | Some i => Some i
            | None => JS.Int <$> mapGet (id event) (indexByEventId c)
            end) as [i|]; [|now left].
  destruct (chunks c !! i) eqn:Hi; [now left|]. right.
  exists i, {| index := i; content := ev_content event;
               encryption := encryptionOfTags (tags event) |}.
  split; [reflexivity|]. split; [exact Hi|]. split; reflexivity.
Qed.

Lemma cacheStep_startFetch r a place st :
  CacheStep (chunkCache st) (chunkCache (startFetch r a place st)).
Proof.
  destruct (startFetch_spec r a place st) as (s & _ & _ & Hcache).
  now apply (CS_handle _ _ (cacheKey a) (Some r)).
Qed.

Lemma cacheStep_fetchChunks a st : CacheStep (chunkCache st) (chunkCache (fetchChunks a st)).
Proof.
  unfold fetchChunks.
  destruct (chunkCache st !! cacheKey a) as [cached|]; [|apply cacheStep_startFetch].
  destruct (_ =? _)%Z; [now apply CS_same|].
  destruct (inFlight cached) as [p|]; [|apply cacheStep_startFetch].
  destruct (promiseSettled _ _); now apply CS_same.
Qed.

Lemma cacheStep_onevent r event st st' :
  onevent r event st = Some st' -> CacheStep (chunkCache st) (chunkCache st').
Proof.
  unfold onevent.
  destruct (requests st !! r) as [[a s0]|]; [|discriminate].
  destruct s0 as [| c ph | | | | |]; try discriminate.
  pose proof (handleEvent_cases r a event c (chunkCache st) (progress st)) as Hshape.
  destruct (handleEvent r a event c (chunkCache st) (progress st))
    as [[c' cache'] progress']. cbn [fst snd] in Hshape.
  intros Hst'.
  assert (Hcache : chunkCache st' = cache').
  { destruct (_ <=? _)%Z; now injection Hst' as <-. }
  rewrite Hcache.
  destruct Hshape as [[_ ->]|(i & chunk & Hi & _ & _ & ->)]; [now apply CS_same|].
  destruct (chunkCache st !! cacheKey a) as [e|] eqn:He; [|now apply CS_same].
  now apply (CS_chunk _ _ (cacheKey a) e i chunk).
Qed.

Lemma cacheStep_runMicrotask st st' :
  runMicrotask st = Some st' -> CacheStep (chunkCache st) (chunkCache st').
Proof.
  unfold runMicrotask. destruct (microtasks st) as [|t rest]; [discriminate|].
  destruct t as [r|r|r]; cbn [requests];
    destruct (requests st !! r) as [[a s0]|]; try discriminate.
  - destruct s0 as [| | c ph | | | |]; try discriminate. intros [= <-].
    unfold resumeBlock. destruct (blockResume a c ph). now apply CS_same.
  - destruct s0 as [| | | res | | |]; try discriminate. intros [= <-].
    unfold resumeOwner. cbn [chunkCache].
    destruct (chunkCache st !! cacheKey a) as [e|] eqn:He; [|now apply CS_same].
    apply (CS_handle _ _ (cacheKey a) None). now rewrite He.
  - destruct s0 as [p| | | | | |]; try discriminate.
    destruct (promiseSettled _ p); [|discriminate]. intros [= <-].
    unfold resumeWaiter. cbn [chunkCache].
    set (st0 := {| chunkCache := chunkCache st; requests := requests st;
                   microtasks := rest; subscriptions := subscriptions st;
                   progress := progress st |}).
    change (chunkCache st) with (chunkCache st0).
    destruct (chunkCache st0 !! cacheKey a) as [ready|]; [|apply cacheStep_startFetch].
    destruct (_ =? _)%Z; [now apply CS_same|apply cacheStep_startFetch].
Qed.

Lemma cacheStep_step st i st' :
  step st i = Some st' -> CacheStep (chunkCache st) (chunkCache st').
Proof.
  destruct i as [a|r event|r|]; cbn [step].
  - intros [= <-]. apply cacheStep_fetchChunks.
  - destruct (noMicrotask st); [|discriminate]. apply cacheStep_onevent.
  - destruct (noMicrotask st); [|discriminate]. unfold onclose.
    destruct (requests st !! r) as [[a s0]|]; [|discriminate].
    destruct s0; try discriminate. intros [= <-]. now apply CS_same.
  - apply cacheStep_runMicrotask.
Qed.

(** *** The cache only grows *)

Definition grows (cache cache' : gmap string ChunkCacheEntry) : Prop :=
  forall key e, cache !! key = Some e ->
    exists e', cache' !! key = Some e'
               /\ dom (chunksByIndex e) ⊆ dom (chunksByIndex e').

Lemma grows_refl cache : grows cache cache.
Proof. intros key e He. now exists e. Qed.

Lemma grows_trans c1 c2 c3 : grows c1 c2 -> grows c2 c3 -> grows c1 c3.
Proof.
  intros H12 H23 key e He. destruct (H12 key e He) as (e2 & He2 & Hd2).
  destruct (H23 key e2 He2) as (e3 & He3 & Hd3). exists e3. split; [exact He3|].
  set_solver.
Qed.

Lemma cacheStep_grows cache cache' : CacheStep cache cache' -> grows cache cache'.
Proof.
  intros [->|key h ->|key e i chunk He Hi ->]; [apply grows_refl|..]; intros key' e' He'.
  - destruct (decide (key' = key)) as [->|Hne].
    + rewrite lookup_insert_eq, He'. eexists. split; [reflexivity|]. reflexivity.
    + rewrite lookup_insert_ne by congruence. now exists e'.
  - destruct (decide (key' = key)) as [->|Hne].
    + rewrite lookup_insert_eq. rewrite He in He'. injection He' as <-.
      eexists. split; [reflexivity|]. cbn. apply dom_insert_subseteq.
    + rewrite lookup_insert_ne by congruence. now exists e'.
Qed.

(** X20. The retrieval cache only grows: along any run, an entry of the
    cache is never removed and never loses an index. *)
Theorem chunkCache_only_grows (st st' : State) (trace : list Input)
    (key : string) (e : ChunkCacheEntry) :
  run st trace = Some st' ->
  chunkCache st !! key = Some e ->
  exists e', chunkCache st' !! key = Some e'
             /\ dom (chunksByIndex e) ⊆ dom (chunksByIndex e').
Proof.
  intros Hrun. revert key e.
  change (grows (chunkCache st) (chunkCache st')).
  revert st Hrun. induction trace as [|i trace IH]; intros st; cbn [run].
  - intros [= <-]. apply grows_refl.
  - destruct (step st i) as [st1|] eqn:Hstep; [|discriminate].
    intros Hrun. apply (grows_trans _ (chunkCache st1)).
    + apply cacheStep_grows, (cacheStep_step _ _ _ Hstep).
    + now apply IH.
Qed.

(** *** Chunks sit at their index, results are in order *)

Definition statusKeyed (s : Status) : Prop :=
  match s with
  | AwaitInFlight _ => True
  | Subscribed c _ | PhaseResolved c _ => keyed (chunks c)
  | Settled res | ReturnedCached res | ReturnedReady res | Returned res => ascending res
  end.

Definition cacheKeyed (cache : gmap string ChunkCacheEntry) : Prop :=
  map_Forall (fun _ e => keyed (chunksByIndex e)) cache.

Definition requestsKeyed (reqs : list Request) : Prop :=
  Forall (fun q => statusKeyed (status q)) reqs.

Definition Keyed (st : State) : Prop :=
  cacheKeyed (chunkCache st) /\ requestsKeyed (requests st).

Lemma chunksOf_keyed cache key : cacheKeyed cache -> keyed (chunksOf (cache !! key)).
Proof.
  intros Hc. destruct (cache !! key) as [e|] eqn:He; cbn.
  - exact (Hc key e He).
  - apply map_Forall_empty.
Qed.

Lemma cacheStep_keyed cache cache' :
  CacheStep cache cache' -> cacheKeyed cache -> cacheKeyed cache'.
Proof.
  intros [->|key h ->|key e i chunk He Hi ->] Hc; [exact Hc|..].
  - apply map_Forall_insert_2; [|exact Hc]. cbn. now apply chunksOf_keyed.
  - apply map_Forall_insert_2; [|exact Hc]. cbn.
    apply map_Forall_insert_2; [exact Hi|exact (Hc key e He)].
Qed.

Lemma setStatus_keyed r s reqs :
  requestsKeyed reqs -> statusKeyed s -> requestsKeyed (setStatus r s reqs).
Proof.
  intros Hreqs Hs. unfold setStatus. destruct (reqs !! r) as [q|]; [|exact Hreqs].
  now apply Forall_insert.
Qed.

Lemma newRequest_keyed a s reqs :
  requestsKeyed reqs -> statusKeyed s -> requestsKeyed (newRequest a reqs s).
Proof.
  intros Hreqs Hs. unfold newRequest. apply Forall_app. split; [exact Hreqs|].
  now repeat constructor.
Qed.

Lemma started_keyed m s : keyed m -> started m s -> statusKeyed s.
Proof.
  intros Hm [(c & ph & -> & Hc)| ->]; cbn; [now rewrite Hc|now apply sortedChunks_ascending].
Qed.

Lemma lookup_keyed reqs r a s :
  requestsKeyed reqs -> reqs !! r = Some {| args := a; status := s |} -> statusKeyed s.
Proof. intros Hreqs Hq. exact (proj1 (Forall_lookup _ _) Hreqs r _ Hq). Qed.

Lemma startFetch_keyed r a place st :
  cacheKeyed (chunkCache st) ->
  (forall s, statusKeyed s -> requestsKeyed (place s)) ->
  requestsKeyed (requests (startFetch r a place st)).
Proof.
  intros Hc Hplace. destruct (startFetch_spec r a place st) as (s & Hs & -> & _).
  apply Hplace, (started_keyed _ _ (chunksOf_keyed _ _ Hc) Hs).
Qed.

Lemma fetchChunks_keyed a st : Keyed st -> requestsKeyed (requests (fetchChunks a st)).
Proof.
  intros [Hc Hreqs]. unfold fetchChunks.
  assert (Hstart : requestsKeyed (requests
            (startFetch (List.length (requests st)) a (newRequest a (requests st)) st))).
  { apply startFetch_keyed; [exact Hc|]. intros s. now apply newRequest_keyed. }
  destruct (chunkCache st !! cacheKey a) as [cached|] eqn:Hcached; [|exact Hstart].
  destruct (_ =? _)%Z.
  - cbn. apply newRequest_keyed; [exact Hreqs|]. cbn.
    apply sortedChunks_ascending, (Hc _ _ Hcached).
  - destruct (inFlight cached) as [p|]; [|exact Hstart].
    assert (H1 : requestsKeyed (requests (addRequest a (AwaitInFlight p) st))).
    { cbn. now apply newRequest_keyed. }
    now destruct (promiseSettled _ _).
Qed.

Lemma onevent_keyed r event st st' :
  onevent r event st = Some st' -> Keyed st -> requestsKeyed (requests st').
Proof.
  unfold onevent. intros Hst' [Hc Hreqs].
  destruct (requests st !! r) as [[a s0]|] eqn:Hq; [|discriminate].
  destruct s0 as [| c ph | | | | |]; try discriminate.
  pose proof (lookup_keyed _ _ _ _ Hreqs Hq) as Hkc. cbn in Hkc.
  pose proof (handleEvent_cases r a event c (chunkCache st) (progress st)) as Hshape.
  destruct (handleEvent r a event c (chunkCache st) (progress st))
    as [[c' cache'] progress']. cbn [fst snd] in Hshape.
  assert (Hc' : keyed (chunks c')).
  { destruct Hshape as [[-> _]|(i & chunk & Hi & _ & -> & _)]; [exact Hkc|].
    now apply map_Forall_insert_2. }
  destruct (_ <=? _)%Z; injection Hst' as <-; cbn; now apply setStatus_keyed.
Qed.

Lemma runMicrotask_keyed st st' :
  runMicrotask st = Some st' -> Keyed st -> requestsKeyed (requests st').
Proof.
  unfold runMicrotask. intros Hst' [Hc Hreqs].
  destruct (microtasks st) as [|t rest]; [discriminate|].
  destruct t as [r|r|r]; cbn [requests] in Hst';
    destruct (requests st !! r) as [[a s0]|] eqn:Hq; try discriminate;
    pose proof (lookup_keyed _ _ _ _ Hreqs Hq) as Hs0.
  - destruct s0 as [| | c ph | | | |]; try discriminate. injection Hst' as <-.
    unfold resumeBlock. pose proof (blockResume_started a c ph) as Hs.
    destruct (blockResume a c ph) as [s filters]. cbn.
    apply setStatus_keyed; [exact Hreqs|]. exact (started_keyed _ _ Hs0 Hs).
  - destruct s0 as [| | | res | | |]; try discriminate. injection Hst' as <-.
    cbn. now apply setStatus_keyed.
  - destruct s0 as [p| | | | | |]; try discriminate.
    destruct (promiseSettled _ p); [|discriminate]. injection Hst' as <-.
    unfold resumeWaiter. cbn [chunkCache requests].
    set (st0 := {| chunkCache := chunkCache st; requests := requests st;
                   microtasks := rest; subscriptions := subscriptions st;
                   progress := progress st |}).
    assert (Hstart : requestsKeyed (requests
              (startFetch r a (fun s => setStatus r s (requests st)) st0))).
    { apply startFetch_keyed; [exact Hc|]. intros s. now apply setStatus_keyed. }
    destruct (chunkCache st !! cacheKey a) as [ready|] eqn:Hready; [|exact Hstart].
    destruct (_ =? _)%Z; [|exact Hstart].
    cbn. apply setStatus_keyed; [exact Hreqs|]. cbn.
    apply sortedChunks_ascending, (Hc _ _ Hready).
Qed.

Lemma step_keyed st i st' : step st i = Some st' -> Keyed st -> Keyed st'.
Proof.
  intros Hstep HK. split.
  - exact (cacheStep_keyed _ _ (cacheStep_step _ _ _ Hstep) (proj1 HK)).
  - destruct i as [a|r event|r|]; cbn [step] in Hstep.
    + injection Hstep as <-. now apply fetchChunks_keyed.
    + destruct (noMicrotask st); [|discriminate]. exact (onevent_keyed _ _ _ _ Hstep HK).
    + destruct (noMicrotask st); [|discriminate]. unfold onclose in Hstep.
      destruct HK as [_ Hreqs].
      destruct (requests st !! r) as [[a s0]|] eqn:Hq; [|discriminate].
      destruct s0 as [| c ph | | | | |]; try discriminate. injection Hstep as <-.
      cbn. apply setStatus_keyed; [exact Hreqs|].
      exact (lookup_keyed _ _ _ _ Hreqs Hq).
    + exact (runMicrotask_keyed _ _ Hstep HK).
Qed.

Lemma run_keyed trace : forall st st', run st trace = Some st' -> Keyed st -> Keyed st'.
Proof.
  induction trace as [|i trace IH]; intros st st'; cbn [run].
  - now intros [= <-].
  - destruct (step st i) as [st1|] eqn:Hstep; [|discriminate].
    intros Hrun HK. exact (IH _ _ Hrun (step_keyed _ _ _ Hstep HK)).
Qed.

Lemma initial_keyed : Keyed initial.
Proof. split; [apply map_Forall_empty|constructor]. Qed.

(** X21. In every reachable state each chunk of the cache has the index
    it is stored under, and every list that a request has returned, by any
    of the three returns, is strictly ascending by index: in order and with
    no index twice. *)
Theorem results_strictly_ascending (st : State) :
  reachable st ->
  (forall key e i chunk,
      chunkCache st !! key = Some e -> chunksByIndex e !! i = Some chunk ->
      index chunk = i)
  /\ (forall r res, resultOf st r = Some res -> ascending res).
Proof.
  intros [trace Hrun]. destruct (run_keyed _ _ _ Hrun initial_keyed) as [Hc Hreqs].
  split.
  - intros key e i chunk He Hi. exact (Hc key e He i chunk Hi).
  - intros r res. unfold resultOf.
    destruct (requests st !! r) as [[a s]|] eqn:Hq; [|discriminate].
    pose proof (lookup_keyed _ _ _ _ Hreqs Hq) as Hs. cbn.
    destruct s; try discriminate; now intros [= <-].
Qed.

End EngineInvariants.

Lemma chunkCache_only_grows_witness :
  exists e',
    Nostr.chunkCache (stateAfter completedTrace) !! "pk:hash" = Some e'
    /\ dom (Nostr.chunksByIndex
              {| Nostr.chunksByIndex := {[ JS.Int 1 := chunkEvent 1 "e1" ]};
                 Nostr.inFlight := Some 0%nat |})
       ⊆ dom (Nostr.chunksByIndex e').
Proof.
  apply (chunkCache_only_grows
           (stateAfter [Nostr.Call (exampleArgs 2 None); Nostr.Deliver 0 chunk1])
           (stateAfter completedTrace)
           [Nostr.Deliver 0 chunk0; Nostr.Continue; Nostr.Continue]
           "pk:hash").
  - vm_compute. reflexivity.
  - vm_compute. reflexivity.
Defined.

Lemma results_strictly_ascending_witness :
  ascending [chunkEvent 0 "e0"; chunkEvent 1 "e1"].
Proof.
  assert (Hreach : Nostr.reachable (stateAfter completedTrace)).
  { exists completedTrace. vm_compute. reflexivity. }
  apply (proj2 (results_strictly_ascending (stateAfter completedTrace) Hreach) 0%nat).
  vm_compute. reflexivity.
Defined.

(** ** The course of one retrieval *)

Section RetrievalCourse.

Import Nostr.

Lemma setStatus_lookup reqs r q s :
  reqs !! r = Some q ->
  setStatus r s reqs !! r = Some {| args := args q; status := s |}.
Proof.
  intros Hq. unfold setStatus. rewrite Hq.
  apply list_lookup_insert_eq. now apply lookup_lt_Some in Hq.
Qed.

Lemma noMicrotask_nil st : noMicrotask st = true -> microtasks st = [].
Proof. unfold noMicrotask. now destruct (microtasks st). Qed.

(** With all chunks in, the block returns from either phase. *)
Lemma blockResume_complete a c ph :
  (totalChunks a <= sizeZ (chunks c))%Z ->
  blockResume a c ph = (Settled (sortedChunks (chunks c)), []).
Proof.
  intros Hfull. unfold blockResume, afterIds. destruct ph as [i|]; [|reflexivity].
  destruct (Z.leb_spec (totalChunks a) (sizeZ (chunks c))); [|lia].
  destruct (Z.ltb_spec (sizeZ (chunks c)) (totalChunks a)); [lia|reflexivity].
Qed.

(** X22. When a delivered record brings the map of a retrieval to
    total_chunks indices, the retrieval settles at its next continuation
    with the sorted chunks of its map, from either phase, and opens no
    further subscription: the remaining identifier batches and the
    content-hash query are skipped. *)
Theorem retrieval_stops_when_complete (r : nat) (a : FetchArgs) (c : Closure)
    (ph : Phase) (event : NostrEvent) (st st1 : State) :
  requests st !! r = Some {| args := a; status := Subscribed c ph |} ->
  step st (Deliver r event) = Some st1 ->
  let c' := (handleEvent r a event c (chunkCache st) (progress st)).1.1 in
  (totalChunks a <= sizeZ (chunks c'))%Z ->
  exists st2,
    step st1 Continue = Some st2
    /\ requests st2 !! r
       = Some {| args := a; status := Settled (sortedChunks (chunks c')) |}
    /\ subscriptions st2 = subscriptions st
    /\ chunkCache st2 = chunkCache st1.
Proof.
  intros Hq Hstep c' Hfull. subst c'. cbn [step] in Hstep.
  destruct (noMicrotask st) eqn:Hno; [|discriminate].
  apply noMicrotask_nil in Hno. unfold onevent in Hstep. rewrite Hq in Hstep.
  destruct (handleEvent r a event c (chunkCache st) (progress st))
    as [[c' cache'] progress']. cbn [fst snd] in Hfull.
  destruct (Z.leb_spec (totalChunks a) (sizeZ (chunks c'))); [|lia].
  injection Hstep as <-. rewrite Hno.
  cbn [step runMicrotask microtasks app requests].
  rewrite (setStatus_lookup _ _ _ (PhaseResolved c' ph) Hq). cbn [args].
  unfold resumeBlock. rewrite (blockResume_complete a c' ph Hfull).
  eexists. split; [reflexivity|]. cbn [requests subscriptions chunkCache].
  split; [|split; [now rewrite app_nil_r|reflexivity]].
  now rewrite (setStatus_lookup _ _ _ _ (setStatus_lookup _ _ _ (PhaseResolved c' ph) Hq)).
Qed.

(** *** A retrieval to which nothing is delivered *)

(** The identifiers in batches of at most [CHUNK_ID_BATCH_SIZE]. *)
Fixpoint batchesOf (fuel : nat) (ids : list string) : list (list string) :=
  match fuel with
  | O => []
  | S fuel' =>
      match ids with
      | [] => []
      | _ => take CHUNK_ID_BATCH_SIZE ids
               :: batchesOf fuel' (drop CHUNK_ID_BATCH_SIZE ids)
      end
  end.

Definition batches (ids : list string) : list (list string) :=
  batchesOf (List.length ids) ids.

Lemma batch_size_positive : (0 < CHUNK_ID_BATCH_SIZE)%nat.
Proof. unfold CHUNK_ID_BATCH_SIZE. lia. Qed.

Lemma batchesOf_concat fuel : forall ids,
  (List.length ids <= fuel)%nat -> concat (batchesOf fuel ids) = ids.
Proof.
  pose proof batch_size_positive as Hpos.
  induction fuel as [|fuel IH]; intros ids Hlen.
  - destruct ids; [reflexivity|cbn in Hlen; lia].
  - destruct ids as [|x ids]; [reflexivity|]. cbn [batchesOf concat].
    rewrite IH; [apply take_drop|]. rewrite length_drop. cbn [List.length] in *. lia.
Qed.

Lemma batchesOf_bounds fuel : forall ids,
  Forall (fun b => 0 < List.length b <= CHUNK_ID_BATCH_SIZE)%nat (batchesOf fuel ids).
Proof.
  pose proof batch_size_positive as Hpos.
  induction fuel as [|fuel IH]; intros ids; [constructor|].
  destruct ids as [|x ids]; [constructor|]. cbn [batchesOf].
  constructor; [|apply IH]. rewrite length_take. cbn [List.length]. lia.
Qed.

(** Every subscription of request [r] closes with nothing delivered: [n]
    times the close of the open subscription and the continuation of the
    block. *)
Fixpoint quietRounds (r : nat) (n : nat) : list Input :=
  match n with
  | O => []
  | S n' => Close r :: Continue :: quietRounds r n'
  end.

(** The cache after the finally clause of a request for [key]. *)
Definition handleCleared (key : string) (cache : gmap string ChunkCacheEntry)
  : gmap string ChunkCacheEntry :=
  match cache !! key with
  | Some current =>
      <[key := {| chunksByIndex := chunksByIndex current; inFlight := None |}]> cache
  | None => cache
  end.

(** One quiet round: the subscription closes, the block continues. *)
Lemma quiet_round r a c ph st :
  microtasks st = [] ->
  requests st !! r = Some {| args := a; status := Subscribed c ph |} ->
  exists st',
    run st [Close r; Continue] = Some st'
    /\ requests st' !! r = Some {| args := a; status := (blockResume a c ph).1 |}
    /\ subscriptions st' = subscriptions st ++ (pair r <$> (blockResume a c ph).2)
    /\ chunkCache st' = chunkCache st
    /\ (isSettled (blockResume a c ph).1 = false -> microtasks st' = [])
    /\ (isSettled (blockResume a c ph).1 = true ->
        exists waiters, microtasks st' = ResumeOwner r :: waiters).
Proof.
  intros Hno Hq. cbn [run step]. unfold noMicrotask. rewrite Hno.
  unfold onclose. rewrite Hq, Hno. cbn [runMicrotask microtasks app requests].
  rewrite (setStatus_lookup _ _ _ (PhaseResolved c ph) Hq). cbn [args].
  unfold resumeBlock. destruct (blockResume a c ph) as [s filters].
  eexists. split; [reflexivity|]. cbn [requests subscriptions chunkCache microtasks fst snd].
  split; [|split; [reflexivity|split; [reflexivity|]]].
  - now rewrite (setStatus_lookup _ _ _ _ (setStatus_lookup _ _ _ (PhaseResolved c ph) Hq)).
  - unfold reactions. split; intros ->; [reflexivity|]. now eexists.
Qed.

(** The owner's continuation: the request returns what the block
    returned and the handle is cleared. *)
Lemma owner_returns r a res waiters st :
  microtasks st = ResumeOwner r :: waiters ->
  requests st !! r = Some {| args := a; status := Settled res |} ->
  exists st',
    run st [Continue] = Some st'
    /\ requests st' !! r = Some {| args := a; status := Returned res |}
    /\ subscriptions st' = subscriptions st
    /\ chunkCache st' = handleCleared (cacheKey a) (chunkCache st).
Proof.
  intros Hm Hq. cbn [run step]. unfold runMicrotask. rewrite Hm. cbn [requests].
  rewrite Hq. eexists. split; [reflexivity|].
  cbn [requests subscriptions chunkCache resumeOwner].
  split; [|split; reflexivity].
  now rewrite (setStatus_lookup _ _ _ (Returned res) Hq).
Qed.

Lemma run_app t1 : forall st t2,
  run st (t1 ++ t2) = match run st t1 with
                      | Some st1 => run st1 t2
                      | None => None
                      end.
Proof.
  induction t1 as [|i t1 IH]; intros st t2; [reflexivity|]. cbn [run app].
  destruct (step st i); [apply IH|reflexivity].
Qed.

(** From the content-hash query. *)
Lemma quiet_fallback r a c st :
  microtasks st = [] ->
  requests st !! r = Some {| args := a; status := Subscribed c FallbackX |} ->
  exists st',
    run st (quietRounds r 1 ++ [Continue]) = Some st'
    /\ requests st' !! r
       = Some {| args := a; status := Returned (sortedChunks (chunks c)) |}
    /\ subscriptions st' = subscriptions st
    /\ chunkCache st' = handleCleared (cacheKey a) (chunkCache st).
Proof.
  intros Hno Hq.
  destruct (quiet_round r a c FallbackX st Hno Hq)
    as (st1 & Hrun1 & Hq1 & Hsubs1 & Hcache1 & _ & Hm1).
  cbn [blockResume fst snd] in *. destruct (Hm1 eq_refl) as [waiters Hw].
  destruct (owner_returns r a _ waiters st1 Hw Hq1) as (st2 & Hrun2 & Hq2 & Hsubs2 & Hcache2).
  exists st2. rewrite run_app. cbn [quietRounds]. rewrite Hrun1.
  split; [exact Hrun2|]. split; [exact Hq2|]. split.
  - rewrite Hsubs2, Hsubs1. cbn. apply app_nil_r.
  - now rewrite Hcache2, Hcache1.
Qed.

(** From an identifier batch, short of total_chunks. *)
Lemma quiet_ids r a c fuel : forall i st,
  let ids := (indexByEventId c).*1 in
  let rest := batchesOf fuel (drop (i + CHUNK_ID_BATCH_SIZE) ids) in
  (List.length (drop (i + CHUNK_ID_BATCH_SIZE) ids) <= fuel)%nat ->
  (sizeZ (chunks c) < totalChunks a)%Z ->
  microtasks st = [] ->
  requests st !! r = Some {| args := a; status := Subscribed c (IdsBatch i) |} ->
  exists st',
    run st (quietRounds r (S (S (List.length rest))) ++ [Continue]) = Some st'
    /\ requests st' !! r
       = Some {| args := a; status := Returned (sortedChunks (chunks c)) |}
    /\ subscriptions st'
       = subscriptions st ++ (pair r <$> (idsFilter a <$> rest) ++ [fallbackFilter a])
    /\ chunkCache st' = handleCleared (cacheKey a) (chunkCache st).
Proof.
  pose proof batch_size_positive as Hpos.
  induction fuel as [|fuel IH]; intros i st ids rest Hlen Hshort Hno Hq; subst rest.
  - (* no batch is left *)
    destruct (quiet_round r a c (IdsBatch i) st Hno Hq)
      as (st1 & Hrun1 & Hq1 & Hsubs1 & Hcache1 & Hm1 & _).
    assert (Hres : blockResume a c (IdsBatch i)
                   = (Subscribed c FallbackX, [fallbackFilter a])).
    { unfold blockResume, idsLoop, afterIds. fold ids.
      destruct (Z.leb_spec (totalChunks a) (sizeZ (chunks c))); [lia|].
      rewrite length_drop in Hlen.
      destruct (Nat.ltb_spec (i + CHUNK_ID_BATCH_SIZE) (List.length ids)); [lia|].
      destruct (Z.ltb_spec (sizeZ (chunks c)) (totalChunks a)); [reflexivity|lia]. }
    rewrite Hres in *. cbn [fst snd] in *.
    destruct (quiet_fallback r a c st1 (Hm1 eq_refl) Hq1)
      as (st2 & Hrun2 & Hq2 & Hsubs2 & Hcache2).
    exists st2. cbn [batchesOf List.length fmap list_fmap app].
    change (quietRounds r 2 ++ [Continue])
      with ([Close r; Continue] ++ (quietRounds r 1 ++ [Continue])).
    rewrite run_app, Hrun1. split; [exact Hrun2|]. split; [exact Hq2|]. split.
    + now rewrite Hsubs2, Hsubs1.
    + now rewrite Hcache2, Hcache1.
  - destruct (quiet_round r a c (IdsBatch i) st Hno Hq)
      as (st1 & Hrun1 & Hq1 & Hsubs1 & Hcache1 & Hm1 & _).
    destruct (drop (i + CHUNK_ID_BATCH_SIZE) ids) as [|x tail] eqn:Hdrop.
    + (* no batch is left *)
      assert (Hres : blockResume a c (IdsBatch i)
                     = (Subscribed c FallbackX, [fallbackFilter a])).
      { unfold blockResume, idsLoop, afterIds. fold ids.
        destruct (Z.leb_spec (totalChunks a) (sizeZ (chunks c))); [lia|].
        apply drop_nil_inv in Hdrop.
        destruct (Nat.ltb_spec (i + CHUNK_ID_BATCH_SIZE) (List.length ids)); [lia|].
        destruct (Z.ltb_spec (sizeZ (chunks c)) (totalChunks a)); [reflexivity|lia]. }
      rewrite Hres in *. cbn [fst snd] in *.
      destruct (quiet_fallback r a c st1 (Hm1 eq_refl) Hq1)
        as (st2 & Hrun2 & Hq2 & Hsubs2 & Hcache2).
      exists st2. cbn [batchesOf List.length fmap list_fmap app].
      change (quietRounds r 2 ++ [Continue])
        with ([Close r; Continue] ++ (quietRounds r 1 ++ [Continue])).
      rewrite run_app, Hrun1. split; [exact Hrun2|]. split; [exact Hq2|]. split.
      * now rewrite Hsubs2, Hsubs1.
      * now rewrite Hcache2, Hcache1.
    + (* the next batch *)
      assert (Hlt : (i + CHUNK_ID_BATCH_SIZE < List.length ids)%nat).
      { destruct (Nat.ltb_spec (i + CHUNK_ID_BATCH_SIZE) (List.length ids)) as [H|H];
          [exact H|]. rewrite (drop_ge _ _ H) in Hdrop. discriminate. }
      assert (Hres : blockResume a c (IdsBatch i)
                     = (Subscribed c (IdsBatch (i + CHUNK_ID_BATCH_SIZE)),
                        [idsFilter a (slice (i + CHUNK_ID_BATCH_SIZE) ids)])).
      { unfold blockResume, idsLoop. fold ids.
        destruct (Z.leb_spec (totalChunks a) (sizeZ (chunks c))); [lia|].
        destruct (Nat.ltb_spec (i + CHUNK_ID_BATCH_SIZE) (List.length ids)); [|lia].
        reflexivity. }
      rewrite Hres in *. cbn [fst snd] in *.
      assert (Htail : drop CHUNK_ID_BATCH_SIZE (x :: tail)
                      = drop (i + CHUNK_ID_BATCH_SIZE + CHUNK_ID_BATCH_SIZE) ids).
      { rewrite <- Hdrop, drop_drop. reflexivity. }
      assert (Hlen' : (List.length (drop (i + CHUNK_ID_BATCH_SIZE + CHUNK_ID_BATCH_SIZE) ids)
                       <= fuel)%nat).
      { rewrite <- Htail, length_drop. cbn [List.length] in Hlen |- *. lia. }
      destruct (IH (i + CHUNK_ID_BATCH_SIZE)%nat st1 Hlen' Hshort (Hm1 eq_refl) Hq1)
        as (st2 & Hrun2 & Hq2 & Hsubs2 & Hcache2).
      exists st2. cbn [batchesOf]. rewrite Htail. cbn [List.length].
      change (quietRounds r (S (S (S ?n))) ++ [Continue])
        with ([Close r; Continue] ++ (quietRounds r (S (S n)) ++ [Continue])).
      rewrite run_app, Hrun1. split; [exact Hrun2|]. split; [exact Hq2|]. split.
      * rewrite Hsubs2, Hsubs1. unfold slice. rewrite Hdrop.
        rewrite <- app_assoc. reflexivity.
      * now rewrite Hcache2, Hcache1.
Qed.

(** The closure with which the first retrieval of a file starts. *)
Definition firstClosure (a : FetchArgs) : Closure :=
  {| chunks := ∅; seenEventIds := ∅;
     indexByEventId := buildIndexByEventId (chunkInfos a) |}.

Lemma sortedChunks_empty : sortedChunks ∅ = [].
Proof. unfold sortedChunks. now rewrite map_to_list_empty. Qed.

Lemma sizeZ_empty : sizeZ ∅ = 0%Z.
Proof. unfold sizeZ. now rewrite map_size_empty. Qed.

(** The first call for a file, up to its suspension. *)
Lemma first_call a st :
  microtasks st = [] -> chunkCache st !! cacheKey a = None -> (0 < totalChunks a)%Z ->
  let r := List.length (requests st) in
  let ids := (buildIndexByEventId (chunkInfos a)).*1 in
  let first := match ids with
               | [] => (FallbackX, fallbackFilter a)
               | _ => (IdsBatch 0, idsFilter a (slice 0 ids))
               end in
  microtasks (fetchChunks a st) = []
  /\ chunkCache (fetchChunks a st)
     = <[cacheKey a := {| chunksByIndex := ∅; inFlight := Some r |}]> (chunkCache st)
  /\ requests (fetchChunks a st) !! r
     = Some {| args := a; status := Subscribed (firstClosure a) first.1 |}
  /\ subscriptions (fetchChunks a st) = subscriptions st ++ [(r, first.2)].
Proof.
  intros Hno Hnone Htotal r ids first. unfold fetchChunks, startFetch. rewrite Hnone.
  fold (firstClosure a). fold r.
  assert (Hstart : blockStart a (firstClosure a)
                   = (Subscribed (firstClosure a) first.1, [first.2])).
  { unfold blockStart, idsLoop, afterIds. cbn [indexByEventId chunks firstClosure].
    fold ids. rewrite sizeZ_empty.
    destruct (Z.ltb_spec 0 (totalChunks a)); [|lia]. subst first.
    assert (Hlen : List.length ids = List.length (buildIndexByEventId (chunkInfos a))).
    { unfold ids. apply length_fmap. }
    rewrite <- Hlen. destruct ids as [|x l]; reflexivity. }
  rewrite Hstart. cbn [chunkCache requests microtasks subscriptions isSettled].
  split; [now rewrite Hno|]. split; [reflexivity|]. split; [|reflexivity].
  unfold newRequest. rewrite lookup_app_r by reflexivity.
  now rewrite Nat.sub_diag.
Qed.


End RetrievalCourse.

Lemma retrieval_stops_when_complete_witness :
  exists st2,
    Nostr.step (stateAfter [Nostr.Call (exampleArgs 1 None); Nostr.Deliver 0 chunk0])
      Nostr.Continue = Some st2
    /\ Nostr.status <$> Nostr.requests st2 !! 0%nat
       = Some (Nostr.Settled [chunkEvent 0 "e0"])
    /\ Nostr.subscriptions st2
       = [(0%nat, Nostr.fallbackFilter (exampleArgs 1 None))].
Proof.
  destruct (retrieval_stops_when_complete 0 (exampleArgs 1 None)
              (firstClosure (exampleArgs 1 None)) Nostr.FallbackX chunk0
              (stateAfter [Nostr.Call (exampleArgs 1 None)])
              (stateAfter [Nostr.Call (exampleArgs 1 None); Nostr.Deliver 0 chunk0]))
    as (st2 & Hstep & Hq & Hsubs & _).
  - vm_compute. reflexivity.
  - vm_compute. reflexivity.
  - vm_compute. discriminate.
  - exists st2. split; [exact Hstep|]. split; [|exact Hsubs].
    rewrite Hq. vm_compute. reflexivity.
Defined.

